(** * Bidirectional streaming client of grpc-go-project

    A shallow embedding of [callHelloBiDirectionalStream]
    (grpc-go-project/client, the bidirectional-stream client) as a
    two-thread state machine: the calling goroutine (open the stream, spawn
    the receiver, range over the names, [CloseSend], [<-waitc]) and the
    receiver goroutine ([Recv] until [io.EOF], then [close(waitc)]).

    The gRPC stream is an environment oracle ([transport]).  [log.Fatalf]
    writes its line and then calls [os.Exit(1)]: these are two steps, and
    until the second one the other goroutine keeps running. *)

From Corelib Require Import PrimFloat.
From Stdlib Require Import Ascii String Bool Arith ZArith Lia List.
Import ListNotations.
Local Open Scope string_scope.
Local Open Scope list_scope.

(** ** Messages of the [pb] package used by the client *)

Module pb.
Record HelloRequest := mkHelloRequest { Name : string }.
Record HelloResponse := mkHelloResponse { Message : string }.
Record NamesList := mkNamesList { Names : list string }.
End pb.

(** A non-nil Go [error] other than [io.EOF], identified by its text. *)
Inductive error := Err (text : string).

(** What one [stream.Recv()] returns: a message with a nil error, the
    sentinel [io.EOF], or another error. *)
Inductive recv_result :=
| RecvMsg (m : pb.HelloResponse)
| RecvEOF
| RecvErr (e : error).

(** The stream as the client sees it.  [inbound] lists what successive
    [Recv] calls return; once it is exhausted [Recv] blocks, which is a
    peer that never half-closes. *)
Record transport := mkTransport {
  openResult : option error;
  sendResult : nat -> pb.HelloRequest -> option error;
  closeSendResult : option error;
  inbound : list recv_result
}.

(** ** The channel [waitc := make(chan struct{})]

    Nothing is ever sent on it, so a receive blocks while it is open and
    returns at once when it is closed; closing a closed channel panics. *)
Inductive chan := ChanOpen | ChanClosed.

Definition chan_close (c : chan) : option chan :=
  match c with
  | ChanOpen => Some ChanClosed
  | ChanClosed => None
  end.

Definition chan_recv (c : chan) : option unit :=
  match c with
  | ChanOpen => None
  | ChanClosed => Some tt
  end.

(** ** Observable events *)

(** Lines written through the [log] package, by call site. *)
Inductive log_entry :=
| LogStarted                          (* "Bidirectional Streaming Started" *)
| LogCouldNotSend (e : error)         (* Fatalf "Could not send names %v" *)
| LogErrStreaming (e : error)         (* Fatalf "Error while streaming %v" *)
| LogMessage (m : pb.HelloResponse)   (* Println(message) *)
| LogErrSending (e : error)           (* Fatalf "Error while sending %v" *)
| LogFinished.                        (* "Bidirectional streaming finished" *)

Inductive event :=
| EvLog (l : log_entry)
| EvOpenStream (r : option error)
| EvGo
| EvSend (req : pb.HelloRequest) (r : option error)
| EvSleep
| EvCloseSend (r : option error)
| EvRecv (r : recv_result)
| EvCloseChan
| EvChanRecv
| EvExit (code : nat)
| EvPanic.

Inductive proc_status := Running | Exited (code : nat) | Panicked.

(** Program points of the calling goroutine. *)
Inductive main_point :=
| MStart                (* before the first log line and the stream open *)
| MLoop (i : nat)       (* head of the range loop, at index [i] *)
| MSleep (i : nat)      (* [Send] of index [i] returned nil; at the sleep *)
| MWait                 (* after [CloseSend], at [<-waitc] *)
| MFinish               (* [<-waitc] returned; at the last log line *)
| MReturned             (* the function returned *)
| MFatal (e : error)    (* [Send] returned [e]; at [log.Fatalf] *)
| MExiting              (* the fatal line is written; at [os.Exit(1)] *)
| MExit.                (* called [os.Exit(1)] *)

(** Program points of the receiver goroutine. *)
Inductive recv_point :=
| RIdle                              (* not spawned yet *)
| RLoop                              (* at [stream.Recv()] *)
| RPrint (m : pb.HelloResponse)      (* at [log.Println(message)] *)
| RClose                             (* after [break], at [close(waitc)] *)
| RDone                              (* goroutine finished *)
| RFatal (e : error)                 (* [Recv] returned [e]; at [log.Fatalf] *)
| RExiting                           (* the fatal line is written; at [os.Exit(1)] *)
| RExit.                             (* called [os.Exit(1)], or panicked *)

Record world := mkWorld {
  status : proc_status;
  main_pc : main_point;
  recv_pc : recv_point;
  waitc : chan;
  pending : list recv_result;
  trace : list event
}.

Inductive tid := TMain | TRecv.

(** ** Projections of a trace *)

(** Calls made on the stream's send direction, with what they returned. *)
Inductive call :=
| CallSend (req : pb.HelloRequest) (r : option error)
| CallCloseSend (r : option error).

Definition stream_calls (tr : list event) : list call :=
  flat_map (fun ev => match ev with
                      | EvSend req r => [CallSend req r]
                      | EvCloseSend r => [CallCloseSend r]
                      | _ => []
                      end) tr.

Definition is_send (c : call) : bool :=
  match c with CallSend _ _ => true | CallCloseSend _ => false end.

Definition is_closeSend (c : call) : bool := negb (is_send c).

Definition send_count (tr : list event) : nat :=
  length (filter is_send (stream_calls tr)).

Definition closeSend_count (tr : list event) : nat :=
  length (filter is_closeSend (stream_calls tr)).

(** Results of the [Send] calls, in call order. *)
Definition send_results (tr : list event) : list (option error) :=
  flat_map (fun c => match c with
                     | CallSend _ r => [r]
                     | CallCloseSend _ => []
                     end) (stream_calls tr).

(** The log, and the sink: the messages handed to [log.Println]. *)
Definition log (tr : list event) : list log_entry :=
  flat_map (fun ev => match ev with EvLog l => [l] | _ => [] end) tr.

Definition sink (tr : list event) : list pb.HelloResponse :=
  flat_map (fun ev => match ev with
                      | EvLog (LogMessage m) => [m]
                      | _ => []
                      end) tr.

(** What [Recv] has returned so far. *)
Definition received (tr : list event) : list recv_result :=
  flat_map (fun ev => match ev with EvRecv r => [r] | _ => [] end) tr.

(** How often [close(waitc)] ran, and how often [<-waitc] returned. *)
Definition fired (tr : list event) : nat :=
  length (flat_map (fun ev => match ev with
                              | EvCloseChan => [tt]
                              | _ => []
                              end) tr).

Definition waits (tr : list event) : nat :=
  length (flat_map (fun ev => match ev with
                              | EvChanRecv => [tt]
                              | _ => []
                              end) tr).

(** Errors the run reports: the code's only report is the fatal log line. *)
Definition send_errors (tr : list event) : list error :=
  flat_map (fun ev => match ev with
                      | EvLog (LogErrSending e) => [e]
                      | _ => []
                      end) tr.

Definition recv_errors (tr : list event) : list error :=
  flat_map (fun ev => match ev with
                      | EvLog (LogErrStreaming e) => [e]
                      | _ => []
                      end) tr.

Definition senderError (tr : list event) : option error :=
  hd_error (send_errors tr).

Definition receiverError (tr : list event) : option error :=
  hd_error (recv_errors tr).

Definition requests (names : pb.NamesList) : list pb.HelloRequest :=
  map pb.mkHelloRequest (pb.Names names).

Definition sent_ok (reqs : list pb.HelloRequest) : list call :=
  map (fun q => CallSend q None) reqs.

Definition sender_finished (w : world) : bool :=
  match main_pc w with
  | MWait | MFinish | MReturned => true
  | _ => false
  end.

Definition past_wait (w : world) : bool :=
  match main_pc w with
  | MFinish | MReturned => true
  | _ => false
  end.

Definition main_exited (w : world) : bool :=
  match main_pc w with MExit => true | _ => false end.

Definition recv_exited (w : world) : bool :=
  match recv_pc w with RExit => true | _ => false end.

Definition recv_done (w : world) : bool :=
  match recv_pc w with RDone => true | _ => false end.

(** The receiver is past its last [Recv]: it has seen the end of the
    stream or an error. *)
Definition left_loop (w : world) : bool :=
  match recv_pc w with
  | RClose | RDone | RFatal _ | RExiting | RExit => true
  | _ => false
  end.

(** The same transport with another [CloseSend] result. *)
Definition with_closeSend (T : transport) (r : option error) : transport :=
  mkTransport (openResult T) (sendResult T) r (inbound T).

(** What a user of the program can see: everything but the value that
    [CloseSend] handed back. *)
Definition erase_event (ev : event) : event :=
  match ev with
  | EvCloseSend _ => EvCloseSend None
  | _ => ev
  end.

Definition erase (w : world) : world :=
  mkWorld (status w) (main_pc w) (recv_pc w) (waitc w) (pending w)
    (map erase_event (trace w)).

Section Client.

Variable names : pb.NamesList.
Variable T : transport.

Definition init : world :=
    mkWorld Running MStart RIdle ChanOpen (inbound T) [].

  (** One atomic step of the calling goroutine; [None] when it is blocked
      or finished.  A failed open is fatal before the receiver exists, so
      its line and its exit are one step; a failed [Send] is three: the
      call, the fatal line, the exit. *)
Definition step_main (w : world) : option world :=
    match main_pc w with
    | MStart =>
        match openResult T with
        | Some e =>
            Some (mkWorld (Exited 1) MExit (recv_pc w) (waitc w) (pending w)
                    (trace w ++ [EvLog LogStarted; EvOpenStream (Some e);
                                 EvLog (LogCouldNotSend e); EvExit 1]))
        | None =>
            Some (mkWorld Running (MLoop 0) RLoop ChanOpen (pending w)
                    (trace w ++ [EvLog LogStarted; EvOpenStream None; EvGo]))
        end
    | MLoop i =>
        match nth_error (pb.Names names) i with
        | Some name =>
            let req := pb.mkHelloRequest name in
            match sendResult T i req with
            | Some e =>
                Some (mkWorld Running (MFatal e) (recv_pc w) (waitc w)
                        (pending w) (trace w ++ [EvSend req (Some e)]))
            | None =>
                Some (mkWorld Running (MSleep i) (recv_pc w) (waitc w)
                        (pending w) (trace w ++ [EvSend req None]))
            end
        | None =>
            Some (mkWorld Running MWait (recv_pc w) (waitc w) (pending w)
                    (trace w ++ [EvCloseSend (closeSendResult T)]))
        end
    | MSleep i =>
        Some (mkWorld Running (MLoop (S i)) (recv_pc w) (waitc w) (pending w)
                (trace w ++ [EvSleep]))
    | MWait =>
        match chan_recv (waitc w) with
        | Some _ =>
            Some (mkWorld Running MFinish (recv_pc w) (waitc w) (pending w)
                    (trace w ++ [EvChanRecv]))
        | None => None
        end
    | MFinish =>
        Some (mkWorld Running MReturned (recv_pc w) (waitc w) (pending w)
                (trace w ++ [EvLog LogFinished]))
    | MReturned => None
    | MFatal e =>
        Some (mkWorld Running MExiting (recv_pc w) (waitc w) (pending w)
                (trace w ++ [EvLog (LogErrSending e)]))
    | MExiting =>
        Some (mkWorld (Exited 1) MExit (recv_pc w) (waitc w) (pending w)
                (trace w ++ [EvExit 1]))
    | MExit => None
    end.

  (** One atomic step of the receiver goroutine.  A failed [Recv] is
      three steps: the call, the fatal line, the exit. *)
Definition step_recv (w : world) : option world :=
    match recv_pc w with
    | RIdle => None
    | RLoop =>
        match pending w with
        | [] => None
        | RecvMsg m :: rest =>
            Some (mkWorld Running (main_pc w) (RPrint m) (waitc w) rest
                    (trace w ++ [EvRecv (RecvMsg m)]))
        | RecvEOF :: rest =>
            Some (mkWorld Running (main_pc w) RClose (waitc w) rest
                    (trace w ++ [EvRecv RecvEOF]))
        | RecvErr e :: rest =>
            Some (mkWorld Running (main_pc w) (RFatal e) (waitc w) rest
                    (trace w ++ [EvRecv (RecvErr e)]))
        end
    | RPrint m =>
        Some (mkWorld Running (main_pc w) RLoop (waitc w) (pending w)
                (trace w ++ [EvLog (LogMessage m)]))
    | RClose =>
        match chan_close (waitc w) with
        | Some c =>
            Some (mkWorld Running (main_pc w) RDone c (pending w)
                    (trace w ++ [EvCloseChan]))
        | None =>
            Some (mkWorld Panicked (main_pc w) RExit (waitc w) (pending w)
                    (trace w ++ [EvPanic]))
        end
    | RDone => None
    | RFatal e =>
        Some (mkWorld Running (main_pc w) RExiting (waitc w) (pending w)
                (trace w ++ [EvLog (LogErrStreaming e)]))
    | RExiting =>
        Some (mkWorld (Exited 1) (main_pc w) RExit (waitc w) (pending w)
                (trace w ++ [EvExit 1]))
    | RExit => None
    end.

  (** A goroutine runs only while the process is alive, that is until
      one of them has called [os.Exit]. *)
Definition step (t : tid) (w : world) : option world :=
    match status w with
    | Running =>
        match t with
        | TMain => step_main w
        | TRecv => step_recv w
        end
    | _ => None
    end.

  (** Run under a schedule; a goroutine that cannot move is passed over. *)
Fixpoint run (sched : list tid) (w : world) : world :=
    match sched with
    | [] => w
    | t :: sched' =>
        match step t w with
        | Some w' => run sched' w'
        | None => run sched' w
        end
    end.

Definition stuck (w : world) : Prop :=
    step TMain w = None /\ step TRecv w = None.

  (** *** Invariants of reachable worlds *)

Local Abbreviation reqs := (requests names).

Definition sends_ok_below (i : nat) : Prop :=
    forall j name, j < i -> nth_error (pb.Names names) j = Some name ->
                   sendResult T j (pb.mkHelloRequest name) = None.

Definition main_inv (w : world) : Prop :=
    let cs := stream_calls (trace w) in
    match main_pc w with
    | MStart => trace w = [] /\ recv_pc w = RIdle
    | MLoop i =>
        openResult T = None /\ i <= length reqs /\ sends_ok_below i /\
        cs = sent_ok (firstn i reqs) /\ send_errors (trace w) = []
    | MSleep i =>
        openResult T = None /\ i < length reqs /\ sends_ok_below (S i) /\
        cs = sent_ok (firstn (S i) reqs) /\ send_errors (trace w) = []
    | MWait | MFinish | MReturned =>
        openResult T = None /\ sends_ok_below (length reqs) /\
        cs = sent_ok reqs ++ [CallCloseSend (closeSendResult T)] /\
        send_errors (trace w) = []
    | MFatal e =>
        exists i name,
          openResult T = None /\ sends_ok_below i /\
          nth_error (pb.Names names) i = Some name /\
          sendResult T i (pb.mkHelloRequest name) = Some e /\
          cs = sent_ok (firstn i reqs) ++
               [CallSend (pb.mkHelloRequest name) (Some e)] /\
          send_errors (trace w) = []
    | MExiting =>
        exists i name e,
          openResult T = None /\ sends_ok_below i /\
          nth_error (pb.Names names) i = Some name /\
          sendResult T i (pb.mkHelloRequest name) = Some e /\
          cs = sent_ok (firstn i reqs) ++
               [CallSend (pb.mkHelloRequest name) (Some e)] /\
          send_errors (trace w) = [e]
    | MExit =>
        (openResult T <> None /\ cs = [] /\ send_errors (trace w) = [] /\
         recv_pc w = RIdle) \/
        (exists i name e,
            openResult T = None /\ sends_ok_below i /\
            nth_error (pb.Names names) i = Some name /\
            sendResult T i (pb.mkHelloRequest name) = Some e /\
            cs = sent_ok (firstn i reqs) ++
                 [CallSend (pb.mkHelloRequest name) (Some e)] /\
            send_errors (trace w) = [e])
    end.

Definition recv_inv (w : world) : Prop :=
    received (trace w) ++ pending w = inbound T /\
    match recv_pc w with
    | RIdle =>
        received (trace w) = [] /\ sink (trace w) = [] /\
        recv_errors (trace w) = []
    | RLoop =>
        received (trace w) = map RecvMsg (sink (trace w)) /\
        recv_errors (trace w) = []
    | RPrint m =>
        received (trace w) = map RecvMsg (sink (trace w) ++ [m]) /\
        recv_errors (trace w) = []
    | RClose | RDone =>
        received (trace w) = map RecvMsg (sink (trace w)) ++ [RecvEOF] /\
        recv_errors (trace w) = []
    | RFatal e =>
        received (trace w) = map RecvMsg (sink (trace w)) ++ [RecvErr e] /\
        recv_errors (trace w) = []
    | RExiting | RExit =>
        exists e,
          received (trace w) = map RecvMsg (sink (trace w)) ++ [RecvErr e] /\
          recv_errors (trace w) = [e]
    end.

Definition chan_inv (w : world) : Prop :=
    (if recv_done w
     then waitc w = ChanClosed /\ fired (trace w) = 1
     else waitc w = ChanOpen /\ fired (trace w) = 0) /\
    (if past_wait w
     then recv_pc w = RDone /\ waits (trace w) = 1
     else waits (trace w) = 0).

(** The process is dead exactly when a goroutine called [os.Exit], and
      only one of them ever gets to. *)
Definition status_inv (w : world) : Prop :=
    status w = (if main_exited w || recv_exited w then Exited 1 else Running) /\
    main_exited w && recv_exited w = false.

(** The receiver exists from the first step of the caller on, unless the
      stream could not be opened. *)
Definition spawn_inv (w : world) : Prop :=
    recv_pc w = RIdle -> main_pc w = MStart \/ main_pc w = MExit.

Definition Inv (w : world) : Prop :=
    main_inv w /\ recv_inv w /\ chan_inv w /\ status_inv w /\ spawn_inv w.

  (** *** A bound on the steps still to be taken *)

Definition main_todo (w : world) : nat :=
    match main_pc w with
    | MStart => 2 * length reqs + 4 + 3 * length (pending w)
    | MLoop i => 2 * (length reqs - i) + 3
    | MSleep i => 2 * (length reqs - S i) + 4
    | MWait => 2
    | MFinish => 1
    | MFatal _ => 2
    | MExiting => 1
    | MReturned | MExit => 0
    end.

Definition recv_todo (w : world) : nat :=
    match recv_pc w with
    | RIdle | RLoop => 3 * length (pending w)
    | RPrint _ => 3 * length (pending w) + 1
    | RClose => 1
    | RFatal _ => 2
    | RExiting => 1
    | RDone | RExit => 0
    end.

Definition todo (w : world) : nat := main_todo w + recv_todo w.

(** Every [Send] the loop can issue is accepted. *)
Definition sends_ok : Prop :=
    forall i name, nth_error (pb.Names names) i = Some name ->
                   sendResult T i (pb.mkHelloRequest name) = None.

End Client.

(** ** The scenarios of the client *)

Definition echo (name : string) : pb.HelloResponse :=
  pb.mkHelloResponse (String.append "Echo:" name).

(** The list built in [main]. *)
Definition mainNames : pb.NamesList :=
  pb.mkNamesList ["Aman"; "Aryan"; "Satvik"].

Definition echoes (names : pb.NamesList) : list pb.HelloResponse :=
  map echo (pb.Names names).

(** Every send accepted, every name echoed, then end of stream. *)
Definition transportA : transport :=
  mkTransport None (fun _ _ => None) None
    (map RecvMsg (echoes mainNames) ++ [RecvEOF]).

Definition connReset : error := Err "connection reset".

(** The second [Send] fails; the peer has echoed the first name and ends
    its direction cleanly. *)
Definition transportB : transport :=
  mkTransport None
    (fun i _ => if Nat.eqb i 1 then Some connReset else None) None
    [RecvMsg (echo "Aman"); RecvEOF].

(** The peer echoes every name and never half-closes. *)
Definition transportC : transport :=
  mkTransport None (fun _ _ => None) None (map RecvMsg (echoes mainNames)).

(** [Recv] fails after the first echo. *)
Definition transportRecvErr : transport :=
  mkTransport None (fun _ _ => None) None
    [RecvMsg (echo "Aman"); RecvErr connReset].

Definition brokenPipe : error := Err "broken pipe".

(** The second [Send] fails and so does the second [Recv]. *)
Definition transportBothFail : transport :=
  mkTransport None
    (fun i _ => if Nat.eqb i 1 then Some brokenPipe else None) None
    [RecvMsg (echo "Aman"); RecvErr connReset].

(** Every send accepted, the half-close itself fails. *)
Definition transportCloseFails : transport :=
  with_closeSend transportA (Some connReset).

(** ** Further observations of a run *)

(** How often the caller slept between sends. *)
Definition sleeps (tr : list event) : nat :=
  length (flat_map (fun ev => match ev with
                              | EvSleep => [tt]
                              | _ => []
                              end) tr).

(** The fatal line of the caller's failed [Send] can fall anywhere among
    the receiver's lines, so the log is described without it. *)
Definition is_send_fatal (l : log_entry) : bool :=
  match l with LogErrSending _ => true | _ => false end.

Definition other_lines (tr : list event) : list log_entry :=
  filter (fun l => negb (is_send_fatal l)) (log tr).

(** The line the caller ends the log with: the last line of the function
    when it returned, the fatal line of a failed open. *)
Definition main_last (T : transport) (w : world) : list log_entry :=
  match main_pc w with
  | MReturned => [LogFinished]
  | MExit =>
      match openResult T with
      | Some e => [LogCouldNotSend e]
      | None => []
      end
  | _ => []
  end.

Definition log_inv (T : transport) (w : world) : Prop :=
  match main_pc w with
  | MStart => log (trace w) = []
  | _ => other_lines (trace w) =
         LogStarted :: map LogMessage (sink (trace w)) ++
         map LogErrStreaming (recv_errors (trace w)) ++ main_last T w
  end.

Definition sleeps_inv (names : pb.NamesList) (w : world) : Prop :=
  match main_pc w with
  | MStart => sleeps (trace w) = 0 /\ send_count (trace w) = 0
  | MLoop i => sleeps (trace w) = i /\ send_count (trace w) = i
  | MSleep i => sleeps (trace w) = i /\ send_count (trace w) = S i
  | MWait | MFinish | MReturned =>
      sleeps (trace w) = length (pb.Names names) /\
      send_count (trace w) = length (pb.Names names)
  | MFatal _ | MExiting | MExit =>
      sleeps (trace w) = send_count (trace w) - 1
  end.

(** The stream cannot be opened. *)
Definition transportOpenFails : transport :=
  mkTransport (Some connReset) (fun _ _ => None) None [].

(** The peer ends its direction at once, before any name is sent. *)
Definition transportEarlyEOF : transport :=
  mkTransport None (fun _ _ => None) None [RecvEOF].

(** ** [main] of the client

    [main] dials, defers [conn.Close()], builds the three names and makes
    the bidirectional call.  [log.Fatalf] ends the process through
    [os.Exit], which runs no deferred call. *)

Inductive main_event :=
| MainDial (r : option error)
| MainLogDidNotConnect (e : error)    (* Fatalf "did not connect: %v" *)
| MainStream (ev : event)             (* inside callHelloBiDirectionalStream *)
| MainConnClose                       (* the deferred [conn.Close()] *)
| MainExit (code : nat).

Definition client_main (dial : option error) (T : transport)
    (sched : list tid) : list main_event * proc_status :=
  match dial with
  | Some e => ([MainDial (Some e); MainLogDidNotConnect e; MainExit 1], Exited 1)
  | None =>
      let w := run mainNames T sched (init T) in
      match main_pc w with
      | MReturned =>
          (MainDial None :: map MainStream (trace w) ++
             [MainConnClose; MainExit 0], Exited 0)
      | _ => (MainDial None :: map MainStream (trace w), status w)
      end
  end.

Definition stream_events (evs : list main_event) : list event :=
  flat_map (fun ev => match ev with MainStream e => [e] | _ => [] end) evs.

(** ** The client-streaming call [callSayHelloClientStream]

    One goroutine: open the stream, send every name with a log line and a
    sleep after each, then [CloseAndRecv], the "finished" line, the error
    check and the reply. *)

Section ClientStream.

(** The type of [res.Messages]. *)
Variable Messages : Type.

Record stream_transport := mkStreamTransport {
  csOpenResult : option error;
  csSendResult : nat -> pb.HelloRequest -> option error;
  csCloseAndRecvResult : Messages + error
}.

Inductive cs_log :=
| CsLogStarted                  (* "Client Streaming Started" *)
| CsLogCouldNotSend (e : error) (* Fatalf "could not send names : %v" *)
| CsLogErrSending (e : error)   (* Fatalf "Error while sending %v" *)
| CsLogSent (name : string)     (* "Send the request with name : %s" *)
| CsLogFinished                 (* "Client streaming finished" *)
| CsLogErrReceiving (e : error) (* Fatalf "Error while recieving %v" *)
| CsLogMessages (m : Messages). (* "%v", res.Messages *)

Inductive cs_event :=
| CsEvLog (l : cs_log)
| CsEvOpen (r : option error)
| CsEvSend (req : pb.HelloRequest) (r : option error)
| CsEvSleep
| CsEvCloseAndRecv (r : Messages + error)
| CsEvExit (code : nat).

Inductive cs_outcome := CsReturned | CsExited (code : nat).

(** The range loop, from index [i] over the names still to send; the
    second component is the error that ended it. *)
Fixpoint cs_send_loop (T : stream_transport) (i : nat) (rest : list string)
    : list cs_event * option error :=
  match rest with
  | [] => ([], None)
  | name :: rest' =>
      let req := pb.mkHelloRequest name in
      match csSendResult T i req with
      | Some e =>
          ([CsEvSend req (Some e); CsEvLog (CsLogErrSending e); CsEvExit 1],
           Some e)
      | None =>
          let '(evs, r) := cs_send_loop T (S i) rest' in
          (CsEvSend req None :: CsEvLog (CsLogSent name) :: CsEvSleep :: evs,
           r)
      end
  end.

Definition callSayHelloClientStream (T : stream_transport)
    (names : pb.NamesList) : list cs_event * cs_outcome :=
  match csOpenResult T with
  | Some e =>
      ([CsEvLog CsLogStarted; CsEvOpen (Some e);
        CsEvLog (CsLogCouldNotSend e); CsEvExit 1], CsExited 1)
  | None =>
      let '(evs, r) := cs_send_loop T 0 (pb.Names names) in
      let pre := CsEvLog CsLogStarted :: CsEvOpen None :: evs in
      match r with
      | Some _ => (pre, CsExited 1)
      | None =>
          match csCloseAndRecvResult T with
          | inr e =>
              (pre ++ [CsEvCloseAndRecv (inr e); CsEvLog CsLogFinished;
                       CsEvLog (CsLogErrReceiving e); CsEvExit 1],
               CsExited 1)
          | inl res =>
              (pre ++ [CsEvCloseAndRecv (inl res); CsEvLog CsLogFinished;
                       CsEvLog (CsLogMessages res)], CsReturned)
          end
      end
  end.

(** The calls on the stream, in order. *)
Inductive cs_call :=
| CsCallSend (req : pb.HelloRequest) (r : option error)
| CsCallCloseAndRecv.

Definition cs_calls (evs : list cs_event) : list cs_call :=
  flat_map (fun ev => match ev with
                      | CsEvSend req r => [CsCallSend req r]
                      | CsEvCloseAndRecv _ => [CsCallCloseAndRecv]
                      | _ => []
                      end) evs.

Definition cs_logs (evs : list cs_event) : list cs_log :=
  flat_map (fun ev => match ev with CsEvLog l => [l] | _ => [] end) evs.

Definition cs_sleeps (evs : list cs_event) : nat :=
  length (flat_map (fun ev => match ev with
                              | CsEvSleep => [tt]
                              | _ => []
                              end) evs).

Definition cs_sends_ok (T : stream_transport) (names : pb.NamesList) : Prop :=
  forall i name, nth_error (pb.Names names) i = Some name ->
                 csSendResult T i (pb.mkHelloRequest name) = None.

End ClientStream.

Arguments CsLogStarted {Messages}.
Arguments CsLogCouldNotSend {Messages} e.
Arguments CsLogErrSending {Messages} e.
Arguments CsLogSent {Messages} name.
Arguments CsLogFinished {Messages}.
Arguments CsLogErrReceiving {Messages} e.
Arguments CsLogMessages {Messages} m.
Arguments CsEvLog {Messages} l.
Arguments CsEvOpen {Messages} r.
Arguments CsEvSend {Messages} req r.
Arguments CsEvSleep {Messages}.
Arguments CsEvCloseAndRecv {Messages} r.
Arguments CsEvExit {Messages} code.
Arguments csOpenResult {Messages} s.
Arguments csSendResult {Messages} s _ _.
Arguments csCloseAndRecvResult {Messages} s.
Arguments cs_send_loop {Messages} T i rest.
Arguments callSayHelloClientStream {Messages} T names.
Arguments cs_calls {Messages} evs.
Arguments cs_logs {Messages} evs.
Arguments cs_sleeps {Messages} evs.
Arguments cs_sends_ok {Messages} T names.

(** The stream accepts two names and fails on the third; the reply would
    be the two greetings. *)
Definition csTransportThirdFails : stream_transport (list string) :=
  mkStreamTransport (list string) None
    (fun i _ => if Nat.eqb i 2 then Some connReset else None)
    (inl ["Hello Aman"; "Hello Aryan"]).

(** Every send is accepted and the final receive fails. *)
Definition csTransportRecvFails : stream_transport (list string) :=
  mkStreamTransport (list string) None (fun _ _ => None) (inr connReset).

(** Every send is accepted and the server replies. *)
Definition csTransportOk : stream_transport (list string) :=
  mkStreamTransport (list string) None (fun _ _ => None)
    (inl ["Hello Aman"; "Hello Aryan"; "Hello Satvik"]).

(** * The text-to-speech command (tts-model-project)

    [cmd.CLI.Run] validates the flags, creates the speech client and
    synthesizes either the [-text] flag or the whole input file.  The
    Google client, the file system and the flag parser are environment
    oracles; what the command does with them is a trace of events and an
    exit code. *)

Module texttospeechpb.

(** The values the command names; the enums of the API have more. *)
Inductive AudioEncoding :=
| AudioEncoding_MP3
| AudioEncoding_LINEAR16
| AudioEncoding_OGG_OPUS.

Inductive SsmlVoiceGender := SsmlVoiceGender_NEUTRAL.

Record SynthesisInput := mkSynthesisInput { Text : string }.

Record VoiceSelectionParams := mkVoiceSelectionParams {
  LanguageCode : string;
  Name : string;
  SsmlGender : SsmlVoiceGender
}.

Record AudioConfig := mkAudioConfig {
  Encoding : AudioEncoding;
  SpeakingRate : float;
  Pitch : float
}.

Record SynthesizeSpeechRequest := mkSynthesizeSpeechRequest {
  Input : SynthesisInput;
  Voice : VoiceSelectionParams;
  Config : AudioConfig
}.

Record SynthesizeSpeechResponse := mkSynthesizeSpeechResponse {
  AudioContent : list Byte.byte
}.

End texttospeechpb.

Module speech.

Definition VoiceStandardA : string := "ja-JP-Standard-A".
Definition VoiceStandardB : string := "ja-JP-Standard-B".
Definition VoiceStandardC : string := "ja-JP-Standard-C".
Definition VoiceStandardD : string := "ja-JP-Standard-D".
Definition VoiceWavenetA : string := "ja-JP-Wavenet-A".
Definition VoiceWavenetB : string := "ja-JP-Wavenet-B".
Definition VoiceWavenetC : string := "ja-JP-Wavenet-C".
Definition VoiceWavenetD : string := "ja-JP-Wavenet-D".

Record SpeechOption := mkSpeechOption {
  LanguageCode : string;
  VoiceName : string;
  AudioEncoding : texttospeechpb.AudioEncoding;
  AudioSpeakingRate : float;
  AudioPitch : float
}.

(** A [*texttospeech.Client], by identity. *)
Inductive Client := mkClient (id : nat).

Record Speaker := mkSpeaker { client : Client }.

(** [NewSpeechClient]: the package variable [speaker] is threaded as
    state; [newClient] is what [texttospeech.NewClient] returns if it is
    called.  The boolean tells whether it was called. *)
Definition NewSpeechClient (newClient : Client + error)
    (speaker : option Speaker)
    : (Speaker + error) * option Speaker * bool :=
  match speaker with
  | Some s => (inl s, speaker, false)
  | None =>
      match newClient with
      | inr err => (inr err, None, true)
      | inl c => (inl (mkSpeaker c), Some (mkSpeaker c), true)
      end
  end.

Definition NewRequest (text : string) (opt : SpeechOption)
    : texttospeechpb.SynthesizeSpeechRequest :=
  texttospeechpb.mkSynthesizeSpeechRequest
    (texttospeechpb.mkSynthesisInput text)
    (texttospeechpb.mkVoiceSelectionParams
       (LanguageCode opt) (VoiceName opt)
       texttospeechpb.SsmlVoiceGender_NEUTRAL)
    (texttospeechpb.mkAudioConfig
       (AudioEncoding opt) (AudioSpeakingRate opt) (AudioPitch opt)).

(** [Speaker.Run]: [synthesize] is [s.client.SynthesizeSpeech]. *)
Definition Run
    (synthesize : texttospeechpb.SynthesizeSpeechRequest ->
                  texttospeechpb.SynthesizeSpeechResponse + error)
    (req : texttospeechpb.SynthesizeSpeechRequest)
    : list Byte.byte + error :=
  match synthesize req with
  | inr err => inr err
  | inl resp => inl (texttospeechpb.AudioContent resp)
  end.

Record StreamAudioProcessor := mkStreamAudioProcessor {
  speaker : Speaker;
  option_ : SpeechOption;   (* the field [option] *)
  outputW : string;      (* the file the writer writes to *)
  chunkSize : Z
}.

Definition NewStreamAudioProcessor (speaker : Speaker) (opt : SpeechOption)
    (output : string) (chunkSize : Z) : StreamAudioProcessor :=
  let chunkSize := if (chunkSize <=? 0)%Z then 1000%Z else chunkSize in
  mkStreamAudioProcessor speaker opt output chunkSize.

(** The errors [ProcessTextStream] wraps. *)
Inductive process_error :=
| FailedToReadInput (err : error)   (* "failed to read input: %v" *)
| SynthesisFailed (err : error)     (* "synthesis failed: %v" *)
| FailedToWriteAudio (err : error). (* "failed to write audio: %v" *)

(** What [ProcessTextStream] does, in order. *)
Inductive process_event :=
| PReadAll (r : string + error)
| PSynthesize (req : texttospeechpb.SynthesizeSpeechRequest)
    (r : list Byte.byte + error)
| PWrite (output : string) (data : list Byte.byte) (r : option error).

(** [ProcessTextStream]: [readAll] is [io.ReadAll(textInput)], [write]
    is [p.outputW.Write]. *)
Definition ProcessTextStream
    (synthesize : texttospeechpb.SynthesizeSpeechRequest ->
                  texttospeechpb.SynthesizeSpeechResponse + error)
    (write : string -> list Byte.byte -> option error)
    (p : StreamAudioProcessor) (readAll : string + error)
    : list process_event * option process_error :=
  match readAll with
  | inr err => ([PReadAll (inr err)], Some (FailedToReadInput err))
  | inl content =>
      let req := NewRequest content (option_ p) in
      match Run synthesize req with
      | inr err =>
          ([PReadAll (inl content); PSynthesize req (inr err)],
           Some (SynthesisFailed err))
      | inl audioData =>
          match write (outputW p) audioData with
          | Some err =>
              ([PReadAll (inl content); PSynthesize req (inl audioData);
                PWrite (outputW p) audioData (Some err)],
               Some (FailedToWriteAudio err))
          | None =>
              ([PReadAll (inl content); PSynthesize req (inl audioData);
                PWrite (outputW p) audioData None], None)
          end
      end
  end.

End speech.

Module cmd.

Definition ExitCodeOK : Z := 0.
Definition ExitCodeParseFlagsError : Z := 1.
Definition ExitCodeValidateError : Z := 2.
Definition ExitCodeInternalError : Z := 3.
Definition ExitCodeOutputFileError : Z := 4.

(** The errors [makeSpeechOpt] builds with [fmt.Errorf]. *)
Inductive opt_error :=
| ErrEmptyText                       (* "empty text" *)
| ErrUnknownVoice (v : string)       (* "unknown voiceName: %v", lowered *)
| ErrRate (rate : float)             (* "valid speaking_rate is between ..." *)
| ErrPitch (pitch : float)           (* "valid pitch is between ..." *)
| ErrUnknownExt (out : string).      (* "unknown extension (out:%s)" *)

(** The flags after a successful [flags.Parse], defaults filled in. *)
Record flag_values := mkFlags {
  text : string;
  voice : string;
  out : string;
  inputFile : string;
  rate : float;
  pitch : float;
  streaming : bool;
  chunkSize : Z
}.

(** What goes to [cli.ErrStream]. *)
Inductive err_line :=
| ErrParse (err : error)
| ErrValidate (err : opt_error)
| ErrPlain (err : error)
| ErrNeedsInputFileFlag   (* "Streaming mode requires an input file (--input-file)" *)
| ErrNeedsText            (* "Non-streaming mode requires text input (-text)" *)
| ErrOpenInput (err : error)       (* "Failed to open input file: %v" *)
| ErrNeedsInputFile                (* "Streaming mode requires an input file" *)
| ErrCreateOutput (err : error)    (* "Failed to create output file: %v" *)
| ErrStreaming (err : speech.process_error).
                                   (* "Error during streaming processing: %v" *)

(** What goes to standard output. *)
Inductive out_line :=
| OutAudioCreated (out : string)
| OutStreamingCreated (outFile : string).

(** [EFlagReport] is what [flags.Parse] itself writes when it fails: the
    set is made with [flag.ContinueOnError] and [SetOutput] is never
    called, so the [flag] package prints the error (unless it is
    [flag.ErrHelp]) and the usage to [os.Stderr] before it returns the
    error to [Run]. *)
Inductive cli_event :=
| EFlagReport (err : error)
| EStderr (l : err_line)
| EStdout (l : out_line)
| ENewClient (r : option error)
| ESynthesize (req : texttospeechpb.SynthesizeSpeechRequest)
    (r : list Byte.byte + error)
| EWriteFile (path : string) (data : list Byte.byte) (r : option error)
| EOpen (path : string) (r : option error)
| ECreate (path : string) (r : option error)
| EReadAll (path : string) (r : string + error)
| EWrite (path : string) (data : list Byte.byte) (r : option error)
| EClose (path : string).

(** The world outside the command. *)
Record environment := mkEnvironment {
  newClient : speech.Client + error;
  synthesize : texttospeechpb.SynthesizeSpeechRequest ->
               texttospeechpb.SynthesizeSpeechResponse + error;
  writeFile : string -> list Byte.byte -> option error;
  openFile : string -> option error;
  readAll : string -> string + error;
  createFile : string -> option error;
  write : string -> list Byte.byte -> option error
}.

Section WithStrings.

(** [strings.ToLower] and [filepath.Ext] of the Go library. *)
Variable ToLower : string -> string.
Variable Ext : string -> string.

(** The [switch] over the lowered voice. *)
Definition voiceName (v : string) : option string :=
  if String.eqb v "stand-a" then Some speech.VoiceStandardA
  else if String.eqb v "stand-b" then Some speech.VoiceStandardB
  else if String.eqb v "stand-c" then Some speech.VoiceStandardC
  else if String.eqb v "stand-d" then Some speech.VoiceStandardD
  else if String.eqb v "wavenet-a" then Some speech.VoiceWavenetA
  else if String.eqb v "wavenet-b" then Some speech.VoiceWavenetB
  else if String.eqb v "wavenet-c" then Some speech.VoiceWavenetC
  else if String.eqb v "wavenet-d" then Some speech.VoiceWavenetD
  else None.

Definition makeSpeechOpt (text voice out : string) (rate pitch : float)
    : speech.SpeechOption + opt_error :=
  if String.eqb text "" then inr ErrEmptyText
  else
    let v := ToLower voice in
    match voiceName v with
    | None => inr (ErrUnknownVoice v)
    | Some name =>
        if PrimFloat.ltb rate 0.25 || PrimFloat.ltb 4.0 rate
        then inr (ErrRate rate)
        else if PrimFloat.ltb pitch (-20.00) || PrimFloat.ltb 20.00 pitch
        then inr (ErrPitch pitch)
        else
          let ext := ToLower (Ext out) in
          if String.eqb ext ".wav"
          then inl (speech.mkSpeechOption "ja-JP" name
                      texttospeechpb.AudioEncoding_LINEAR16 rate pitch)
          else if String.eqb ext ".mp3"
          then inl (speech.mkSpeechOption "ja-JP" name
                      texttospeechpb.AudioEncoding_MP3 rate pitch)
          else inr (ErrUnknownExt out)
    end.

Definition handleNonStreaming (env : environment)
    (opt : speech.SpeechOption) (text out : string)
    : list cli_event * Z :=
  let req := speech.NewRequest text opt in
  match speech.Run (synthesize env) req with
  | inr err =>
      ([ESynthesize req (inr err); EStderr (ErrPlain err)],
       ExitCodeInternalError)
  | inl audioData =>
      match writeFile env out audioData with
      | Some err =>
          ([ESynthesize req (inl audioData);
            EWriteFile out audioData (Some err); EStderr (ErrPlain err)],
           ExitCodeOutputFileError)
      | None =>
          ([ESynthesize req (inl audioData);
            EWriteFile out audioData None; EStdout (OutAudioCreated out)],
           ExitCodeOK)
      end
  end.

(** The events of [ProcessTextStream] as events of the command. *)
Definition of_process_event (inputFile : string) (ev : speech.process_event)
    : cli_event :=
  match ev with
  | speech.PReadAll r => EReadAll inputFile r
  | speech.PSynthesize req r => ESynthesize req r
  | speech.PWrite output data r => EWrite output data r
  end.

Definition handleStreaming (env : environment) (speaker : speech.Speaker)
    (opt : speech.SpeechOption) (inputFile outFile : string) (chunkSize : Z)
    : list cli_event * Z :=
  if String.eqb inputFile ""
  then ([EStderr ErrNeedsInputFile], ExitCodeParseFlagsError)
  else
    match openFile env inputFile with
    | Some err =>
        ([EOpen inputFile (Some err); EStderr (ErrOpenInput err)],
         ExitCodeParseFlagsError)
    | None =>
        match createFile env outFile with
        | Some err =>
            ([EOpen inputFile None; ECreate outFile (Some err);
              EStderr (ErrCreateOutput err); EClose inputFile],
             ExitCodeOutputFileError)
        | None =>
            let processor :=
              speech.NewStreamAudioProcessor speaker opt outFile chunkSize in
            let '(evs, r) :=
              speech.ProcessTextStream (synthesize env) (write env)
                processor (readAll env inputFile) in
            let pre :=
              [EOpen inputFile None; ECreate outFile None] ++
              map (of_process_event inputFile) evs in
            match r with
            | Some err =>
                (pre ++ [EStderr (ErrStreaming err); EClose outFile;
                         EClose inputFile], ExitCodeInternalError)
            | None =>
                (pre ++ [EStdout (OutStreamingCreated outFile);
                         EClose outFile; EClose inputFile], ExitCodeOK)
            end
        end
    end.

(** [CLI.Run]: [parsed] is what [flags.Parse] comes back with, the parse
    error or the flag values; [speaker] is the package variable of
    [speech] on entry.  A failed parse has already been reported by the
    [flag] package when [Run] writes the error to [cli.ErrStream]. *)
Definition Run (env : environment) (speaker : option speech.Speaker)
    (parsed : flag_values + error) : list cli_event * Z :=
  match parsed with
  | inr err =>
      ([EFlagReport err; EStderr (ErrParse err)], ExitCodeParseFlagsError)
  | inl f =>
      let validated :=
        if streaming f
        then makeSpeechOpt "dummy-text-for-streaming" (voice f) (out f)
               (rate f) (pitch f)
        else makeSpeechOpt (text f) (voice f) (out f) (rate f) (pitch f) in
      match validated with
      | inr err => ([EStderr (ErrValidate err)], ExitCodeValidateError)
      | inl opt =>
          let '(r, _, called) := speech.NewSpeechClient (newClient env) speaker in
          let created :=
            if called
            then [ENewClient (match r with inl _ => None | inr e => Some e end)]
            else [] in
          match r with
          | inr err =>
              (created ++ [EStderr (ErrPlain err)], ExitCodeInternalError)
          | inl spk =>
              if streaming f
              then
                if String.eqb (inputFile f) ""
                then (created ++ [EStderr ErrNeedsInputFileFlag],
                      ExitCodeParseFlagsError)
                else
                  let '(evs, code) :=
                    handleStreaming env spk opt (inputFile f) (out f)
                      (chunkSize f) in
                  (created ++ evs, code)
              else
                if String.eqb (text f) ""
                then (created ++ [EStderr ErrNeedsText],
                      ExitCodeValidateError)
                else
                  let '(evs, code) :=
                    handleNonStreaming env opt (text f) (out f) in
                  (created ++ evs, code)
          end
      end
  end.

End WithStrings.

End cmd.

(** [strings.ToLower] on strings of ASCII letters, digits and
    punctuation, and [filepath.Ext] with [/] as the separator, to run the
    command on concrete flags. *)
Definition lowerAscii (c : Ascii.ascii) : Ascii.ascii :=
  let n := Ascii.nat_of_ascii c in
  if Nat.leb 65 n && Nat.leb n 90 then Ascii.ascii_of_nat (n + 32) else c.

Fixpoint asciiToLower (s : string) : string :=
  match s with
  | EmptyString => EmptyString
  | String c s' => String (lowerAscii c) (asciiToLower s')
  end.

(** The extension of the reversed path: the characters up to the first
    dot, if it comes before any separator. *)
Fixpoint revExt (r : list Ascii.ascii) : option (list Ascii.ascii) :=
  match r with
  | [] => None
  | c :: r' =>
      if Ascii.eqb c "."%char then Some [c]
      else if Ascii.eqb c "/"%char then None
      else match revExt r' with
           | Some e => Some (c :: e)
           | None => None
           end
  end.

Definition pathExt (path : string) : string :=
  match revExt (rev (list_ascii_of_string path)) with
  | Some e => string_of_list_ascii (rev e)
  | None => EmptyString
  end.

(** An environment in which everything succeeds: the synthesizer
    answers two bytes, the input file holds a greeting. *)
Definition envOk : cmd.environment :=
  cmd.mkEnvironment (inl (speech.mkClient 0))
    (fun _ => inl (texttospeechpb.mkSynthesizeSpeechResponse
                     [Byte.x52; Byte.x49]))
    (fun _ _ => None) (fun _ => None) (fun _ => inl "konnichiwa")
    (fun _ => None) (fun _ _ => None).

(** The same with a synthesizer that fails. *)
Definition envSynthFails : cmd.environment :=
  cmd.mkEnvironment (inl (speech.mkClient 0))
    (fun _ => inr (Err "quota exceeded"))
    (fun _ _ => None) (fun _ => None) (fun _ => inl "konnichiwa")
    (fun _ => None) (fun _ _ => None).

(** The same with a client that cannot be created. *)
Definition envNoClient : cmd.environment :=
  cmd.mkEnvironment (inr (Err "no credentials"))
    (fun _ => inr (Err "quota exceeded"))
    (fun _ _ => None) (fun _ => None) (fun _ => inl "konnichiwa")
    (fun _ => None) (fun _ _ => None).

(** The flags with their defaults, as [flags.Parse] leaves them. *)
Definition defaultFlags : cmd.flag_values :=
  cmd.mkFlags "" "stand-a" "" "" 1.00 0.00 false 1000.

Definition nonStreamingFlags : cmd.flag_values :=
  cmd.mkFlags "hello" "Wavenet-B" "out/hello.MP3" "" 1.00 0.00 false 1000.

Definition streamingFlags : cmd.flag_values :=
  cmd.mkFlags "" "stand-a" "speech.wav" "input.txt" 1.00 0.00 true 0.

(** ** Observations of a run of the command *)

Definition stderr_lines (evs : list cmd.cli_event) : list cmd.err_line :=
  flat_map (fun ev => match ev with cmd.EStderr l => [l] | _ => [] end) evs.

(** What the [flag] package reported on its own. *)
Definition flag_reports (evs : list cmd.cli_event) : list error :=
  flat_map (fun ev => match ev with cmd.EFlagReport e => [e] | _ => [] end) evs.

Definition stdout_lines (evs : list cmd.cli_event) : list cmd.out_line :=
  flat_map (fun ev => match ev with cmd.EStdout l => [l] | _ => [] end) evs.

(** The synthesis requests sent, with what they returned. *)
Definition synth_calls (evs : list cmd.cli_event)
    : list (texttospeechpb.SynthesizeSpeechRequest *
            (list Byte.byte + error)) :=
  flat_map (fun ev => match ev with
                      | cmd.ESynthesize req r => [(req, r)]
                      | _ => []
                      end) evs.

(** The files opened or created, and the files closed, in order. *)
Definition files_opened (evs : list cmd.cli_event) : list string :=
  flat_map (fun ev => match ev with
                      | cmd.EOpen p None => [p]
                      | cmd.ECreate p None => [p]
                      | _ => []
                      end) evs.

Definition files_closed (evs : list cmd.cli_event) : list string :=
  flat_map (fun ev => match ev with cmd.EClose p => [p] | _ => [] end) evs.

(** The files created or written, successfully or not. *)
Definition output_touched (evs : list cmd.cli_event) : list string :=
  flat_map (fun ev => match ev with
                      | cmd.ECreate p _ => [p]
                      | cmd.EWrite p _ _ => [p]
                      | cmd.EWriteFile p _ _ => [p]
                      | _ => []
                      end) evs.

(** The audio written out in full. *)
Definition audio_written (evs : list cmd.cli_event)
    : list (string * list Byte.byte) :=
  flat_map (fun ev => match ev with
                      | cmd.EWrite p d None => [(p, d)]
                      | cmd.EWriteFile p d None => [(p, d)]
                      | _ => []
                      end) evs.

Definition client_calls (evs : list cmd.cli_event) : nat :=
  length (flat_map (fun ev => match ev with
                              | cmd.ENewClient _ => [tt]
                              | _ => []
                              end) evs).

(** * Properties *)

(** ** Lists *)

Lemma firstn_snoc {A} (l : list A) i x :
  nth_error l i = Some x -> firstn (S i) l = firstn i l ++ [x].
Proof.
  revert i; induction l as [|a l IH]; intros [|i] H; simpl in *;
    try discriminate.
  - now inversion H.
  - f_equal. now apply IH.
Qed.

Lemma map_msg_split s1 s2 x y (p q : list recv_result) :
  (forall m, x <> RecvMsg m) -> (forall m, y <> RecvMsg m) ->
  map RecvMsg s1 ++ x :: p = map RecvMsg s2 ++ y :: q ->
  s1 = s2 /\ x = y /\ p = q.
Proof.
  intros Hx Hy. revert s2.
  induction s1 as [|a s1 IH]; intros [|b s2] H; simpl in *.
  - inversion H; auto.
  - inversion H. exfalso. eapply Hx; eauto.
  - inversion H. exfalso. eapply Hy; eauto.
  - inversion H; subst. destruct (IH s2) as (-> & -> & ->); auto.
Qed.

Lemma map_msg_prefix s ms (p q : list recv_result) y :
  (forall m, y <> RecvMsg m) ->
  map RecvMsg s ++ p = map RecvMsg ms ++ y :: q ->
  (exists rest, ms = s ++ rest /\ p = map RecvMsg rest ++ y :: q).
Proof.
  intros Hy. revert ms.
  induction s as [|a s IH]; intros ms H; simpl in *.
  - exists ms; auto.
  - destruct ms as [|b ms]; simpl in *.
    + inversion H. exfalso. eapply Hy; eauto.
    + inversion H; subst. destruct (IH ms) as (rest & -> & ->); auto.
      exists rest; auto.
Qed.

Lemma map_msg_all s ms (p : list recv_result) :
  map RecvMsg s ++ p = map RecvMsg ms ->
  exists rest, ms = s ++ rest /\ p = map RecvMsg rest.
Proof.
  revert ms.
  induction s as [|a s IH]; intros ms H; simpl in *.
  - exists ms; auto.
  - destruct ms as [|b ms]; simpl in *; [discriminate|].
    inversion H; subst. destruct (IH ms) as (rest & -> & ->); auto.
    exists rest; auto.
Qed.

(** ** Projections distribute over the events a step appends *)

Lemma stream_calls_app a b :
  stream_calls (a ++ b) = stream_calls a ++ stream_calls b.
Proof. apply flat_map_app. Qed.

Lemma log_app a b : log (a ++ b) = log a ++ log b.
Proof. apply flat_map_app. Qed.

Lemma sink_app a b : sink (a ++ b) = sink a ++ sink b.
Proof. apply flat_map_app. Qed.

Lemma received_app a b : received (a ++ b) = received a ++ received b.
Proof. apply flat_map_app. Qed.

Lemma send_errors_app a b :
  send_errors (a ++ b) = send_errors a ++ send_errors b.
Proof. apply flat_map_app. Qed.

Lemma recv_errors_app a b :
  recv_errors (a ++ b) = recv_errors a ++ recv_errors b.
Proof. apply flat_map_app. Qed.

Lemma fired_app a b : fired (a ++ b) = fired a + fired b.
Proof. unfold fired. now rewrite flat_map_app, length_app. Qed.

Lemma waits_app a b : waits (a ++ b) = waits a + waits b.
Proof. unfold waits. now rewrite flat_map_app, length_app. Qed.

Lemma send_count_app a b : send_count (a ++ b) = send_count a + send_count b.
Proof.
  unfold send_count. now rewrite stream_calls_app, filter_app, length_app.
Qed.

Lemma closeSend_count_app a b :
  closeSend_count (a ++ b) = closeSend_count a + closeSend_count b.
Proof.
  unfold closeSend_count.
  now rewrite stream_calls_app, filter_app, length_app.
Qed.

Lemma send_results_app a b :
  send_results (a ++ b) = send_results a ++ send_results b.
Proof. unfold send_results. now rewrite stream_calls_app, flat_map_app. Qed.

Create Rewrite HintDb proj.
#[local] Hint Rewrite stream_calls_app log_app sink_app received_app
  send_errors_app recv_errors_app fired_app waits_app send_count_app
  closeSend_count_app send_results_app : proj.

Ltac proj := autorewrite with proj in *; cbn [stream_calls log sink received
  send_errors recv_errors fired waits flat_map app length] in *;
  repeat rewrite app_nil_r in *; repeat rewrite Nat.add_0_r in *.

Section Reachable.

Variable names : pb.NamesList.
Variable T : transport.

Local Abbreviation reqs := (requests names).
Local Abbreviation run := (run names T).
Local Abbreviation step := (step names T).
Local Abbreviation Inv := (Inv names T).
Local Abbreviation init := (init T).

Lemma run_app s1 s2 w : run (s1 ++ s2) w = run s2 (run s1 w).
  Proof.
    revert w; induction s1 as [|t s1 IH]; intros w; simpl; auto.
    destruct (step t w); apply IH.
  Qed.

Lemma Inv_init : Inv init.
  Proof.
    unfold Inv, main_inv, recv_inv, chan_inv, status_inv, spawn_inv; cbn.
    repeat split; auto.
  Qed.

Lemma sends_ok_below_S i name :
    sends_ok_below names T i ->
    nth_error (pb.Names names) i = Some name ->
    sendResult T i (pb.mkHelloRequest name) = None ->
    sends_ok_below names T (S i).
  Proof.
    intros Hok Hn Hs j name' Hj Hn'.
    destruct (Nat.eq_dec j i) as [->|]; [congruence|].
    apply Hok; auto; lia.
  Qed.

Lemma nth_error_requests i name :
    nth_error (pb.Names names) i = Some name ->
    nth_error reqs i = Some (pb.mkHelloRequest name).
  Proof. intros H. unfold requests. now apply map_nth_error. Qed.

Ltac unfold_inv :=
    unfold Inv, main_inv, recv_inv, chan_inv, status_inv, spawn_inv,
      recv_done, past_wait, main_exited, recv_exited in *;
    cbn [status main_pc recv_pc waitc pending trace] in *.

Lemma step_main_Inv w w' :
    Inv w -> status w = Running -> step_main names T w = Some w' -> Inv w'.
  Proof.
    intros HI Hrun Hstep.
    destruct w as [st mp rp wc pd tr].
    unfold step_main in Hstep. unfold_inv.
    destruct HI as (Hm & (Hp & Hr) & (Hc1 & Hc2) & (Hs & Hx) & Hsp).
    subst st.
    destruct mp.
    - (* MStart *)
      destruct Hm as [-> ->].
      destruct (openResult T) as [e|] eqn:Ho; inversion Hstep; subst; clear Hstep;
        unfold_inv; proj.
      + intuition (auto; try congruence).
      + intuition (auto; try lia; try congruence). intros j name Hj; lia.
    - (* MLoop *)
      destruct Hm as (Ho & Hi & Hok & Hcs & Hse).
      destruct (nth_error (pb.Names names) i) as [name|] eqn:Hn.
      + assert (Hlt : i < length reqs).
        { apply nth_error_Some. rewrite (nth_error_requests _ _ Hn). congruence. }
        destruct (sendResult T i (pb.mkHelloRequest name)) as [e|] eqn:Hsr;
          inversion Hstep; subst; clear Hstep; unfold_inv; proj.
        * rewrite Hcs, Hse.
          destruct rp; simpl in *; intuition (auto; try congruence);
            exists i, name; intuition auto.
        * rewrite Hcs, Hse.
          rewrite (firstn_snoc _ _ _ (nth_error_requests _ _ Hn)).
          unfold sent_ok; rewrite map_app; simpl.
          pose proof (sends_ok_below_S _ _ Hok Hn Hsr).
          destruct rp; simpl in *; intuition (auto; try congruence).
      + inversion Hstep; subst; clear Hstep; unfold_inv; proj.
        apply nth_error_None in Hn.
        assert (Hlen : length (pb.Names names) = length reqs)
          by (unfold requests; now rewrite length_map).
        assert (i = length reqs) by lia. subst i.
        rewrite Hcs, Hse, firstn_all.
        destruct rp; simpl in *; intuition (auto; try congruence).
    - (* MSleep *)
      destruct Hm as (Ho & Hi & Hok & Hcs & Hse).
      inversion Hstep; subst; clear Hstep; unfold_inv; proj.
      destruct rp; simpl in *; intuition (auto; try congruence; try lia).
    - (* MWait *)
      destruct Hm as (Ho & Hok & Hcs & Hse).
      destruct wc; simpl in Hstep; [discriminate|].
      inversion Hstep; subst; clear Hstep; unfold_inv; proj.
      destruct rp; simpl in *; intuition (auto; try congruence; try lia).
    - (* MFinish *)
      destruct Hm as (Ho & Hok & Hcs & Hse).
      inversion Hstep; subst; clear Hstep; unfold_inv; proj.
      destruct rp; simpl in *; intuition (auto; try congruence; try lia).
    - discriminate.
    - (* MFatal *)
      destruct Hm as (i & name & Ho & Hok & Hn & Hsr & Hcs & Hse).
      inversion Hstep; subst; clear Hstep; unfold_inv; proj.
      rewrite Hse.
      destruct rp; simpl in *; intuition (auto; try congruence);
        try (exists i, name, e; intuition auto).
    - (* MExiting *)
      destruct Hm as (i & name & e & Ho & Hok & Hn & Hsr & Hcs & Hse).
      inversion Hstep; subst; clear Hstep; unfold_inv; proj.
      destruct rp; simpl in *; intuition (auto; try congruence);
        try (exists i, name, e; intuition auto).
    - discriminate.
  Qed.

Lemma step_recv_Inv w w' :
    Inv w -> status w = Running -> step_recv w = Some w' -> Inv w'.
  Proof.
    intros HI Hrun Hstep.
    destruct w as [st mp rp wc pd tr].
    unfold step_recv in Hstep. unfold_inv.
    destruct HI as (Hm & (Hp & Hr) & (Hc1 & Hc2) & (Hs & Hx) & Hsp).
    subst st.
    destruct rp; try discriminate.
    - (* RLoop *)
      destruct Hr as [Hrc Hre].
      destruct pd as [|[m| |e] rest]; inversion Hstep; subst; clear Hstep;
        unfold_inv; proj; rewrite <- app_assoc; cbn [app];
        rewrite ?map_app, Hrc, Hre; cbn [map];
        destruct mp; cbn in Hrun |- *;
        intuition (eauto; try congruence; try lia).
    - (* RPrint *)
      destruct Hr as [Hrc Hre].
      inversion Hstep; subst; clear Hstep; unfold_inv; proj.
      destruct mp; cbn in Hrun |- *;
        intuition (eauto; try congruence; try lia).
    - (* RClose *)
      destruct Hr as [Hrc Hre]. destruct Hc1 as [-> Hf].
      inversion Hstep; subst; clear Hstep; unfold_inv; proj.
      destruct mp; cbn in Hrun |- *;
        intuition (eauto; try congruence; try lia).
    - (* RFatal *)
      destruct Hr as [Hrc Hre].
      inversion Hstep; subst; clear Hstep; unfold_inv; proj.
      rewrite Hre. cbn [app].
      destruct mp; cbn in Hrun |- *;
        intuition (eauto; try congruence; try lia).
    - (* RExiting *)
      destruct Hr as (e & Hrc & Hre).
      inversion Hstep; subst; clear Hstep; unfold_inv; proj.
      destruct mp; cbn in Hrun |- *;
        intuition (eauto; try congruence; try lia).
  Qed.

Lemma step_Inv t w w' : Inv w -> step t w = Some w' -> Inv w'.
  Proof.
    unfold step. intros HI Hstep.
    destruct (status w) eqn:Hst; try discriminate.
    destruct t; eauto using step_main_Inv, step_recv_Inv.
  Qed.

Lemma run_Inv_from sched w : Inv w -> Inv (run sched w).
  Proof.
    revert w; induction sched as [|t s IH]; intros w HI; simpl; auto.
    destruct (step t w) eqn:Hs; eauto using step_Inv.
  Qed.

  (** Every world a schedule can reach satisfies the invariant. *)
Lemma run_Inv sched : Inv (run sched init).
  Proof. apply run_Inv_from, Inv_init. Qed.

(** *** Progress: every step uses up the bound [todo] *)

Lemma length_requests : length reqs = length (pb.Names names).
Proof. unfold requests. apply length_map. Qed.

Lemma step_todo t w w' : step t w = Some w' -> todo names w' < todo names w.
Proof.
  unfold step. destruct w as [st mp rp wc pd tr]; cbn [status].
  destruct st; try discriminate.
  unfold todo, main_todo, recv_todo, step_main, step_recv;
    cbn [status main_pc recv_pc waitc pending trace].
  rewrite length_requests.
  destruct t.
  - destruct mp; try discriminate.
    + destruct (openResult T); intros H; inversion H; subst; cbn;
        destruct rp; lia.
    + destruct (nth_error (pb.Names names) i) eqn:Hn.
      * assert (i < length (pb.Names names))
          by (apply nth_error_Some; congruence).
        destruct (sendResult T i _); intros H'; inversion H'; subst; cbn; lia.
      * intros H; inversion H; subst; cbn; lia.
    + intros H; inversion H; subst; cbn; lia.
    + destruct (chan_recv wc); intros H; inversion H; subst; cbn; lia.
    + intros H; inversion H; subst; cbn; lia.
    + intros H; inversion H; subst; cbn; lia.
    + intros H; inversion H; subst; cbn; lia.
  - destruct rp; try discriminate.
    + destruct pd as [|[m| |e] rest]; intros H; inversion H; subst;
        destruct mp; cbn; lia.
    + intros H; inversion H; subst; destruct mp; cbn; lia.
    + destruct (chan_close wc); intros H; inversion H; subst;
        destruct mp; cbn; lia.
    + intros H; inversion H; subst; destruct mp; cbn; lia.
    + intros H; inversion H; subst; destruct mp; cbn; lia.
Qed.

Lemma run_blocked t n w : step t w = None -> run (repeat t n) w = w.
Proof.
  intros H; induction n as [|n IH]; simpl; auto. now rewrite H.
Qed.

(** Scheduling one goroutine [todo] times leaves it blocked or finished. *)
Lemma exhaust t n w :
  todo names w <= n -> step t (run (repeat t n) w) = None.
Proof.
  revert w; induction n as [|n IH]; intros w Hn; simpl.
  - destruct (step t w) eqn:Hs; auto.
    apply step_todo in Hs. lia.
  - destruct (step t w) eqn:Hs.
    + apply IH. apply step_todo in Hs. lia.
    + now rewrite run_blocked.
Qed.

Lemma step_main_recv_exited w w' :
  Inv w -> step TMain w = Some w' -> recv_exited w' = recv_exited w.
Proof.
  unfold step. destruct w as [st mp rp wc pd tr]; cbn [status].
  intros HI. destruct st; try discriminate.
  unfold step_main, recv_exited; cbn [status main_pc recv_pc waitc pending trace].
  destruct mp; try discriminate.
  - destruct HI as (Hm & _). cbn in Hm. destruct Hm as [_ ->].
    destruct (openResult T); intros H; inversion H; subst; reflexivity.
  - destruct (nth_error (pb.Names names) i);
      [destruct (sendResult T i _)|]; intros H; inversion H; subst; reflexivity.
  - intros H; inversion H; subst; reflexivity.
  - destruct (chan_recv wc); intros H; inversion H; subst; reflexivity.
  - intros H; inversion H; subst; reflexivity.
  - intros H; inversion H; subst; reflexivity.
  - intros H; inversion H; subst; reflexivity.
Qed.

Lemma step_recv_main_pc w w' :
  step TRecv w = Some w' -> main_pc w' = main_pc w.
Proof.
  unfold step. destruct w as [st mp rp wc pd tr]; cbn [status].
  destruct st; try discriminate.
  unfold step_recv; cbn [status main_pc recv_pc waitc pending trace].
  destruct rp; try discriminate.
  - destruct pd as [|[m| |e] rest]; intros H; inversion H; subst; reflexivity.
  - intros H; inversion H; subst; reflexivity.
  - destruct (chan_close wc); intros H; inversion H; subst; reflexivity.
  - intros H; inversion H; subst; reflexivity.
  - intros H; inversion H; subst; reflexivity.
Qed.

Lemma run_main_recv_exited n w :
  Inv w -> recv_exited (run (repeat TMain n) w) = recv_exited w.
Proof.
  revert w; induction n as [|n IH]; intros w HI; simpl; auto.
  destruct (step TMain w) eqn:Hs; auto.
  rewrite IH by eauto using step_Inv. eauto using step_main_recv_exited.
Qed.

Lemma run_recv_main_pc n w : main_pc (run (repeat TRecv n) w) = main_pc w.
Proof.
  revert w; induction n as [|n IH]; intros w; simpl; auto.
  destruct (step TRecv w) eqn:Hs; auto.
  rewrite IH. eauto using step_recv_main_pc.
Qed.

(** Where a live process leaves the caller unable to move: blocked at
    [<-waitc] on the open channel, or returned. *)
Lemma main_blocked w :
  status w = Running -> step TMain w = None ->
  (main_pc w = MWait /\ waitc w = ChanOpen) \/ main_pc w = MReturned \/
  main_pc w = MExit.
Proof.
  unfold step. destruct w as [st mp rp wc pd tr]; cbn [status].
  intros ->. unfold step_main; cbn [status main_pc recv_pc waitc pending trace].
  destruct mp; auto; try discriminate.
  - destruct (openResult T); discriminate.
  - destruct (nth_error (pb.Names names) i);
      [destruct (sendResult T i _)|]; discriminate.
  - destruct wc; cbn; auto; discriminate.
Qed.

(** Where a live process leaves the receiver unable to move: not spawned,
    blocked in [Recv], or finished. *)
Lemma recv_blocked w :
  status w = Running -> step TRecv w = None ->
  recv_pc w = RIdle \/ (recv_pc w = RLoop /\ pending w = []) \/
  recv_pc w = RDone \/ recv_pc w = RExit.
Proof.
  unfold step. destruct w as [st mp rp wc pd tr]; cbn [status].
  intros ->. unfold step_recv; cbn [status main_pc recv_pc waitc pending trace].
  destruct rp; auto; try discriminate.
  - destruct pd as [|[m| |e] rest]; auto; discriminate.
  - destruct (chan_close wc); discriminate.
Qed.

Lemma run_dead sched w : status w <> Running -> run sched w = w.
Proof.
  intros H; induction sched as [|t s IH]; simpl; auto.
  unfold step. destruct (status w); congruence.
Qed.

(** Under an accepting transport the caller never reaches [log.Fatalf]. *)
Lemma main_never_fatal w :
  Inv w -> openResult T = None -> sends_ok names T ->
  (forall e, main_pc w <> MFatal e) /\ main_pc w <> MExiting /\
  main_pc w <> MExit.
Proof.
  intros (Hm & _) Ho Hok. unfold main_inv in Hm.
  repeat split; [intros e Hpc | intros Hpc | intros Hpc]; rewrite Hpc in Hm.
  - destruct Hm as (i & name & _ & _ & Hn & Hs & _).
    rewrite (Hok _ _ Hn) in Hs. discriminate.
  - destruct Hm as (i & name & e & _ & _ & Hn & Hs & _).
    rewrite (Hok _ _ Hn) in Hs. discriminate.
  - destruct Hm as [(Hno & _)|(i & name & e & _ & _ & Hn & Hs & _)].
    + congruence.
    + rewrite (Hok _ _ Hn) in Hs. discriminate.
Qed.

Lemma main_never_exits w :
  Inv w -> openResult T = None -> sends_ok names T -> main_pc w <> MExit.
Proof. intros HI Ho Hok. now apply main_never_fatal. Qed.

Lemma status_running w :
  Inv w -> main_pc w <> MExit -> recv_pc w <> RExit -> status w = Running.
Proof.
  intros (_ & _ & _ & (Hs & _) & _) Hm Hr. rewrite Hs.
  unfold main_exited, recv_exited.
  destruct (main_pc w), (recv_pc w); simpl; congruence.
Qed.

End Reachable.

(** ** Call lists *)

Lemma filter_send_sent_ok l : filter is_send (sent_ok l) = sent_ok l.
Proof. induction l as [|a l IH]; simpl; congruence. Qed.

Lemma filter_closeSend_sent_ok l : filter is_closeSend (sent_ok l) = [].
Proof. induction l as [|a l IH]; simpl; auto. Qed.

Lemma length_sent_ok l : length (sent_ok l) = length l.
Proof. apply length_map. Qed.

Lemma results_sent_ok l :
  flat_map (fun c => match c with
                     | CallSend _ r => [r]
                     | CallCloseSend _ => []
                     end) (sent_ok l) = map (fun _ => None) l.
Proof. induction l as [|a l IH]; simpl; congruence. Qed.

Lemma nth_error_nones {A} (l : list A) (rest : list (option error)) k e :
  nth_error (map (fun _ => None) l ++ rest) k = Some (Some e) ->
  length l <= k /\ nth_error rest (k - length l) = Some (Some e).
Proof.
  intros H. destruct (Nat.lt_ge_cases k (length l)) as [Hlt|Hge].
  - rewrite nth_error_app1 in H by now rewrite length_map.
    apply nth_error_In, in_map_iff in H. destruct H as (? & ? & _).
    discriminate.
  - rewrite nth_error_app2 in H by now rewrite length_map.
    now rewrite length_map in H.
Qed.

Lemma sent_ok_firstn_skipn i l :
  sent_ok l = sent_ok (firstn i l) ++ sent_ok (skipn i l).
Proof. unfold sent_ok. now rewrite <- map_app, firstn_skipn. Qed.

(** ** Traces only grow *)

Lemma step_trace_extends names T t w w' :
  step names T t w = Some w' -> exists ext, trace w' = trace w ++ ext.
Proof.
  unfold step. destruct w as [st mp rp wc pd tr]; cbn [status].
  destruct st; try discriminate.
  unfold step_main, step_recv;
    cbn [status main_pc recv_pc waitc pending trace].
  destruct t.
  - destruct mp; try discriminate.
    + destruct (openResult T); intros H; inversion H; cbn; eauto.
    + destruct (nth_error (pb.Names names) i);
        [destruct (sendResult T i _)|]; intros H; inversion H; cbn; eauto.
    + intros H; inversion H; cbn; eauto.
    + destruct (chan_recv wc); intros H; inversion H; cbn; eauto.
    + intros H; inversion H; cbn; eauto.
    + intros H; inversion H; cbn; eauto.
    + intros H; inversion H; cbn; eauto.
  - destruct rp; try discriminate.
    + destruct pd as [|[m| |e] pd']; intros H; inversion H; cbn; eauto.
    + intros H; inversion H; cbn; eauto.
    + destruct (chan_close wc); intros H; inversion H; cbn; eauto.
    + intros H; inversion H; cbn; eauto.
    + intros H; inversion H; cbn; eauto.
Qed.

Lemma run_trace_extends names T more :
  forall w, exists ext, trace (run names T more w) = trace w ++ ext.
Proof.
  induction more as [|t more IH]; intros w; simpl.
  - exists []. now rewrite app_nil_r.
  - destruct (step names T t w) as [w1|] eqn:Hs; auto.
    destruct (step_trace_extends _ _ _ _ _ Hs) as [e1 H1].
    destruct (IH w1) as [e2 H2].
    exists (e1 ++ e2). now rewrite H2, H1, app_assoc.
Qed.

Lemma run_extends names T sched more :
  exists ext,
    trace (run names T (sched ++ more) (init T)) =
    trace (run names T sched (init T)) ++ ext.
Proof. rewrite run_app. apply run_trace_extends. Qed.

(** ** The Sender Loop *)

Lemma calls_prefix names T w :
  Inv names T w -> openResult T = None -> sends_ok names T ->
  exists rest,
    sent_ok (requests names) ++ [CallCloseSend (closeSendResult T)] =
    stream_calls (trace w) ++ rest.
Proof.
  intros HI Ho Hok.
  pose proof (main_never_fatal _ _ _ HI Ho Hok) as (Hnf & Hnx & Hne).
  destruct HI as (Hm & _). unfold main_inv in Hm.
  destruct (main_pc w) eqn:Hpc; try congruence;
    try (exfalso; eapply Hnf; reflexivity).
  - destruct Hm as [-> _]. eexists; reflexivity.
  - destruct Hm as (_ & _ & _ & -> & _).
    rewrite (sent_ok_firstn_skipn i (requests names)), <- app_assoc.
    eexists; reflexivity.
  - destruct Hm as (_ & _ & _ & -> & _).
    rewrite (sent_ok_firstn_skipn (S i) (requests names)), <- app_assoc.
    eexists; reflexivity.
  - destruct Hm as (_ & _ & -> & _). exists []. now rewrite app_nil_r.
  - destruct Hm as (_ & _ & -> & _). exists []. now rewrite app_nil_r.
  - destruct Hm as (_ & _ & -> & _). exists []. now rewrite app_nil_r.
Qed.

Lemma calls_finished names T w :
  Inv names T w -> sender_finished w = true ->
  stream_calls (trace w) =
  sent_ok (requests names) ++ [CallCloseSend (closeSendResult T)].
Proof.
  intros (Hm & _) Hf. unfold main_inv in Hm. unfold sender_finished in Hf.
  destruct (main_pc w); try discriminate; tauto.
Qed.

Lemma count_full reqs r :
  length (filter is_send (sent_ok reqs ++ [CallCloseSend r])) = length reqs /\
  length (filter is_closeSend (sent_ok reqs ++ [CallCloseSend r])) = 1.
Proof.
  rewrite !filter_app, filter_send_sent_ok, filter_closeSend_sent_ok.
  cbn. rewrite app_nil_r, length_sent_ok. auto.
Qed.

Lemma sender_can_finish names T sched :
  openResult T = None -> sends_ok names T ->
  recv_exited (run names T sched (init T)) = false ->
  exists more,
    sender_finished (run names T (sched ++ more) (init T)) = true.
Proof.
  intros Ho Hok Hre.
  set (w := run names T sched (init T)) in *.
  assert (HI : Inv names T w) by apply run_Inv.
  exists (repeat TMain (todo names w)).
  rewrite run_app. fold w.
  set (w' := run names T (repeat TMain (todo names w)) w).
  assert (HI' : Inv names T w') by now apply run_Inv_from.
  assert (Hb : step names T TMain w' = None) by now apply exhaust.
  assert (Hre' : recv_exited w' = false)
    by (unfold w'; now rewrite run_main_recv_exited).
  pose proof (main_never_exits _ _ _ HI' Ho Hok) as Hne.
  assert (Hrun : status w' = Running).
  { apply (status_running names T); auto.
    unfold recv_exited in Hre'. destruct (recv_pc w'); congruence. }
  destruct (main_blocked _ _ _ Hrun Hb) as [[Hpc _]|[Hpc|Hpc]];
    unfold sender_finished; rewrite ?Hpc; auto; congruence.
Qed.

(** C1 as the code has it.  With the stream open and every send accepted,
    the calls the Sender Loop has issued are at every moment an initial
    part of: one [Send] per name, in source order, then one [CloseSend].
    Once the loop is over the calls are exactly that list: N sends, then
    a single [CloseSend].  The loop can always get there as long as the
    receiver's [log.Fatalf] has not ended the process; once it has, no
    further call is issued under any continuation. *)
Theorem sender_sends_all_then_closes names T sched :
  openResult T = None -> sends_ok names T ->
  let w := run names T sched (init T) in
  let full := sent_ok (requests names) ++ [CallCloseSend (closeSendResult T)] in
  (exists rest, full = stream_calls (trace w) ++ rest) /\
  (sender_finished w = true ->
   stream_calls (trace w) = full /\
   send_count (trace w) = length (pb.Names names) /\
   closeSend_count (trace w) = 1) /\
  (recv_exited w = false ->
   exists more,
     sender_finished (run names T (sched ++ more) (init T)) = true) /\
  (recv_exited w = true ->
   status w = Exited 1 /\
   forall more, run names T (sched ++ more) (init T) = w).
Proof.
  intros Ho Hok w full.
  assert (HI : Inv names T w) by apply run_Inv.
  split; [|split; [|split]].
  - now apply calls_prefix.
  - intros Hf. pose proof (calls_finished _ _ _ HI Hf) as Hc.
    split; auto. unfold send_count, closeSend_count. rewrite Hc.
    destruct (count_full (requests names) (closeSendResult T)) as [H1 H2].
    rewrite H1, H2. split; auto. unfold requests. apply length_map.
  - intros Hre. now apply sender_can_finish.
  - intros Hre. destruct HI as (_ & _ & _ & (Hs & _) & _).
    rewrite Hre, orb_true_r in Hs. split; auto.
    intros more. rewrite run_app. fold w. apply run_dead. congruence.
Qed.

(** C1 amended, at the names of [main] on the accepting transport, the
    caller scheduled alone. *)
Lemma sender_sends_all_then_closes_witness :
  stream_calls
    (trace (run mainNames transportA (repeat TMain 8) (init transportA))) =
  [CallSend (pb.mkHelloRequest "Aman") None;
   CallSend (pb.mkHelloRequest "Aryan") None;
   CallSend (pb.mkHelloRequest "Satvik") None;
   CallCloseSend None].
Proof.
  pose proof (sender_sends_all_then_closes mainNames transportA
                (repeat TMain 8) eq_refl (fun _ _ _ => eq_refl)) as H.
  cbv zeta in H. destruct H as (_ & H & _).
  destruct (H eq_refl) as (Hc & _). exact Hc.
Defined.

(** C1, a run refuting it: no send fails, but [Recv] does after the first
    echo, and the receiver's [log.Fatalf] ends the process before the
    caller has sent anything.  Of the three sends and the [CloseSend] none
    is issued, and scheduling the caller again changes nothing. *)
Lemma receiver_exit_cuts_sender_short :
  openResult transportRecvErr = None /\
  sendResult transportRecvErr = (fun _ _ => None) /\
  length (pb.Names mainNames) = 3 /\
  status (run mainNames transportRecvErr (TMain :: repeat TRecv 5)
            (init transportRecvErr)) = Exited 1 /\
  main_pc (run mainNames transportRecvErr (TMain :: repeat TRecv 5)
             (init transportRecvErr)) = MLoop 0 /\
  send_count (trace (run mainNames transportRecvErr (TMain :: repeat TRecv 5)
                       (init transportRecvErr))) = 0 /\
  closeSend_count
    (trace (run mainNames transportRecvErr (TMain :: repeat TRecv 5)
              (init transportRecvErr))) = 0 /\
  run mainNames transportRecvErr ((TMain :: repeat TRecv 5) ++ repeat TMain 8)
    (init transportRecvErr) =
  run mainNames transportRecvErr (TMain :: repeat TRecv 5)
    (init transportRecvErr).
Proof. repeat split. Qed.

Lemma nth_error_nones_only {A} (l : list A) k (e : error) :
  nth_error (map (fun _ : A => @None error) l) k <> Some (Some e).
Proof.
  intros H. apply nth_error_In, in_map_iff in H.
  destruct H as (? & ? & _). discriminate.
Qed.

Lemma send_results_calls tr cs :
  stream_calls tr = cs ->
  send_results tr =
  flat_map (fun c => match c with
                     | CallSend _ r => [r]
                     | CallCloseSend _ => []
                     end) cs.
Proof. intros <-. reflexivity. Qed.

(** A failed [Send] in the trace pins the caller on its way out: at
    [log.Fatalf], between the fatal line and [os.Exit], or exited. *)
Lemma failed_send_inv names T w k e :
  Inv names T w ->
  nth_error (send_results (trace w)) k = Some (Some e) ->
  (main_pc w = MFatal e \/ main_pc w = MExiting \/ main_pc w = MExit) /\
  stream_calls (trace w) =
  sent_ok (firstn k (requests names)) ++
  match nth_error (requests names) k with
  | Some req => [CallSend req (Some e)]
  | None => []
  end /\
  k < length (requests names) /\
  (main_pc w = MFatal e -> send_errors (trace w) = []) /\
  (main_pc w <> MFatal e -> send_errors (trace w) = [e]).
Proof.
  intros (Hm & _) Hk. unfold main_inv in Hm.
  assert (Hfail : forall i name e',
             nth_error (pb.Names names) i = Some name ->
             stream_calls (trace w) =
             sent_ok (firstn i (requests names)) ++
             [CallSend (pb.mkHelloRequest name) (Some e')] ->
             e' = e /\
             stream_calls (trace w) =
             sent_ok (firstn k (requests names)) ++
             match nth_error (requests names) k with
             | Some req => [CallSend req (Some e)]
             | None => []
             end /\
             k < length (requests names)).
  { intros i name e' Hn Hcs.
    rewrite (send_results_calls _ _ Hcs), flat_map_app, results_sent_ok in Hk.
    cbn in Hk. apply nth_error_nones in Hk. destruct Hk as [Hle Hk].
    pose proof (nth_error_requests _ _ _ Hn) as Hreq.
    assert (Hlt : i < length (requests names))
      by (apply nth_error_Some; congruence).
    rewrite length_firstn, Nat.min_l in Hle, Hk by lia.
    destruct (k - i) as [|d] eqn:Hd; [|destruct d; discriminate].
    assert (k = i) by lia. subst k. cbn in Hk. inversion Hk; subst e'.
    rewrite Hreq. auto. }
  destruct (main_pc w) eqn:Hpc.
  - destruct Hm as [Ht _]. rewrite Ht in Hk. destruct k; discriminate.
  - destruct Hm as (_ & _ & _ & Hcs & _).
    rewrite (send_results_calls _ _ Hcs), results_sent_ok in Hk.
    now apply nth_error_nones_only in Hk.
  - destruct Hm as (_ & _ & _ & Hcs & _).
    rewrite (send_results_calls _ _ Hcs), results_sent_ok in Hk.
    now apply nth_error_nones_only in Hk.
  - destruct Hm as (_ & _ & Hcs & _).
    rewrite (send_results_calls _ _ Hcs), flat_map_app, results_sent_ok in Hk.
    cbn in Hk. rewrite app_nil_r in Hk. now apply nth_error_nones_only in Hk.
  - destruct Hm as (_ & _ & Hcs & _).
    rewrite (send_results_calls _ _ Hcs), flat_map_app, results_sent_ok in Hk.
    cbn in Hk. rewrite app_nil_r in Hk. now apply nth_error_nones_only in Hk.
  - destruct Hm as (_ & _ & Hcs & _).
    rewrite (send_results_calls _ _ Hcs), flat_map_app, results_sent_ok in Hk.
    cbn in Hk. rewrite app_nil_r in Hk. now apply nth_error_nones_only in Hk.
  - destruct Hm as (i & name & _ & _ & Hn & _ & Hcs & He).
    destruct (Hfail _ _ _ Hn Hcs) as (-> & Hcs' & Hlt).
    repeat split; auto. congruence.
  - destruct Hm as (i & name & e' & _ & _ & Hn & _ & Hcs & He).
    destruct (Hfail _ _ _ Hn Hcs) as (-> & Hcs' & Hlt).
    repeat split; auto. discriminate.
  - destruct Hm as [(_ & Hcs & _)|(i & name & e' & _ & _ & Hn & _ & Hcs & He)].
    + rewrite (send_results_calls _ _ Hcs) in Hk. destruct k; discriminate.
    + destruct (Hfail _ _ _ Hn Hcs) as (-> & Hcs' & Hlt).
      repeat split; auto. discriminate.
Qed.

(** What [Send] has returned is never taken back. *)
Lemma failed_send_persists names T sched more k e :
  nth_error (send_results (trace (run names T sched (init T)))) k =
  Some (Some e) ->
  nth_error (send_results (trace (run names T (sched ++ more) (init T)))) k =
  Some (Some e).
Proof.
  intros Hk. destruct (run_extends names T sched more) as [ext ->].
  rewrite send_results_app, nth_error_app1; auto.
  apply nth_error_Some. congruence.
Qed.

(** The calls of a run whose send [k] failed. *)
Lemma failed_send_counts names T w k e :
  Inv names T w ->
  nth_error (send_results (trace w)) k = Some (Some e) ->
  send_count (trace w) = S k /\ closeSend_count (trace w) = 0 /\
  sender_finished w = false /\ waits (trace w) = 0.
Proof.
  intros HI Hk.
  destruct (failed_send_inv _ _ _ _ _ HI Hk) as (Hpc & Hcs & Hlt & _).
  destruct (nth_error (requests names) k) as [req|] eqn:Hreq;
    [|apply nth_error_None in Hreq; lia].
  unfold send_count, closeSend_count. rewrite Hcs, !filter_app.
  rewrite filter_send_sent_ok, filter_closeSend_sent_ok. cbn.
  rewrite length_app, length_sent_ok, length_firstn, Nat.min_l by lia.
  destruct HI as (_ & _ & (_ & Hw) & _).
  unfold sender_finished, past_wait in *.
  destruct Hpc as [Hpc|[Hpc|Hpc]]; rewrite Hpc in *;
    repeat split; auto; cbn; lia.
Qed.

(** A caller on its way out gets to [os.Exit] when scheduled twice, unless
    the receiver has ended the process before. *)
Lemma fatal_exits names T w :
  Inv names T w ->
  (exists e, main_pc w = MFatal e) \/ main_pc w = MExiting \/
  main_pc w = MExit ->
  status (run names T [TMain; TMain] w) = Exited 1 /\
  (status w = Running -> main_pc (run names T [TMain; TMain] w) = MExit).
Proof.
  intros HI Hpc.
  pose proof HI as (_ & _ & _ & (Hs & _) & _).
  destruct w as [st mp rp wc pd tr];
    cbn [status recv_pc waitc main_pc pending trace] in *.
  unfold main_exited, recv_exited in Hs;
    cbn [status recv_pc waitc main_pc pending trace] in Hs.
  destruct Hpc as [[e ->]|[->| ->]]; subst st;
    destruct rp; split; try reflexivity; discriminate.
Qed.

(** C2.  If the k-th [Send] (counting from 1; index [k] from 0 here) comes
    back with an error, the trace holds exactly that many sends and no
    [CloseSend], and so it stays under every continuation of the schedule:
    the caller issues no further call on the stream and never finishes
    its loop.  The caller is on its way out through [log.Fatalf]: some
    continuation ends the process with status 1, and once it is ended no
    continuation changes anything. *)
Theorem failed_send_stops_sender names T sched k e :
  let w := run names T sched (init T) in
  nth_error (send_results (trace w)) k = Some (Some e) ->
  send_count (trace w) = S k /\
  closeSend_count (trace w) = 0 /\
  (forall more,
      let w' := run names T (sched ++ more) (init T) in
      send_count (trace w') = S k /\ closeSend_count (trace w') = 0 /\
      stream_calls (trace w') = stream_calls (trace w) /\
      sender_finished w' = false /\
      (status w' = Running \/ status w' = Exited 1)) /\
  (exists more, status (run names T (sched ++ more) (init T)) = Exited 1) /\
  (status w = Exited 1 ->
   forall more, run names T (sched ++ more) (init T) = w).
Proof.
  intros w Hk.
  assert (HI : Inv names T w) by apply run_Inv.
  destruct (failed_send_counts _ _ _ _ _ HI Hk) as (Hsc & Hcc & _).
  split; auto. split; auto. split; [|split].
  - intros more w'.
    assert (HI' : Inv names T w') by apply run_Inv.
    pose proof (failed_send_persists _ _ _ more _ _ Hk) as Hk'. fold w' in Hk'.
    destruct (failed_send_counts _ _ _ _ _ HI' Hk') as (Hsc' & Hcc' & Hsf & _).
    destruct (failed_send_inv _ _ _ _ _ HI Hk) as (_ & Hcs & _).
    destruct (failed_send_inv _ _ _ _ _ HI' Hk') as (_ & Hcs' & _).
    repeat split; auto; [congruence|].
    destruct HI' as (_ & _ & _ & (Hs & _) & _). rewrite Hs.
    destruct (main_exited w' || recv_exited w'); auto.
  - exists [TMain; TMain]. rewrite run_app. fold w.
    apply fatal_exits; auto.
    destruct (failed_send_inv _ _ _ _ _ HI Hk) as ([Hpc|[Hpc|Hpc]] & _); eauto.
  - intros Hst more. rewrite run_app. fold w. apply run_dead. congruence.
Qed.

(** C2 on the transport whose second [Send] fails. *)
Lemma failed_send_stops_sender_witness :
  send_count
    (trace (run mainNames transportB (repeat TMain 4) (init transportB))) = 2 /\
  closeSend_count
    (trace (run mainNames transportB (repeat TMain 4) (init transportB))) = 0.
Proof.
  pose proof (failed_send_stops_sender mainNames transportB (repeat TMain 4)
                1 connReset eq_refl) as (H1 & H2 & _).
  split; [exact H1 | exact H2].
Defined.

(** C9.  On every path the trace holds at most one [CloseSend]. *)
Theorem closeSend_at_most_once names T sched :
  closeSend_count (trace (run names T sched (init T))) <= 1.
Proof.
  pose proof (run_Inv names T sched) as (Hm & _).
  unfold main_inv in Hm. unfold closeSend_count.
  destruct (main_pc (run names T sched (init T))).
  - destruct Hm as [-> _]. cbn. lia.
  - destruct Hm as (_ & _ & _ & -> & _).
    rewrite filter_closeSend_sent_ok. cbn. lia.
  - destruct Hm as (_ & _ & _ & -> & _).
    rewrite filter_closeSend_sent_ok. cbn. lia.
  - destruct Hm as (_ & _ & -> & _).
    rewrite filter_app, filter_closeSend_sent_ok. cbn. lia.
  - destruct Hm as (_ & _ & -> & _).
    rewrite filter_app, filter_closeSend_sent_ok. cbn. lia.
  - destruct Hm as (_ & _ & -> & _).
    rewrite filter_app, filter_closeSend_sent_ok. cbn. lia.
  - destruct Hm as (i & name & _ & _ & _ & _ & -> & _).
    rewrite filter_app, filter_closeSend_sent_ok. cbn. lia.
  - destruct Hm as (i & name & e & _ & _ & _ & _ & -> & _).
    rewrite filter_app, filter_closeSend_sent_ok. cbn. lia.
  - destruct Hm as [(_ & -> & _)|(i & name & e & _ & _ & _ & _ & -> & _)].
    + cbn. lia.
    + rewrite filter_app, filter_closeSend_sent_ok. cbn. lia.
Qed.

(** ** The Receiver Loop *)

Section Receiver.

Variable names : pb.NamesList.
Variable T : transport.
Variable ms : list pb.HelloResponse.
Variable rest : list recv_result.

(** The transport yields [ms], then end of stream. *)
Hypothesis Hin : inbound T = map RecvMsg ms ++ RecvEOF :: rest.

Lemma eof_not_msg : forall m, RecvEOF <> RecvMsg m.
Proof. discriminate. Qed.

Lemma err_not_msg e : forall m, RecvErr e <> RecvMsg m.
Proof. discriminate. Qed.

(** On such a stream [Recv] never fails. *)
Lemma recv_never_fatal w :
  Inv names T w ->
  (forall e, recv_pc w <> RFatal e) /\ recv_pc w <> RExiting /\
  recv_pc w <> RExit.
Proof.
  intros (_ & (Hp & Hr) & _).
  assert (H : forall e,
             received (trace w) =
             map RecvMsg (sink (trace w)) ++ [RecvErr e] -> False).
  { intros e Hrc.
    rewrite Hrc, Hin, <- app_assoc in Hp. cbn [app] in Hp.
    apply map_msg_split in Hp; auto using eof_not_msg, err_not_msg.
    destruct Hp as (_ & Hx & _). discriminate. }
  repeat split; [intros e Hpc | intros Hpc | intros Hpc]; rewrite Hpc in Hr.
  - destruct Hr as (Hrc & _). eauto.
  - destruct Hr as (e & Hrc & _). eauto.
  - destruct Hr as (e & Hrc & _). eauto.
Qed.

Lemma recv_error_free w : Inv names T w -> recv_pc w <> RExit.
Proof. intros HI. now apply recv_never_fatal. Qed.

Lemma sink_prefix w :
  Inv names T w -> exists later, ms = sink (trace w) ++ later.
Proof.
  intros HI. destruct (recv_never_fatal w HI) as (Hnf & Hnx & Hne).
  destruct HI as (_ & (Hp & Hr) & _). rewrite Hin in Hp.
  destruct (recv_pc w) eqn:Hpc; try congruence;
    try (exfalso; eapply Hnf; reflexivity).
  - destruct Hr as (_ & -> & _). exists ms; reflexivity.
  - destruct Hr as (Hrc & _). rewrite Hrc in Hp.
    apply map_msg_prefix in Hp; auto using eof_not_msg.
    destruct Hp as (later & -> & _). eauto.
  - destruct Hr as (Hrc & _). rewrite Hrc in Hp.
    apply map_msg_prefix in Hp; auto using eof_not_msg.
    destruct Hp as (later & -> & _). rewrite <- app_assoc. eauto.
  - destruct Hr as (Hrc & _). rewrite Hrc, <- app_assoc in Hp.
    apply map_msg_split in Hp; auto using eof_not_msg.
    destruct Hp as (<- & _). exists []. now rewrite app_nil_r.
  - destruct Hr as (Hrc & _). rewrite Hrc, <- app_assoc in Hp.
    apply map_msg_split in Hp; auto using eof_not_msg.
    destruct Hp as (<- & _). exists []. now rewrite app_nil_r.
Qed.

Lemma sink_complete w :
  Inv names T w -> recv_pc w = RClose \/ recv_pc w = RDone ->
  sink (trace w) = ms.
Proof.
  intros (_ & (Hp & Hr) & _) Hpc. rewrite Hin in Hp.
  assert (Hrc : received (trace w) = map RecvMsg (sink (trace w)) ++ [RecvEOF])
    by (destruct Hpc as [Hpc|Hpc]; rewrite Hpc in Hr; tauto).
  rewrite Hrc, <- app_assoc in Hp.
  apply map_msg_split in Hp; auto using eof_not_msg. tauto.
Qed.

(** A receiver that cannot move on such a stream has finished. *)
Lemma recv_blocked_done w :
  Inv names T w -> main_pc w <> MStart -> main_pc w <> MExit ->
  step names T TRecv w = None -> recv_pc w = RDone.
Proof.
  intros HI Hms Hme Hb.
  pose proof (recv_error_free w HI) as Hne.
  pose proof (status_running _ _ _ HI Hme Hne) as Hrun.
  destruct (recv_blocked _ _ _ Hrun Hb) as [Hpc|[[Hpc Hpd]|[Hpc|Hpc]]];
    auto; try congruence.
  - destruct HI as (_ & _ & _ & _ & Hsp). destruct (Hsp Hpc); congruence.
  - destruct HI as (_ & (Hp & Hr) & _). rewrite Hpc in Hr.
    destruct Hr as (Hrc & _).
    rewrite Hpd, app_nil_r, Hrc, Hin in Hp.
    rewrite <- (app_nil_r (map RecvMsg (sink (trace w)))) in Hp.
    apply map_msg_prefix in Hp; auto using eof_not_msg.
    destruct Hp as (later & _ & Hp). destruct later; discriminate.
Qed.

Lemma receiver_can_finish sched :
  let w := run names T sched (init T) in
  main_pc w <> MStart -> main_pc w <> MExit ->
  exists more,
    recv_pc (run names T (sched ++ more) (init T)) = RDone /\
    sink (trace (run names T (sched ++ more) (init T))) = ms.
Proof.
  intros w Hms Hme.
  assert (HI : Inv names T w) by apply run_Inv.
  exists (repeat TRecv (todo names w)).
  rewrite run_app. fold w.
  set (w' := run names T (repeat TRecv (todo names w)) w).
  assert (HI' : Inv names T w') by now apply run_Inv_from.
  assert (Hb : step names T TRecv w' = None) by now apply exhaust.
  assert (Hpc : main_pc w' = main_pc w) by apply run_recv_main_pc.
  assert (Hd : recv_pc w' = RDone)
    by (apply recv_blocked_done; auto; congruence).
  split; auto. apply sink_complete; auto.
Qed.

End Receiver.

(** C5 as the code has it.  When the transport yields the messages [ms]
    and then end of stream, the sink holds at every moment an initial part
    of [ms]; once the loop has seen the end of stream the sink is exactly
    [ms]: every message, in arrival order, none dropped or doubled.  The
    loop can get there whenever the caller has spawned it and has not
    ended the process with [log.Fatalf]; once the caller has, the sink
    stays as it is under every continuation. *)
Theorem receiver_delivers_in_order names T ms rest sched :
  inbound T = map RecvMsg ms ++ RecvEOF :: rest ->
  let w := run names T sched (init T) in
  (exists later, ms = sink (trace w) ++ later) /\
  (recv_pc w = RClose \/ recv_pc w = RDone -> sink (trace w) = ms) /\
  (main_pc w <> MStart -> main_pc w <> MExit ->
   exists more,
     recv_pc (run names T (sched ++ more) (init T)) = RDone /\
     sink (trace (run names T (sched ++ more) (init T))) = ms) /\
  (main_pc w = MExit ->
   status w = Exited 1 /\
   forall more, run names T (sched ++ more) (init T) = w).
Proof.
  intros Hin w.
  assert (HI : Inv names T w) by apply run_Inv.
  split; [|split; [|split]].
  - eapply sink_prefix; eauto.
  - eapply sink_complete; eauto.
  - eapply receiver_can_finish; eauto.
  - intros Hpc. destruct HI as (_ & _ & _ & (Hs & _) & _).
    unfold main_exited in Hs. rewrite Hpc in Hs. cbn in Hs.
    split; auto.
    intros more. rewrite run_app. fold w. apply run_dead. congruence.
Qed.

(** C5 amended, on the echoing transport, the receiver scheduled alone
    after the caller's first step. *)
Lemma receiver_delivers_in_order_witness :
  sink (trace (run mainNames transportA (TMain :: repeat TRecv 8)
                 (init transportA))) =
  [echo "Aman"; echo "Aryan"; echo "Satvik"].
Proof.
  pose proof (receiver_delivers_in_order mainNames transportA
                (echoes mainNames) [] (TMain :: repeat TRecv 8) eq_refl) as H.
  cbv zeta in H. destruct H as (_ & H & _).
  apply H. right. reflexivity.
Defined.

(** C5, a run refuting it: the transport yields one echo and the end of
    stream, but the second [Send] fails and the caller's [log.Fatalf] ends
    the process before the receiver has read anything.  The echo never
    reaches the sink, however the receiver is scheduled afterwards. *)
Lemma caller_exit_drops_messages :
  inbound transportB = map RecvMsg [echo "Aman"] ++ [RecvEOF] /\
  status (run mainNames transportB (repeat TMain 6) (init transportB)) =
  Exited 1 /\
  recv_pc (run mainNames transportB (repeat TMain 6) (init transportB)) =
  RLoop /\
  pending (run mainNames transportB (repeat TMain 6) (init transportB)) =
  [RecvMsg (echo "Aman"); RecvEOF] /\
  sink (trace (run mainNames transportB (repeat TMain 6) (init transportB))) =
  [] /\
  run mainNames transportB (repeat TMain 6 ++ repeat TRecv 4)
    (init transportB) =
  run mainNames transportB (repeat TMain 6) (init transportB).
Proof. repeat split. Qed.

(** ** The completion signal [close(waitc)] *)

Lemma fired_by_pc names T w :
  Inv names T w ->
  (recv_pc w = RDone -> waitc w = ChanClosed /\ fired (trace w) = 1) /\
  (recv_pc w <> RDone -> waitc w = ChanOpen /\ fired (trace w) = 0).
Proof.
  intros (_ & _ & (Hc & _) & _). unfold recv_done in Hc.
  destruct (recv_pc w); split; intros H; try congruence; auto.
Qed.

Lemma close_step names T w :
  Inv names T w -> recv_pc w = RClose -> status w = Running ->
  exists w', step names T TRecv w = Some w' /\ recv_pc w' = RDone /\
             waitc w' = ChanClosed /\ fired (trace w') = 1.
Proof.
  intros HI Hpc Hrun.
  destruct (fired_by_pc _ _ _ HI) as (_ & Hopen).
  destruct Hopen as [Hwc Hf]; [congruence|].
  destruct w as [st mp rp wc pd tr];
    cbn [status recv_pc waitc main_pc pending trace] in *. subst st rp wc.
  eexists. unfold step, step_recv.
  cbn [status recv_pc waitc main_pc pending trace chan_close].
  split; [reflexivity|].
  cbn [status recv_pc waitc main_pc pending trace].
  repeat split; auto. rewrite fired_app, Hf. reflexivity.
Qed.

Lemma exited_stays names T sched w more :
  w = run names T sched (init T) -> status w = Exited 1 ->
  run names T (sched ++ more) (init T) = w.
Proof.
  intros -> Hst. rewrite run_app. apply run_dead. congruence.
Qed.

(** Once [Recv] has returned an error the receiver is on its way out and
    [close(waitc)] has not run. *)
Lemma recv_error_seen names T w e :
  Inv names T w -> In (RecvErr e) (received (trace w)) ->
  (recv_pc w = RFatal e \/ recv_pc w = RExiting \/ recv_pc w = RExit) /\
  fired (trace w) = 0.
Proof.
  intros HI Hin.
  destruct (fired_by_pc _ _ _ HI) as (_ & Hnd).
  destruct HI as (_ & (_ & Hr) & _).
  assert (Hmsg : forall l, ~ In (RecvErr e) (map RecvMsg l)).
  { intros l H. apply in_map_iff in H. destruct H as (? & ? & _).
    discriminate. }
  assert (Hone : forall l e', In (RecvErr e) (map RecvMsg l ++ [RecvErr e']) ->
                              e' = e).
  { intros l e' H. apply in_app_iff in H. destruct H as [H|[H|[]]].
    - now apply Hmsg in H.
    - congruence. }
  destruct (recv_pc w) eqn:Hpc.
  - destruct Hr as (Hrc & _). rewrite Hrc in Hin. contradiction.
  - destruct Hr as (Hrc & _). rewrite Hrc in Hin. now apply Hmsg in Hin.
  - destruct Hr as (Hrc & _). rewrite Hrc in Hin. now apply Hmsg in Hin.
  - destruct Hr as (Hrc & _). rewrite Hrc in Hin.
    apply in_app_iff in Hin. destruct Hin as [H|[H|[]]];
      [now apply Hmsg in H | discriminate].
  - destruct Hr as (Hrc & _). rewrite Hrc in Hin.
    apply in_app_iff in Hin. destruct Hin as [H|[H|[]]];
      [now apply Hmsg in H | discriminate].
  - destruct Hr as (Hrc & _). rewrite Hrc in Hin. apply Hone in Hin.
    subst e0. split; auto. apply Hnd. discriminate.
  - split; auto. apply Hnd. discriminate.
  - split; auto. apply Hnd. discriminate.
Qed.

(** C3, a run refuting it: [Recv] fails after one message, the receiver
    leaves through [log.Fatalf], and [close(waitc)] has not run. *)
Lemma signal_not_fired_on_recv_error :
  recv_pc (run mainNames transportRecvErr (TMain :: repeat TRecv 5)
             (init transportRecvErr)) = RExit /\
  received (trace (run mainNames transportRecvErr (TMain :: repeat TRecv 5)
                     (init transportRecvErr))) =
  [RecvMsg (echo "Aman"); RecvErr connReset] /\
  fired (trace (run mainNames transportRecvErr (TMain :: repeat TRecv 5)
                  (init transportRecvErr))) = 0 /\
  status (run mainNames transportRecvErr (TMain :: repeat TRecv 5)
            (init transportRecvErr)) = Exited 1.
Proof. repeat split. Qed.

(** C3 as the code has it.  [close(waitc)] never runs twice.  A receiver
    that left its loop on end of stream closes the channel with its next
    step while the process lives, and has then fired exactly once.  A
    receiver that left on a transport error calls [log.Fatalf]: from the
    moment [Recv] returned the error the signal has not fired and never
    will, under any continuation; once the receiver has exited the
    process is dead. *)
Theorem signal_fires_once_on_eof_only names T sched :
  let w := run names T sched (init T) in
  fired (trace w) <= 1 /\
  (recv_pc w = RDone ->
   fired (trace w) = 1 /\
   received (trace w) = map RecvMsg (sink (trace w)) ++ [RecvEOF]) /\
  (recv_pc w = RClose ->
   received (trace w) = map RecvMsg (sink (trace w)) ++ [RecvEOF] /\
   (status w = Running ->
    exists w', step names T TRecv w = Some w' /\ recv_pc w' = RDone /\
               fired (trace w') = 1)) /\
  (recv_pc w = RExit ->
   (exists e, received (trace w) = map RecvMsg (sink (trace w)) ++ [RecvErr e] /\
              receiverError (trace w) = Some e) /\
   fired (trace w) = 0 /\ status w = Exited 1 /\
   forall more, run names T (sched ++ more) (init T) = w) /\
  (forall e, In (RecvErr e) (received (trace w)) ->
   (recv_pc w = RFatal e \/ recv_pc w = RExiting \/ recv_pc w = RExit) /\
   forall more,
     fired (trace (run names T (sched ++ more) (init T))) = 0 /\
     recv_pc (run names T (sched ++ more) (init T)) <> RDone).
Proof.
  intros w.
  assert (HI : Inv names T w) by apply run_Inv.
  destruct (fired_by_pc _ _ _ HI) as (Hd & Hnd).
  pose proof HI as (_ & (_ & Hr) & _ & (Hs & _) & _).
  split; [|split; [|split; [|split]]].
  - destruct (recv_pc w) eqn:Hpc;
      try (destruct Hnd as [_ ->]; [congruence|lia]).
    destruct Hd as [_ ->]; auto.
  - intros Hpc. rewrite Hpc in Hr. destruct Hd as [_ ->]; tauto.
  - intros Hpc. split; [rewrite Hpc in Hr; tauto|].
    intros Hrun.
    destruct (close_step _ _ _ HI Hpc Hrun) as (w' & H1 & H2 & _ & H3).
    eauto.
  - intros Hpc. rewrite Hpc in Hr. destruct Hr as (e & Hrc & He).
    assert (Hst : status w = Exited 1).
    { rewrite Hs. unfold recv_exited. rewrite Hpc.
      now rewrite orb_true_r. }
    split; [exists e; split; auto; unfold receiverError; now rewrite He|].
    split; [destruct Hnd as [_ ->]; [congruence|reflexivity]|].
    split; auto. intros more. now apply exited_stays.
  - intros e Hin. split; [eapply recv_error_seen; eauto|].
    intros more.
    assert (Hin' : In (RecvErr e)
                     (received (trace (run names T (sched ++ more) (init T))))).
    { destruct (run_extends names T sched more) as [ext ->].
      rewrite received_app. apply in_app_iff. now left. }
    destruct (recv_error_seen _ _ _ _ (run_Inv names T (sched ++ more)) Hin')
      as (Hpc' & Hf').
    split; auto. destruct Hpc' as [H|[H|H]]; rewrite H; discriminate.
Qed.

(** The receiver between [Recv]'s error and [os.Exit]: the process is
    still alive, the caller still sends, and the signal has not fired. *)
Example recv_error_before_exit :
  recv_pc (run mainNames transportRecvErr [TMain; TRecv; TRecv; TRecv; TMain]
             (init transportRecvErr)) = RFatal connReset /\
  status (run mainNames transportRecvErr [TMain; TRecv; TRecv; TRecv; TMain]
            (init transportRecvErr)) = Running /\
  send_count
    (trace (run mainNames transportRecvErr [TMain; TRecv; TRecv; TRecv; TMain]
              (init transportRecvErr))) = 1 /\
  fired
    (trace (run mainNames transportRecvErr [TMain; TRecv; TRecv; TRecv; TMain]
              (init transportRecvErr))) = 0.
Proof. repeat split. Qed.

(** ** A send that fails *)

Lemma no_recv_error names T w :
  Inv names T w -> recv_pc w <> RExiting -> recv_pc w <> RExit ->
  receiverError (trace w) = None.
Proof.
  intros (_ & (_ & Hr) & _) Hnx Hne. unfold receiverError.
  destruct (recv_pc w); try congruence;
    (destruct Hr as (_ & _ & ->) || destruct Hr as (_ & ->)); reflexivity.
Qed.

Lemma no_send_error names T w :
  Inv names T w -> main_pc w <> MExiting -> main_pc w <> MExit ->
  senderError (trace w) = None.
Proof.
  intros (Hm & _) Hnx Hne. unfold senderError, main_inv in *.
  destruct (main_pc w); try congruence.
  - destruct Hm as [-> _]. reflexivity.
  - destruct Hm as (_ & _ & _ & _ & ->). reflexivity.
  - destruct Hm as (_ & _ & _ & _ & ->). reflexivity.
  - destruct Hm as (_ & _ & _ & ->). reflexivity.
  - destruct Hm as (_ & _ & _ & ->). reflexivity.
  - destruct Hm as (_ & _ & _ & ->). reflexivity.
  - destruct Hm as (i & name & _ & _ & _ & _ & _ & ->). reflexivity.
Qed.

(** A dead process has logged the fatal line of the goroutine that called
    [os.Exit]. *)
Lemma exit_is_reported names T w :
  Inv names T w -> status w = Exited 1 ->
  (main_pc w = MExit /\
   (openResult T <> None \/ exists e, senderError (trace w) = Some e)) \/
  (recv_pc w = RExit /\ exists e, receiverError (trace w) = Some e).
Proof.
  intros (Hm & (_ & Hr) & _ & (Hs & _) & _) Hst. rewrite Hs in Hst.
  unfold main_exited, recv_exited, main_inv in *.
  destruct (main_pc w) eqn:Hpc; cbn in Hst;
    try (destruct (recv_pc w) eqn:Hrp; try discriminate;
         right; split; auto; destruct Hr as (e' & _ & He); exists e';
         unfold receiverError; now rewrite He).
  left. split; auto.
  destruct Hm as [(Ho & _)|(i & name & e' & _ & _ & _ & _ & _ & He)]; auto.
  right. exists e'. unfold senderError. now rewrite He.
Qed.

(** C4, a run refuting it: the second [Send] fails while the receiver
    still has an echo and the end of stream to read.  The caller writes
    its fatal line and ends the process: it never issues [CloseSend],
    never reaches [<-waitc], never returns, and the receiver never runs
    again. *)
Lemma failed_send_does_not_wait :
  status (run mainNames transportB (repeat TMain 6) (init transportB)) =
  Exited 1 /\
  main_pc (run mainNames transportB (repeat TMain 6) (init transportB)) =
  MExit /\
  recv_pc (run mainNames transportB (repeat TMain 6) (init transportB)) =
  RLoop /\
  pending (run mainNames transportB (repeat TMain 6) (init transportB)) =
  [RecvMsg (echo "Aman"); RecvEOF] /\
  closeSend_count
    (trace (run mainNames transportB (repeat TMain 6) (init transportB))) =
  0 /\
  waits (trace (run mainNames transportB (repeat TMain 6) (init transportB))) =
  0 /\
  run mainNames transportB
    (repeat TMain 6 ++ [TRecv; TRecv; TRecv; TRecv; TMain; TMain])
    (init transportB) =
  run mainNames transportB (repeat TMain 6) (init transportB).
Proof. repeat split. Qed.

(** C4 as the code has it.  Once a [Send] has failed, under every
    continuation of the schedule the caller issues no [CloseSend], never
    waits on [waitc] and never returns; the process is alive or has exited
    with status 1.  When it is the caller that ended the process, the
    fatal line carries the send error; a dead process has logged the send
    error or a receiver error.  While the process is alive the caller can
    be scheduled to its exit. *)
Theorem failed_send_exits_process names T sched k e :
  let w := run names T sched (init T) in
  nth_error (send_results (trace w)) k = Some (Some e) ->
  (forall more,
      let w' := run names T (sched ++ more) (init T) in
      closeSend_count (trace w') = 0 /\ waits (trace w') = 0 /\
      past_wait w' = false /\ main_pc w' <> MReturned /\
      (status w' = Running \/ status w' = Exited 1) /\
      (main_pc w' = MExit ->
       status w' = Exited 1 /\ senderError (trace w') = Some e) /\
      (status w' = Exited 1 ->
       senderError (trace w') = Some e \/
       exists e', receiverError (trace w') = Some e')) /\
  (status w = Running ->
   exists more,
     main_pc (run names T (sched ++ more) (init T)) = MExit /\
     status (run names T (sched ++ more) (init T)) = Exited 1 /\
     senderError (trace (run names T (sched ++ more) (init T))) = Some e) /\
  (status w = Exited 1 ->
   forall more, run names T (sched ++ more) (init T) = w).
Proof.
  intros w Hk.
  assert (HI : Inv names T w) by apply run_Inv.
  assert (Hall : forall more,
             let w' := run names T (sched ++ more) (init T) in
             closeSend_count (trace w') = 0 /\ waits (trace w') = 0 /\
             past_wait w' = false /\ main_pc w' <> MReturned /\
             (status w' = Running \/ status w' = Exited 1) /\
             (main_pc w' = MExit ->
              status w' = Exited 1 /\ senderError (trace w') = Some e) /\
             (status w' = Exited 1 ->
              senderError (trace w') = Some e \/
              exists e', receiverError (trace w') = Some e')).
  { intros more w'.
    assert (HI' : Inv names T w') by apply run_Inv.
    pose proof (failed_send_persists _ _ _ more _ _ Hk) as Hk'. fold w' in Hk'.
    destruct (failed_send_counts _ _ _ _ _ HI' Hk') as (_ & Hcc & Hsf & Hwt).
    destruct (failed_send_inv _ _ _ _ _ HI' Hk') as (Hpc & _ & _ & _ & Hse).
    pose proof HI' as (_ & _ & _ & (Hs & _) & _).
    assert (Hx : main_pc w' = MExit -> senderError (trace w') = Some e).
    { intros Hx. unfold senderError. rewrite Hse; [reflexivity|].
      rewrite Hx. discriminate. }
    split; auto. split; auto.
    split; [unfold past_wait, sender_finished in *;
            destruct (main_pc w'); auto; discriminate|].
    split; [destruct Hpc as [H|[H|H]]; rewrite H; discriminate|].
    split; [rewrite Hs; destruct (main_exited w' || recv_exited w'); auto|].
    split.
    - intros Hx'. split; auto. rewrite Hs. unfold main_exited.
      now rewrite Hx'.
    - intros Hst.
      destruct (exit_is_reported _ _ _ HI' Hst) as [(Hx' & _)|(_ & He')];
        auto. }
  split; auto. split.
  - intros Hrun. exists [TMain; TMain].
    destruct (Hall [TMain; TMain]) as (_ & _ & _ & _ & _ & Hx & _).
    rewrite run_app in *. fold w in Hx |- *.
    destruct (fatal_exits names T w HI) as (_ & Hpc).
    { destruct (failed_send_inv _ _ _ _ _ HI Hk) as ([H|[H|H]] & _); eauto. }
    specialize (Hpc Hrun). destruct (Hx Hpc). auto.
  - intros Hst more. rewrite run_app. fold w. apply run_dead. congruence.
Qed.

(** C4 amended, on the transport whose second [Send] fails. *)
Lemma failed_send_exits_process_witness :
  closeSend_count
    (trace (run mainNames transportB (repeat TMain 4 ++ repeat TRecv 4)
              (init transportB))) = 0 /\
  waits
    (trace (run mainNames transportB (repeat TMain 4 ++ repeat TRecv 4)
              (init transportB))) = 0 /\
  main_pc (run mainNames transportB (repeat TMain 4 ++ repeat TRecv 4)
             (init transportB)) <> MReturned.
Proof.
  pose proof (failed_send_exits_process mainNames transportB (repeat TMain 4)
                1 connReset eq_refl) as (H & _).
  destruct (H (repeat TRecv 4)) as (H1 & H2 & _ & H3 & _).
  split; [exact H1 | split; [exact H2 | exact H3]].
Defined.

(** Both directions fail: the second [Send] and the second [Recv].  Each
    goroutine writes its fatal line before either has called [os.Exit],
    and the log carries both errors. *)
Example both_fatal_lines_logged :
  log (trace (run mainNames transportBothFail
                (repeat TMain 4 ++ repeat TRecv 3 ++ [TMain; TRecv; TMain])
                (init transportBothFail))) =
  [LogStarted; LogMessage (echo "Aman"); LogErrSending brokenPipe;
   LogErrStreaming connReset] /\
  status (run mainNames transportBothFail
            (repeat TMain 4 ++ repeat TRecv 3 ++ [TMain; TRecv; TMain])
            (init transportBothFail)) = Exited 1.
Proof. split; reflexivity. Qed.

(** The same failures, the receiver first at [os.Exit]: the send error
    is never logged. *)
Example send_error_never_logged :
  nth_error
    (send_results
       (trace (run mainNames transportBothFail
                 (repeat TMain 4 ++ repeat TRecv 5) (init transportBothFail))))
    1 = Some (Some brokenPipe) /\
  log (trace (run mainNames transportBothFail
                (repeat TMain 4 ++ repeat TRecv 5)
                (init transportBothFail))) =
  [LogStarted; LogMessage (echo "Aman"); LogErrStreaming connReset] /\
  status (run mainNames transportBothFail
            (repeat TMain 4 ++ repeat TRecv 5)
            (init transportBothFail)) = Exited 1 /\
  run mainNames transportBothFail
    ((repeat TMain 4 ++ repeat TRecv 5) ++ repeat TMain 4)
    (init transportBothFail) =
  run mainNames transportBothFail (repeat TMain 4 ++ repeat TRecv 5)
    (init transportBothFail).
Proof. repeat split. Qed.

(** After the caller's fatal line and before its [os.Exit] the receiver
    still reads and logs a message. *)
Example message_after_fatal_line :
  log (trace (run mainNames transportB (repeat TMain 5 ++ [TRecv; TRecv; TMain])
                (init transportB))) =
  [LogStarted; LogErrSending connReset; LogMessage (echo "Aman")] /\
  status (run mainNames transportB (repeat TMain 5 ++ [TRecv; TRecv; TMain])
            (init transportB)) = Exited 1.
Proof. split; reflexivity. Qed.

(** ** Runs to the end *)

(** From any world some schedule reaches a world where nothing can move. *)
Lemma eventually_stuck names T n :
  forall w, todo names w <= n ->
            exists more, stuck names T (run names T more w).
Proof.
  induction n as [|n IH]; intros w Hn.
  - exists []. split; simpl;
      match goal with |- step _ _ ?t _ = None =>
        destruct (step names T t w) eqn:Hs; auto;
        apply (step_todo names T) in Hs; lia
      end.
  - destruct (step names T TMain w) as [w1|] eqn:Hm.
    + destruct (IH w1) as [more H]; [apply (step_todo names T) in Hm; lia|].
      exists (TMain :: more). simpl. now rewrite Hm.
    + destruct (step names T TRecv w) as [w1|] eqn:Hr.
      * destruct (IH w1) as [more H]; [apply (step_todo names T) in Hr; lia|].
        exists (TRecv :: more). simpl. now rewrite Hr.
      * exists []. split; auto.
Qed.

Section CleanRun.

Variable names : pb.NamesList.
Variable T : transport.
Variable ms : list pb.HelloResponse.
Variable rest : list recv_result.

Hypothesis Hopen : openResult T = None.
Hypothesis Hsends : sends_ok names T.
Hypothesis Hin : inbound T = map RecvMsg ms ++ RecvEOF :: rest.

Lemma clean_running w : Inv names T w -> status w = Running.
Proof.
  intros HI. apply (status_running names T); auto.
  - now apply (main_never_exits names T).
  - eapply recv_error_free; eauto.
Qed.

Lemma returned_sink w :
  Inv names T w -> main_pc w = MReturned ->
  recv_pc w = RDone /\ sink (trace w) = ms.
Proof.
  intros HI Hpc. pose proof HI as (_ & _ & (_ & Hw) & _).
  unfold past_wait in Hw. rewrite Hpc in Hw. destruct Hw as [Hd _].
  split; auto. eapply sink_complete; eauto.
Qed.

(** Such a run can only come to rest with the function returned. *)
Lemma clean_stuck w :
  Inv names T w -> stuck names T w -> main_pc w = MReturned.
Proof.
  intros HI [Hbm Hbr].
  pose proof (clean_running w HI) as Hrun.
  pose proof (main_never_exits _ _ _ HI Hopen Hsends) as Hne.
  destruct (main_blocked _ _ _ Hrun Hbm) as [[Hpc Hwc]|[Hpc|Hpc]];
    auto; try congruence.
  assert (Hd : recv_pc w = RDone).
  { eapply recv_blocked_done; eauto. congruence. }
  destruct (fired_by_pc _ _ _ HI) as (Hc & _).
  destruct (Hc Hd) as [Hwc' _]. congruence.
Qed.

Lemma clean_can_return sched :
  exists more,
    main_pc (run names T (sched ++ more) (init T)) = MReturned /\
    sink (trace (run names T (sched ++ more) (init T))) = ms.
Proof.
  destruct (eventually_stuck names T _ (run names T sched (init T))
              (le_n _)) as [more Hst].
  exists more. rewrite run_app.
  set (w' := run names T more (run names T sched (init T))) in *.
  assert (HI : Inv names T w') by (apply run_Inv_from, run_Inv).
  pose proof (clean_stuck w' HI Hst) as Hpc.
  split; auto. now apply returned_sink.
Qed.

End CleanRun.

(** C6.  Scenario A: the names of [main], every send accepted, the three
    echoes and then end of stream.  Under every schedule the process
    stays alive and logs no sender or receiver error, the sink is an
    initial part of the three echoes, the run can only come to rest with
    the function returned, it can always get there, and then the sink is
    exactly the three echoes in order. *)
Theorem scenarioA_echoes_without_error sched :
  let w := run mainNames transportA sched (init transportA) in
  (exists later,
      [echo "Aman"; echo "Aryan"; echo "Satvik"] = sink (trace w) ++ later) /\
  status w = Running /\
  senderError (trace w) = None /\ receiverError (trace w) = None /\
  (main_pc w = MReturned ->
   sink (trace w) = [echo "Aman"; echo "Aryan"; echo "Satvik"]) /\
  (stuck mainNames transportA w -> main_pc w = MReturned) /\
  (exists more,
      main_pc (run mainNames transportA (sched ++ more) (init transportA)) =
      MReturned /\
      sink (trace (run mainNames transportA (sched ++ more)
                     (init transportA))) =
      [echo "Aman"; echo "Aryan"; echo "Satvik"]).
Proof.
  intros w.
  assert (HI : Inv mainNames transportA w) by apply run_Inv.
  assert (Hopen : openResult transportA = None) by reflexivity.
  assert (Hsends : sends_ok mainNames transportA) by (intros i name _; reflexivity).
  assert (Hin : inbound transportA =
                map RecvMsg (echoes mainNames) ++ RecvEOF :: []) by reflexivity.
  change [echo "Aman"; echo "Aryan"; echo "Satvik"] with (echoes mainNames).
  split; [eapply sink_prefix; eauto|].
  split; [eapply clean_running; eauto|].
  split; [apply (no_send_error mainNames transportA); auto;
          now apply (main_never_fatal mainNames transportA)|].
  split; [apply (no_recv_error mainNames transportA); auto;
          eapply recv_never_fatal; eauto|].
  split; [intros Hpc; eapply returned_sink; eauto|].
  split; [intros Hst; eapply clean_stuck; eauto|].
  eapply clean_can_return; eauto.
Qed.

(** ** The wait on [waitc] *)

(** A closed [waitc] stays closed: the signal cannot be lost. *)
Lemma closed_stays names T sched more :
  waitc (run names T sched (init T)) = ChanClosed ->
  waitc (run names T (sched ++ more) (init T)) = ChanClosed.
Proof.
  intros Hc.
  destruct (fired_by_pc _ _ _ (run_Inv names T sched)) as (_ & Hn).
  destruct (fired_by_pc _ _ _ (run_Inv names T (sched ++ more))) as (Hd' & Hn').
  assert (Hf : fired (trace (run names T sched (init T))) = 1).
  { destruct (fired_by_pc _ _ _ (run_Inv names T sched)) as (Hd & _).
    destruct (recv_pc (run names T sched (init T))) eqn:Hpc;
      try (destruct Hn as [Ho _]; congruence).
    now apply Hd. }
  rewrite run_app in *.
  destruct (run_trace_extends names T more (run names T sched (init T)))
    as [ext Hext].
  destruct (recv_pc (run names T more (run names T sched (init T)))) eqn:Hpc;
    try (destruct Hn' as [_ H0]; [congruence|];
         rewrite Hext, fired_app, Hf in H0; discriminate).
  now apply Hd'.
Qed.

Lemma wait_step names T w :
  Inv names T w -> main_pc w = MWait -> waitc w = ChanClosed ->
  exists w', step names T TMain w = Some w' /\ main_pc w' = MFinish /\
             waits (trace w') = 1.
Proof.
  intros HI Hpc Hwc.
  assert (Hrun : status w = Running).
  { apply (status_running names T); auto; try congruence.
    destruct (fired_by_pc _ _ _ HI) as (_ & Hn). intros Hr.
    destruct Hn as [Ho _]; congruence. }
  pose proof HI as (_ & _ & (_ & Hw) & _).
  unfold past_wait in Hw. rewrite Hpc in Hw.
  destruct w as [st mp rp wc pd tr];
    cbn [status recv_pc waitc main_pc pending trace] in *. subst st mp wc.
  eexists. unfold step, step_main.
  cbn [status recv_pc waitc main_pc pending trace chan_recv].
  split; [reflexivity|].
  cbn [status recv_pc waitc main_pc pending trace].
  split; auto. rewrite waits_app, Hw. reflexivity.
Qed.

(** The caller at [<-waitc] on the open channel cannot move. *)
Lemma wait_blocks names T w :
  main_pc w = MWait -> waitc w = ChanOpen -> step names T TMain w = None.
Proof.
  destruct w as [st mp rp wc pd tr]; cbn. intros -> ->.
  unfold step, step_main; cbn. now destruct st.
Qed.

(** The signal has fired exactly when the channel is closed. *)
Lemma fired_iff_closed names T w :
  Inv names T w ->
  (fired (trace w) = 1 <-> waitc w = ChanClosed) /\
  (fired (trace w) = 0 <-> waitc w = ChanOpen).
Proof.
  intros HI. destruct (fired_by_pc _ _ _ HI) as (Hd & Hnd).
  assert (Hdec : recv_pc w = RDone \/ recv_pc w <> RDone)
    by (destruct (recv_pc w); auto; right; discriminate).
  destruct Hdec as [H|H].
  - destruct (Hd H) as [Hc Hf]. rewrite Hc, Hf.
    split; split; auto; discriminate.
  - destruct (Hnd H) as [Hc Hf]. rewrite Hc, Hf.
    split; split; auto; discriminate.
Qed.

(** A second [close(waitc)] would not fire the signal again: the
    primitive panics. *)
Lemma second_close_panics names T w :
  status w = Running -> recv_pc w = RClose -> waitc w = ChanClosed ->
  exists w', step names T TRecv w = Some w' /\ status w' = Panicked /\
             fired (trace w') = fired (trace w).
Proof.
  destruct w as [st mp rp wc pd tr];
    cbn [status recv_pc waitc main_pc pending trace]. intros -> -> ->.
  eexists. unfold step, step_recv.
  cbn [status recv_pc waitc main_pc pending trace chan_close].
  split; [reflexivity|].
  cbn [status recv_pc waitc main_pc pending trace].
  split; auto. rewrite fired_app. cbn. lia.
Qed.

(** C7.  The wait on [waitc] has returned only in worlds where
    [close(waitc)] has run; at the wait the caller is blocked while the
    signal has not fired, and once it has fired the caller's next step
    returns from the wait, however long ago the signal fired: a fired
    signal stays fired under every continuation, because firing is
    closing the channel and a closed channel stays closed.
    [close(waitc)] never runs twice and the process never panics; a
    second close would be refused by the primitive with a panic, without
    firing again. *)
Theorem wait_returns_iff_fired names T sched :
  let w := run names T sched (init T) in
  (past_wait w = true -> fired (trace w) = 1) /\
  waits (trace w) <= fired (trace w) /\
  (main_pc w = MWait -> fired (trace w) = 0 ->
   step names T TMain w = None) /\
  (main_pc w = MWait -> fired (trace w) = 1 ->
   exists w', step names T TMain w = Some w' /\ main_pc w' = MFinish /\
              waits (trace w') = 1) /\
  (fired (trace w) = 1 ->
   forall more,
     fired (trace (run names T (sched ++ more) (init T))) = 1 /\
     waitc (run names T (sched ++ more) (init T)) = ChanClosed) /\
  (fired (trace w) = 1 <-> waitc w = ChanClosed) /\
  fired (trace w) <= 1 /\ status w <> Panicked /\
  (forall w0,
      status w0 = Running -> recv_pc w0 = RClose -> waitc w0 = ChanClosed ->
      exists w1, step names T TRecv w0 = Some w1 /\ status w1 = Panicked /\
                 fired (trace w1) = fired (trace w0)).
Proof.
  intros w.
  assert (HI : Inv names T w) by apply run_Inv.
  destruct (fired_by_pc _ _ _ HI) as (Hd & Hnd).
  destruct (fired_iff_closed _ _ _ HI) as (Hfc & Hfo).
  pose proof HI as (_ & _ & (_ & Hw) & (Hs & _) & _).
  assert (Hf : fired (trace w) <= 1).
  { destruct (recv_pc w) eqn:Hpc;
      try (destruct Hnd as [_ ->]; [congruence|lia]).
    destruct Hd as [_ ->]; auto. }
  split; [|split; [|split; [|split; [|split; [|split]]]]].
  - intros Hp. rewrite Hp in Hw. destruct Hw as [Hr _].
    now destruct (Hd Hr).
  - destruct (past_wait w).
    + destruct Hw as [Hr ->]. destruct (Hd Hr) as [_ ->]. lia.
    + rewrite Hw. lia.
  - intros Hpc H0. apply wait_blocks; auto. now apply Hfo.
  - intros Hpc H1. apply wait_step; auto. now apply Hfc.
  - intros H1 more.
    assert (Hc : waitc (run names T (sched ++ more) (init T)) = ChanClosed)
      by (apply closed_stays; now apply Hfc).
    split; auto.
    now apply (fired_iff_closed _ _ _ (run_Inv names T (sched ++ more))).
  - exact Hfc.
  - repeat split; auto.
    + rewrite Hs. destruct (main_exited w || recv_exited w); discriminate.
    + intros w0. apply second_close_panics.
Qed.

(** The signal fired before the caller has sent anything: the receiver
    reads the stream to its end and closes [waitc] first, the caller then
    runs alone and returns. *)
Example fired_before_wait_returns :
  fired (trace (run mainNames transportA (TMain :: repeat TRecv 8)
                  (init transportA))) = 1 /\
  main_pc (run mainNames transportA (TMain :: repeat TRecv 8)
             (init transportA)) = MLoop 0 /\
  main_pc (run mainNames transportA
             ((TMain :: repeat TRecv 8) ++ repeat TMain 9)
             (init transportA)) = MReturned.
Proof. repeat split. Qed.

(** ** A peer that never half-closes *)

Section NeverHalfCloses.

Variable names : pb.NamesList.
Variable T : transport.
Variable ms : list pb.HelloResponse.

(** The transport yields [ms] and then nothing: [Recv] blocks. *)
Hypothesis Hin : inbound T = map RecvMsg ms.

Lemma recv_stays_in_loop w :
  Inv names T w ->
  recv_pc w <> RClose /\ recv_pc w <> RDone /\ recv_pc w <> RExit.
Proof.
  intros (_ & (Hp & Hr) & _). rewrite Hin in Hp.
  repeat split; intros Hpc; rewrite Hpc in Hr;
    [destruct Hr as [Hrc _] | destruct Hr as [Hrc _]
     | destruct Hr as (e & Hrc & _)];
    rewrite Hrc, <- app_assoc in Hp; apply map_msg_all in Hp;
    destruct Hp as ([|x later] & _ & Hp); discriminate.
Qed.

Lemma recv_never_fails w :
  Inv names T w ->
  (forall e, recv_pc w <> RFatal e) /\ recv_pc w <> RExiting.
Proof.
  intros (_ & (Hp & Hr) & _). rewrite Hin in Hp.
  split; [intros e Hpc | intros Hpc]; rewrite Hpc in Hr;
    [destruct Hr as [Hrc _] | destruct Hr as (e & Hrc & _)];
    rewrite Hrc, <- app_assoc in Hp; apply map_msg_all in Hp;
    destruct Hp as ([|x later] & _ & Hp); discriminate.
Qed.

Lemma never_past_wait w :
  Inv names T w ->
  past_wait w = false /\ waitc w = ChanOpen /\ fired (trace w) = 0.
Proof.
  intros HI. destruct (recv_stays_in_loop w HI) as (_ & Hnd & _).
  destruct (fired_by_pc _ _ _ HI) as (_ & Hn).
  destruct (Hn Hnd) as [Ho Hf]. repeat split; auto.
  destruct HI as (_ & _ & (_ & Hw) & _).
  destruct (past_wait w); auto. destruct Hw; congruence.
Qed.

Lemma hang_stuck w :
  Inv names T w -> openResult T = None -> sends_ok names T ->
  stuck names T w ->
  main_pc w = MWait /\ recv_pc w = RLoop /\ pending w = [] /\
  sink (trace w) = ms.
Proof.
  intros HI Ho Hok [Hbm Hbr].
  destruct (recv_stays_in_loop w HI) as (Hnc & Hnd & Hne).
  destruct (never_past_wait w HI) as (Hpw & _).
  pose proof (main_never_exits _ _ _ HI Ho Hok) as Hme.
  pose proof (status_running _ _ _ HI Hme Hne) as Hrun.
  assert (Hpc : main_pc w = MWait).
  { destruct (main_blocked _ _ _ Hrun Hbm) as [[Hpc _]|[Hpc|Hpc]];
      auto; try congruence.
    unfold past_wait in Hpw. rewrite Hpc in Hpw. discriminate. }
  split; auto.
  destruct (recv_blocked _ _ _ Hrun Hbr) as [Hr|[[Hr Hpd]|[Hr|Hr]]];
    try congruence.
  - destruct HI as (_ & _ & _ & _ & Hsp). destruct (Hsp Hr); congruence.
  - repeat split; auto.
    destruct HI as (_ & (Hp & Hri) & _). rewrite Hr in Hri.
    destruct Hri as [Hrc _].
    rewrite Hpd, app_nil_r, Hrc, Hin in Hp.
    rewrite <- (app_nil_r (map RecvMsg (sink (trace w)))) in Hp.
    apply map_msg_all in Hp. destruct Hp as (later & -> & Hl).
    destruct later; [now rewrite app_nil_r | discriminate].
Qed.

End NeverHalfCloses.

(** C8, refuting the timeout: on the peer that echoes and never
    half-closes, the run of the names of [main] comes to rest with the
    caller blocked at [<-waitc], the process alive and no receiver error
    logged; and whatever names the function is called with, and under
    whatever schedule, it neither returns nor logs a receiver error.  The
    function has no other argument. *)
Lemma scenarioC_hang_has_no_timeout :
  stuck mainNames transportC
    (run mainNames transportC (repeat TMain 8 ++ repeat TRecv 6)
       (init transportC)) /\
  main_pc (run mainNames transportC (repeat TMain 8 ++ repeat TRecv 6)
             (init transportC)) = MWait /\
  status (run mainNames transportC (repeat TMain 8 ++ repeat TRecv 6)
            (init transportC)) = Running /\
  ~ (exists names sched,
        receiverError (trace (run names transportC sched (init transportC)))
        <> None \/
        main_pc (run names transportC sched (init transportC)) = MReturned).
Proof.
  split; [split; reflexivity|]. split; [reflexivity|]. split; [reflexivity|].
  intros (names & sched & H).
  pose proof (run_Inv names transportC sched) as HI.
  assert (Hin : inbound transportC = map RecvMsg (echoes mainNames))
    by reflexivity.
  destruct (recv_stays_in_loop _ _ _ Hin _ HI) as (_ & _ & Hne).
  destruct (recv_never_fails _ _ _ Hin _ HI) as (_ & Hnx).
  destruct (never_past_wait _ _ _ Hin _ HI) as (Hpw & _).
  destruct H as [H|H].
  - apply H. now apply (no_recv_error names transportC).
  - unfold past_wait in Hpw. rewrite H in Hpw. discriminate.
Qed.

(** C8 as the code has it.  On a peer that never half-closes the wait
    never returns: the channel stays open, the function does not return
    and no receiver error is logged.  With the stream open and every send
    accepted the process stays alive, the only world in which nothing can
    move has the caller blocked at [<-waitc] and the receiver blocked in
    [Recv] with every message delivered, and every run can reach it.  The
    function takes no timeout. *)
Theorem never_half_closed_call_hangs names T ms sched :
  inbound T = map RecvMsg ms ->
  let w := run names T sched (init T) in
  past_wait w = false /\ main_pc w <> MReturned /\
  waitc w = ChanOpen /\ receiverError (trace w) = None /\
  (openResult T = None -> sends_ok names T ->
   status w = Running /\
   (stuck names T w ->
    main_pc w = MWait /\ recv_pc w = RLoop /\ pending w = [] /\
    sink (trace w) = ms) /\
   exists more, stuck names T (run names T (sched ++ more) (init T))).
Proof.
  intros Hin w.
  assert (HI : Inv names T w) by apply run_Inv.
  destruct (recv_stays_in_loop _ _ _ Hin _ HI) as (_ & _ & Hne).
  destruct (recv_never_fails _ _ _ Hin _ HI) as (_ & Hnx).
  destruct (never_past_wait _ _ _ Hin _ HI) as (Hpw & Hwc & _).
  split; auto.
  split; [intros Hpc; unfold past_wait in Hpw; rewrite Hpc in Hpw;
          discriminate|].
  split; auto.
  split; [now apply (no_recv_error names T)|].
  intros Ho Hok.
  split; [apply (status_running names T); auto;
          now apply (main_never_exits names T)|].
  split; [intros Hst; eapply hang_stuck; eauto|].
  destruct (eventually_stuck names T _ w (le_n _)) as [more Hst].
  exists more. now rewrite run_app.
Qed.

(** C8 amended, on the peer that echoes the names of [main] and never
    half-closes. *)
Lemma never_half_closed_call_hangs_witness :
  main_pc (run mainNames transportC (repeat TMain 8 ++ repeat TRecv 6)
             (init transportC)) = MWait /\
  sink (trace (run mainNames transportC (repeat TMain 8 ++ repeat TRecv 6)
                 (init transportC))) = echoes mainNames.
Proof.
  pose proof (never_half_closed_call_hangs mainNames transportC
                (echoes mainNames) (repeat TMain 8 ++ repeat TRecv 6)
                eq_refl) as H.
  cbv zeta in H. destruct H as (_ & _ & _ & _ & H).
  destruct (H eq_refl (fun _ _ _ => eq_refl)) as (_ & Hst & _).
  destruct Hst as (H1 & _ & _ & H2); [split; reflexivity|].
  split; [exact H1 | exact H2].
Defined.

(** ** The result of [CloseSend] *)

Lemma log_erase tr : log (map erase_event tr) = log tr.
Proof.
  induction tr as [|ev tr IH]; simpl; auto.
  rewrite IH. now destruct ev.
Qed.

Lemma erase_snoc tr1 tr2 l1 l2 :
  map erase_event tr1 = map erase_event tr2 ->
  map erase_event l1 = map erase_event l2 ->
  map erase_event (tr1 ++ l1) = map erase_event (tr2 ++ l2).
Proof. intros H1 H2. now rewrite !map_app, H1, H2. Qed.

(** Two transports that differ at most in what [CloseSend] returns drive
    the program through the same steps, up to the value recorded for
    [CloseSend]. *)
Lemma step_erase names T r t w1 w2 :
  erase w1 = erase w2 ->
  match step names T t w1, step names (with_closeSend T r) t w2 with
  | Some a, Some b => erase a = erase b
  | None, None => True
  | _, _ => False
  end.
Proof.
  destruct w1 as [st mp rp wc pd tr1], w2 as [st2 mp2 rp2 wc2 pd2 tr2].
  unfold erase; cbn [status main_pc recv_pc waitc pending trace].
  intros H; inversion H; subst st2 mp2 rp2 wc2 pd2; clear H.
  unfold step, step_main, step_recv;
    cbn [status main_pc recv_pc waitc pending trace
         openResult sendResult closeSendResult inbound with_closeSend].
  destruct st; auto.
  destruct t.
  - destruct mp; auto.
    + destruct (openResult T);
        cbn [erase status main_pc recv_pc waitc pending trace];
        f_equal; now apply erase_snoc.
    + destruct (nth_error (pb.Names names) i);
        [destruct (sendResult T i _)|];
        cbn [erase status main_pc recv_pc waitc pending trace];
        f_equal; now apply erase_snoc.
    + cbn [erase status main_pc recv_pc waitc pending trace];
        f_equal; now apply erase_snoc.
    + destruct (chan_recv wc); auto.
      cbn [erase status main_pc recv_pc waitc pending trace];
        f_equal; now apply erase_snoc.
    + cbn [erase status main_pc recv_pc waitc pending trace];
        f_equal; now apply erase_snoc.
    + cbn [erase status main_pc recv_pc waitc pending trace];
        f_equal; now apply erase_snoc.
    + cbn [erase status main_pc recv_pc waitc pending trace];
        f_equal; now apply erase_snoc.
  - destruct rp; auto.
    + destruct pd as [|[m| |e] pd']; auto;
        cbn [erase status main_pc recv_pc waitc pending trace];
        f_equal; now apply erase_snoc.
    + cbn [erase status main_pc recv_pc waitc pending trace];
        f_equal; now apply erase_snoc.
    + destruct (chan_close wc);
        cbn [erase status main_pc recv_pc waitc pending trace];
        f_equal; now apply erase_snoc.
    + cbn [erase status main_pc recv_pc waitc pending trace];
        f_equal; now apply erase_snoc.
    + cbn [erase status main_pc recv_pc waitc pending trace];
        f_equal; now apply erase_snoc.
Qed.

Lemma run_erase names T r sched :
  forall w1 w2,
    erase w1 = erase w2 ->
    erase (run names T sched w1) =
    erase (run names (with_closeSend T r) sched w2).
Proof.
  induction sched as [|t sched IH]; intros w1 w2 H; simpl; auto.
  pose proof (step_erase names T r t w1 w2 H) as Hs.
  destruct (step names T t w1), (step names (with_closeSend T r) t w2);
    try contradiction; auto.
Qed.

(** The sink and the reported errors are read off the log. *)
Lemma send_errors_log tr :
  send_errors tr =
  flat_map (fun l => match l with LogErrSending e => [e] | _ => [] end)
    (log tr).
Proof.
  induction tr as [|ev tr IH]; simpl; auto.
  destruct ev as [l| | | | | | | | | |]; simpl; auto. rewrite IH.
  now destruct l.
Qed.

Lemma recv_errors_log tr :
  recv_errors tr =
  flat_map (fun l => match l with LogErrStreaming e => [e] | _ => [] end)
    (log tr).
Proof.
  induction tr as [|ev tr IH]; simpl; auto.
  destruct ev as [l| | | | | | | | | |]; simpl; auto. rewrite IH.
  now destruct l.
Qed.

Lemma sink_log tr :
  sink tr =
  flat_map (fun l => match l with LogMessage m => [m] | _ => [] end) (log tr).
Proof.
  induction tr as [|ev tr IH]; simpl; auto.
  destruct ev as [l| | | | | | | | | |]; simpl; auto. rewrite IH.
  now destruct l.
Qed.

(** C10.  Whatever [CloseSend] returns, the run is the same: under every
    schedule the process status, both program points, the channel and
    every log line agree with the run in which [CloseSend] returns [r]
    instead, and the traces differ at most in the value recorded at the
    [CloseSend] event.  An error of the half-close is therefore logged
    nowhere and changes no outcome. *)
Theorem closeSend_result_is_discarded names T r sched :
  let w := run names T sched (init T) in
  let w' := run names (with_closeSend T r) sched (init (with_closeSend T r)) in
  status w' = status w /\ main_pc w' = main_pc w /\
  recv_pc w' = recv_pc w /\ waitc w' = waitc w /\
  log (trace w') = log (trace w) /\
  senderError (trace w') = senderError (trace w) /\
  receiverError (trace w') = receiverError (trace w) /\
  sink (trace w') = sink (trace w) /\
  map erase_event (trace w') = map erase_event (trace w).
Proof.
  intros w w'.
  assert (H : erase w = erase w').
  { apply run_erase. reflexivity. }
  unfold erase in H. inversion H as [[H1 H2 H3 H4 H5 H6]].
  assert (Hl : log (trace w') = log (trace w))
    by (rewrite <- (log_erase (trace w')), <- H6; apply log_erase).
  repeat split; auto.
  - unfold senderError. now rewrite !send_errors_log, Hl.
  - unfold receiverError. now rewrite !recv_errors_log, Hl.
  - now rewrite !sink_log, Hl.
Qed.

(** The half-close fails on the echoing transport: the error is in the
    trace, the function returns all the same, and the log is the log of
    the run in which the half-close succeeds. *)
Example closeSend_failure_unreported :
  In (EvCloseSend (Some connReset))
    (trace (run mainNames transportCloseFails
              (repeat TMain 8 ++ repeat TRecv 8 ++ repeat TMain 2)
              (init transportCloseFails))) /\
  main_pc (run mainNames transportCloseFails
             (repeat TMain 8 ++ repeat TRecv 8 ++ repeat TMain 2)
             (init transportCloseFails)) = MReturned /\
  log (trace (run mainNames transportCloseFails
                (repeat TMain 8 ++ repeat TRecv 8 ++ repeat TMain 2)
                (init transportCloseFails))) =
  [LogStarted; LogMessage (echo "Aman"); LogMessage (echo "Aryan");
   LogMessage (echo "Satvik"); LogFinished].
Proof.
  split; [|split; reflexivity].
  cbn. intuition.
Qed.

(** * Further properties of the bidirectional call *)

Lemma sleeps_app a b : sleeps (a ++ b) = sleeps a + sleeps b.
Proof. unfold sleeps. now rewrite flat_map_app, length_app. Qed.

Lemma send_count_by_pc names T w :
  Inv names T w ->
  match main_pc w with
  | MStart => send_count (trace w) = 0
  | MLoop i => send_count (trace w) = i
  | MSleep i => send_count (trace w) = S i
  | MWait | MFinish | MReturned =>
      send_count (trace w) = length (pb.Names names)
  | MFatal _ | MExiting | MExit => True
  end.
Proof.
  intros (Hm & _). unfold main_inv in Hm. unfold send_count.
  destruct (main_pc w); auto.
  - destruct Hm as [-> _]. reflexivity.
  - destruct Hm as (_ & Hi & _ & -> & _).
    rewrite filter_send_sent_ok, length_sent_ok, length_firstn. lia.
  - destruct Hm as (_ & Hi & _ & -> & _).
    rewrite filter_send_sent_ok, length_sent_ok, length_firstn. lia.
  - destruct Hm as (_ & _ & -> & _).
    destruct (count_full (requests names) (closeSendResult T)) as [-> _].
    apply length_requests.
  - destruct Hm as (_ & _ & -> & _).
    destruct (count_full (requests names) (closeSendResult T)) as [-> _].
    apply length_requests.
  - destruct Hm as (_ & _ & -> & _).
    destruct (count_full (requests names) (closeSendResult T)) as [-> _].
    apply length_requests.
Qed.

Ltac proj2 :=
  rewrite ?sleeps_app, ?send_count_app, ?log_app, ?sink_app,
    ?send_errors_app, ?recv_errors_app in *;
  cbn [sleeps send_count stream_calls log sink send_errors recv_errors
       filter is_send flat_map app length map] in *;
  rewrite ?app_nil_r, ?Nat.add_0_r in *.

Lemma step_sleeps_inv names T t w w' :
  Inv names T w -> sleeps_inv names w -> step names T t w = Some w' ->
  sleeps_inv names w'.
Proof.
  intros HI Hsl. unfold step.
  destruct w as [st mp rp wc pd tr]; cbn [status].
  destruct st; try discriminate.
  destruct HI as (Hm & _).
  unfold sleeps_inv, main_inv, step_main, step_recv in *;
    cbn [status main_pc recv_pc waitc pending trace] in *.
  destruct t.
  - destruct mp; try discriminate.
    + destruct (openResult T); intros H; inversion H; subst; clear H;
        cbn [main_pc trace]; proj2; lia.
    + destruct Hm as (_ & Hi & _).
      destruct (nth_error (pb.Names names) i) eqn:Hn;
        [destruct (sendResult T i _)|]; intros H; inversion H; subst; clear H;
        cbn [main_pc trace]; proj2; try lia.
      apply nth_error_None in Hn. rewrite length_requests in Hi. lia.
    + intros H; inversion H; subst; clear H; cbn [main_pc trace]; proj2; lia.
    + destruct (chan_recv wc); intros H; inversion H; subst; clear H;
        cbn [main_pc trace]; proj2; lia.
    + intros H; inversion H; subst; clear H; cbn [main_pc trace]; proj2; lia.
    + intros H; inversion H; subst; clear H; cbn [main_pc trace]; proj2; lia.
    + intros H; inversion H; subst; clear H; cbn [main_pc trace]; proj2; lia.
  - destruct rp; try discriminate.
    + destruct pd as [|[m| |e] pd']; intros H; inversion H; subst; clear H;
        cbn [main_pc trace]; proj2; destruct mp; lia.
    + intros H; inversion H; subst; clear H; cbn [main_pc trace]; proj2;
        destruct mp; lia.
    + destruct (chan_close wc); intros H; inversion H; subst; clear H;
        cbn [main_pc trace]; proj2; destruct mp; lia.
    + intros H; inversion H; subst; clear H; cbn [main_pc trace]; proj2;
        destruct mp; lia.
    + intros H; inversion H; subst; clear H; cbn [main_pc trace]; proj2;
        destruct mp; lia.
Qed.

Lemma run_sleeps_inv names T sched :
  sleeps_inv names (run names T sched (init T)).
Proof.
  assert (H : forall w, Inv names T w -> sleeps_inv names w ->
                        sleeps_inv names (run names T sched w)).
  { induction sched as [|t s IH]; intros w HI Hs; simpl; auto.
    destruct (step names T t w) eqn:Hst; auto.
    apply IH; eauto using step_Inv, step_sleeps_inv. }
  apply H; [apply Inv_init | split; reflexivity].
Qed.

Lemma other_lines_app a b :
  other_lines (a ++ b) = other_lines a ++ other_lines b.
Proof. unfold other_lines. now rewrite log_app, filter_app. Qed.

Lemma other_lines_all tr : send_errors tr = [] -> other_lines tr = log tr.
Proof.
  unfold other_lines. rewrite send_errors_log.
  induction (log tr) as [|l ls IH]; simpl; auto.
  destruct l; simpl; intros H; try discriminate; now rewrite IH.
Qed.

Ltac proj3 :=
  rewrite ?other_lines_app, ?log_app, ?sink_app, ?send_errors_app,
    ?recv_errors_app in *;
  cbn [other_lines log sink send_errors recv_errors filter is_send_fatal negb
       flat_map app map] in *;
  rewrite ?app_nil_r in *.

Lemma step_log_inv names T t w w' :
  Inv names T w -> log_inv T w -> step names T t w = Some w' ->
  log_inv T w'.
Proof.
  intros HI Hl. unfold step.
  destruct w as [st mp rp wc pd tr]; cbn [status].
  destruct st; try discriminate.
  destruct HI as (Hm & (_ & Hr) & (_ & Hc) & (Hs & _) & _).
  unfold log_inv, main_last, main_inv, recv_inv, chan_inv, status_inv,
    past_wait, main_exited, recv_exited, step_main, step_recv in *;
    cbn [status main_pc recv_pc waitc pending trace] in *.
  destruct t.
  - destruct mp; try discriminate.
    + destruct Hm as [-> ->].
      destruct (openResult T) eqn:Ho; intros H; inversion H; subst; clear H;
        cbn [main_pc recv_pc trace]; rewrite ?Ho; reflexivity.
    + destruct (nth_error (pb.Names names) i);
        [destruct (sendResult T i _)|]; intros H; inversion H; subst; clear H;
        cbn [main_pc recv_pc trace]; proj3; exact Hl.
    + intros H; inversion H; subst; clear H;
        cbn [main_pc recv_pc trace]; proj3; exact Hl.
    + destruct (chan_recv wc); intros H; inversion H; subst; clear H;
        cbn [main_pc recv_pc trace]; proj3; exact Hl.
    + intros H; inversion H; subst; clear H;
        cbn [main_pc recv_pc trace]; proj3. rewrite Hl.
      cbn [app]. now rewrite <- !app_assoc.
    + intros H; inversion H; subst; clear H;
        cbn [main_pc recv_pc trace]; proj3. exact Hl.
    + destruct Hm as (i & name & e & Ho & _).
      intros H; inversion H; subst; clear H;
        cbn [main_pc recv_pc trace]; proj3. rewrite Ho, app_nil_r. exact Hl.
  - assert (Hlast : forall m,
               rp = RPrint m \/ (exists e, rp = RFatal e) ->
               mp <> MStart /\ mp <> MReturned /\ mp <> MExit).
    { intros m Hrp. repeat split; intros ->; cbn in *.
      - destruct Hm as [_ ->]. destruct Hrp as [H|[e H]]; discriminate.
      - destruct Hc as [-> _]. destruct Hrp as [H|[e H]]; discriminate.
      - discriminate. }
    destruct rp; try discriminate.
    + destruct pd as [|[m| |e] pd']; intros H; inversion H; subst; clear H;
        cbn [main_pc recv_pc trace]; proj3; exact Hl.
    + destruct Hr as [_ Hre].
      destruct (Hlast m (or_introl eq_refl)) as (H1 & H2 & H3).
      intros H; inversion H; subst; clear H;
        cbn [main_pc recv_pc trace]; proj3.
      rewrite Hre in *. cbn [map app] in *.
      destruct mp; try congruence; rewrite Hl, map_app, ?app_nil_r;
        reflexivity.
    + destruct (chan_close wc); intros H; inversion H; subst; clear H;
        cbn [main_pc recv_pc trace]; proj3; exact Hl.
    + destruct Hr as [_ Hre].
      destruct (Hlast (pb.mkHelloResponse "") (or_intror (ex_intro _ e eq_refl)))
        as (H1 & H2 & H3).
      intros H; inversion H; subst; clear H;
        cbn [main_pc recv_pc trace]; proj3.
      rewrite Hre in *. cbn [map app] in *.
      destruct mp; try congruence; rewrite Hl, ?app_nil_r; reflexivity.
    + intros H; inversion H; subst; clear H;
        cbn [main_pc recv_pc trace]; proj3; exact Hl.
Qed.

Lemma run_log_inv names T sched : log_inv T (run names T sched (init T)).
Proof.
  assert (H : forall w, Inv names T w -> log_inv T w ->
                        log_inv T (run names T sched w)).
  { induction sched as [|t s IH]; intros w HI Hs; simpl; auto.
    destruct (step names T t w) eqn:Hst; auto.
    apply IH; eauto using step_Inv, step_log_inv. }
  apply H; [apply Inv_init | reflexivity].
Qed.

Lemma status_by_pc names T w :
  Inv names T w ->
  (status w = Running /\ main_pc w <> MExit /\ recv_pc w <> RExit) \/
  (status w = Exited 1 /\ main_pc w = MExit /\ recv_pc w <> RExit) \/
  (status w = Exited 1 /\ main_pc w <> MExit /\ recv_pc w = RExit).
Proof.
  intros (_ & _ & _ & (Hs & Hx) & _). rewrite Hs.
  unfold main_exited, recv_exited in *.
  destruct (main_pc w), (recv_pc w); cbn in *; try discriminate;
    intuition congruence.
Qed.

(** ** The stream that cannot be opened *)

(** When opening the stream fails the caller logs the error and the
    process exits with status 1: nothing is sent, nothing is received and
    the receiver goroutine is never started. *)
Theorem open_failure_exits_before_streaming names T e sched :
  openResult T = Some e ->
  let w := run names T sched (init T) in
  stream_calls (trace w) = [] /\ received (trace w) = [] /\
  recv_pc w = RIdle /\
  ((main_pc w = MStart /\ trace w = []) \/
   (main_pc w = MExit /\ status w = Exited 1 /\
    log (trace w) = [LogStarted; LogCouldNotSend e])).
Proof.
  intros Ho w.
  assert (HI : Inv names T w) by apply run_Inv.
  pose proof (run_log_inv names T sched) as Hl. fold w in Hl.
  pose proof (status_by_pc _ _ _ HI) as Hst.
  destruct HI as (Hm & (_ & Hr) & _).
  unfold main_inv, log_inv, main_last in *.
  destruct (main_pc w) eqn:Hpc;
    try (destruct Hm as (Hn & _); congruence);
    try (destruct Hm as (? & ? & Hn & _); congruence);
    try (destruct Hm as (? & ? & ? & Hn & _); congruence).
  - destruct Hm as [Ht Hrp]. rewrite Ht. repeat split; auto.
  - destruct Hm as [(_ & Hcs & Hse & Hrp)|(i & name & e' & Hn & _)];
      [|congruence].
    rewrite Hrp in Hr. destruct Hr as (Hrc & Hsk & Hre).
    repeat split; auto. right. repeat split; auto.
    + destruct Hst as [(_ & H & _)|[(H & _)|(_ & H & _)]]; congruence.
    + rewrite <- (other_lines_all _ Hse), Hl, Hsk, Hre, Ho. reflexivity.
Qed.

Lemma open_failure_exits_before_streaming_witness :
  log (trace (run mainNames transportOpenFails [TRecv; TMain; TRecv; TMain]
                (init transportOpenFails))) =
  [LogStarted; LogCouldNotSend connReset] /\
  stream_calls
    (trace (run mainNames transportOpenFails [TRecv; TMain; TRecv; TMain]
              (init transportOpenFails))) = [].
Proof.
  pose proof (open_failure_exits_before_streaming mainNames transportOpenFails
                connReset [TRecv; TMain; TRecv; TMain] eq_refl) as H.
  cbv zeta in H. destruct H as (H1 & _ & _ & [[H2 _]|(_ & _ & H3)]).
  - discriminate H2.
  - split; [exact H3 | exact H1].
Defined.

(** ** What a returned call guarantees *)

Lemma sends_ok_below_all names T :
  sends_ok_below names T (length (requests names)) -> sends_ok names T.
Proof.
  intros H i name Hn. apply H; auto.
  rewrite length_requests. apply nth_error_Some. congruence.
Qed.

(** The function returns only from a clean run: the stream was opened,
    every name was sent and accepted, the half-close was issued, the peer
    ended the stream, every message read was logged, and no error line
    was written. *)
Theorem return_means_clean_run names T sched :
  let w := run names T sched (init T) in
  main_pc w = MReturned ->
  openResult T = None /\ sends_ok names T /\
  stream_calls (trace w) =
  sent_ok (requests names) ++ [CallCloseSend (closeSendResult T)] /\
  received (trace w) = map RecvMsg (sink (trace w)) ++ [RecvEOF] /\
  status w = Running /\
  senderError (trace w) = None /\ receiverError (trace w) = None /\
  log (trace w) =
  LogStarted :: map LogMessage (sink (trace w)) ++ [LogFinished].
Proof.
  intros w Hpc.
  assert (HI : Inv names T w) by apply run_Inv.
  pose proof (run_log_inv names T sched) as Hl. fold w in Hl.
  unfold log_inv, main_last in Hl. rewrite Hpc in Hl.
  pose proof HI as (Hm & (_ & Hr) & (_ & Hw) & _).
  unfold main_inv in Hm. unfold past_wait in Hw. rewrite Hpc in Hm, Hw.
  destruct Hm as (Ho & Hok & Hcs & Hse). destruct Hw as [Hd _].
  rewrite Hd in Hr. destruct Hr as [Hrc Hre].
  rewrite (other_lines_all _ Hse), Hre in Hl.
  repeat split; auto.
  - now apply sends_ok_below_all.
  - apply (status_running names T); auto; congruence.
  - unfold senderError. now rewrite Hse.
  - unfold receiverError. now rewrite Hre.
Qed.

Lemma return_means_clean_run_witness :
  log (trace (run mainNames transportA (repeat TMain 8 ++ repeat TRecv 8
                                          ++ repeat TMain 2)
                (init transportA))) =
  [LogStarted; LogMessage (echo "Aman"); LogMessage (echo "Aryan");
   LogMessage (echo "Satvik"); LogFinished].
Proof.
  pose proof (return_means_clean_run mainNames transportA
                (repeat TMain 8 ++ repeat TRecv 8 ++ repeat TMain 2)
                eq_refl) as (_ & _ & _ & _ & _ & _ & _ & H).
  exact H.
Defined.

(** ** The fatal lines of the log *)

Lemma not_in_messages l (s : list pb.HelloResponse) :
  (forall m, l <> LogMessage m) -> ~ In l (map LogMessage s).
Proof.
  intros H Hin. apply in_map_iff in Hin. destruct Hin as (m & Hm & _).
  eapply H; eauto.
Qed.

(** A line of the caller other than its send-failure line is in the log
    exactly when it is the caller's last line. *)
Lemma main_last_in_log names T sched l :
  let w := run names T sched (init T) in
  is_send_fatal l = false -> l <> LogStarted ->
  (forall m, l <> LogMessage m) -> (forall e, l <> LogErrStreaming e) ->
  (In l (log (trace w)) <-> In l (main_last T w)).
Proof.
  intros w Hf Hs Hm He.
  pose proof (run_log_inv names T sched) as Hl. fold w in Hl.
  assert (Ho : In l (log (trace w)) <-> In l (other_lines (trace w))).
  { unfold other_lines. rewrite filter_In, Hf. cbn. tauto. }
  rewrite Ho. unfold log_inv in Hl.
  assert (Hin : forall tl,
             In l (LogStarted :: map LogMessage (sink (trace w)) ++
                   map LogErrStreaming (recv_errors (trace w)) ++ tl) <->
             In l tl).
  { intros tl. split.
    - intros [H|H]; [congruence|].
      apply in_app_iff in H. destruct H as [H|H];
        [now apply not_in_messages in H|].
      apply in_app_iff in H. destruct H as [H|H]; auto.
      apply in_map_iff in H. destruct H as (e & H & _).
      symmetry in H. now apply He in H.
    - intros H. right. apply in_app_iff. right. apply in_app_iff. now right. }
  destruct (main_pc w) eqn:Hpc; try (rewrite Hl; apply Hin).
  unfold other_lines, main_last. rewrite Hl, Hpc. reflexivity.
Qed.

(** Which fatal lines a run has logged is read off the program points.
    The process is alive or has exited with status 1.  Each goroutine
    writes at most one fatal line: the caller's send-failure line is in
    the log exactly when the caller stands between that line and
    [os.Exit] or has exited after a send failure, the receiver's exactly
    when the receiver stands between its line and [os.Exit] or has exited,
    and the open-failure line exactly when the caller exited on a failed
    open.  Apart from the caller's send-failure line, which may fall
    anywhere after the first line, the log is the first line, the message
    lines in order, the receiver's fatal line if there is one, and the
    caller's last line if there is one.  A dead process has logged the
    fatal line of the goroutine that called [os.Exit]. *)
Theorem fatal_lines_by_program_point names T sched :
  let w := run names T sched (init T) in
  (status w = Running \/ status w = Exited 1) /\
  length (send_errors (trace w)) <= 1 /\
  length (recv_errors (trace w)) <= 1 /\
  (senderError (trace w) <> None <->
   main_pc w = MExiting \/ (main_pc w = MExit /\ openResult T = None)) /\
  (receiverError (trace w) <> None <->
   recv_pc w = RExiting \/ recv_pc w = RExit) /\
  (forall e, In (LogCouldNotSend e) (log (trace w)) <->
             main_pc w = MExit /\ openResult T = Some e) /\
  (main_pc w <> MStart ->
   other_lines (trace w) =
   LogStarted :: map LogMessage (sink (trace w)) ++
   map LogErrStreaming (recv_errors (trace w)) ++ main_last T w) /\
  (status w = Exited 1 ->
   (main_pc w = MExit /\
    (openResult T <> None \/ exists e, senderError (trace w) = Some e)) \/
   (recv_pc w = RExit /\ exists e, receiverError (trace w) = Some e)).
Proof.
  intros w.
  assert (HI : Inv names T w) by apply run_Inv.
  pose proof (run_log_inv names T sched) as Hl. fold w in Hl.
  pose proof HI as (Hm & (_ & Hr) & _ & (Hs & _) & _).
  split; [rewrite Hs; destruct (main_exited w || recv_exited w); auto|].
  assert (Hse : (send_errors (trace w) = [] /\
                 ~ (main_pc w = MExiting \/
                    (main_pc w = MExit /\ openResult T = None))) \/
                (exists e, send_errors (trace w) = [e] /\
                           (main_pc w = MExiting \/
                            (main_pc w = MExit /\ openResult T = None)))).
  { unfold main_inv in Hm. destruct (main_pc w) eqn:Hpc.
    - destruct Hm as [-> _]. left. split; auto. intuition discriminate.
    - destruct Hm as (_ & _ & _ & _ & ->). left. split; auto.
      intuition discriminate.
    - destruct Hm as (_ & _ & _ & _ & ->). left. split; auto.
      intuition discriminate.
    - destruct Hm as (_ & _ & _ & ->). left. split; auto.
      intuition discriminate.
    - destruct Hm as (_ & _ & _ & ->). left. split; auto.
      intuition discriminate.
    - destruct Hm as (_ & _ & _ & ->). left. split; auto.
      intuition discriminate.
    - destruct Hm as (i & name & _ & _ & _ & _ & _ & ->). left. split; auto.
      intuition discriminate.
    - destruct Hm as (i & name & e & _ & _ & _ & _ & _ & ->). right. eauto.
    - destruct Hm as [(Ho & _ & -> & _)|(i & name & e & Ho & _ & _ & _ & _ & ->)].
      + left. split; auto. intuition discriminate.
      + right. eauto. }
  assert (Hre : (recv_errors (trace w) = [] /\
                 ~ (recv_pc w = RExiting \/ recv_pc w = RExit)) \/
                (exists e, recv_errors (trace w) = [e] /\
                           (recv_pc w = RExiting \/ recv_pc w = RExit))).
  { destruct (recv_pc w) eqn:Hpc;
      try (left; split; [tauto | intuition discriminate]);
      right; destruct Hr as (e & _ & ->); eauto. }
  split; [destruct Hse as [[-> _]|(e & -> & _)]; cbn; lia|].
  split; [destruct Hre as [[-> _]|(e & -> & _)]; cbn; lia|].
  split; [unfold senderError;
          destruct Hse as [[-> Hn]|(e & -> & Hy)]; cbn;
          split; intros H; try tauto; try discriminate; congruence|].
  split; [unfold receiverError;
          destruct Hre as [[-> Hn]|(e & -> & Hy)]; cbn;
          split; intros H; try tauto; try discriminate; congruence|].
  split.
  - intros e.
    pose proof (main_last_in_log names T sched (LogCouldNotSend e)) as Hml.
    cbv zeta in Hml. fold w in Hml.
    rewrite Hml; try discriminate; auto.
    unfold main_last.
    destruct (main_pc w); cbn; try (split; [tauto | intros [H _]; discriminate]).
    + split; [intros [H|[]]; discriminate | intros [H _]; discriminate].
    + destruct (openResult T) as [e0|]; cbn.
      * split; [intros [H|[]]; inversion H; auto
               | intros [_ H]; inversion H; auto].
      * split; [tauto | intros [_ H]; discriminate].
  - split.
    + intros Hne. unfold log_inv in Hl.
      destruct (main_pc w); auto; congruence.
    + intros Hst. now apply (exit_is_reported names T).
Qed.

(** "Bidirectional streaming finished" is in the log exactly when the
    function has returned, and then it is the last line, after every
    message line. *)
Theorem finished_line_iff_returned names T sched :
  let w := run names T sched (init T) in
  (In LogFinished (log (trace w)) <-> main_pc w = MReturned) /\
  (main_pc w = MReturned ->
   log (trace w) =
   LogStarted :: map LogMessage (sink (trace w)) ++ [LogFinished]).
Proof.
  intros w. split.
  - pose proof (main_last_in_log names T sched LogFinished) as Hml.
    cbv zeta in Hml. fold w in Hml.
    rewrite Hml; try discriminate; auto.
    unfold main_last.
    destruct (main_pc w); cbn; try (split; [tauto | discriminate]).
    + tauto.
    + destruct (openResult T); cbn; split; try discriminate; try tauto.
      intros [H|[]]; discriminate.
  - intros Hpc.
    assert (HI : Inv names T w) by apply run_Inv.
    pose proof (run_log_inv names T sched) as Hl. fold w in Hl.
    unfold log_inv, main_last in Hl. rewrite Hpc in Hl.
    pose proof HI as (Hm & (_ & Hr) & (_ & Hw) & _).
    unfold main_inv in Hm. unfold past_wait in Hw. rewrite Hpc in Hm, Hw.
    destruct Hm as (_ & _ & _ & Hse). destruct Hw as [Hd _].
    rewrite Hd in Hr. destruct Hr as [_ Hre].
    now rewrite (other_lines_all _ Hse), Hre in Hl.
Qed.

(** ** Pacing *)

(** The caller sleeps once after every accepted send, the last one
    included, and never after a failed one: the sleeps are the accepted
    sends less the one whose sleep is still to come, the half-close is
    issued only after as many sleeps as there are names, and a run whose
    send [k] failed has slept [k] times. *)
Theorem one_sleep_per_accepted_send names T sched :
  let w := run names T sched (init T) in
  sleeps (trace w) <= send_count (trace w) /\
  send_count (trace w) <= S (sleeps (trace w)) /\
  (sender_finished w = true -> sleeps (trace w) = length (pb.Names names)) /\
  (closeSend_count (trace w) = 1 ->
   sleeps (trace w) = length (pb.Names names)) /\
  (forall k e, nth_error (send_results (trace w)) k = Some (Some e) ->
               sleeps (trace w) = k).
Proof.
  intros w.
  assert (HI : Inv names T w) by apply run_Inv.
  pose proof (run_sleeps_inv names T sched) as Hs. fold w in Hs.
  unfold sleeps_inv, sender_finished in *.
  split; [destruct (main_pc w); lia|].
  split; [destruct (main_pc w); lia|].
  split; [destruct (main_pc w); try discriminate; intros _; tauto|].
  split.
  - intros Hc. pose proof HI as (Hm & _). unfold main_inv in Hm.
    unfold closeSend_count in Hc.
    destruct (main_pc w); try tauto; exfalso.
    + destruct Hm as [Ht _]. rewrite Ht in Hc. discriminate.
    + destruct Hm as (_ & _ & _ & Hcs & _).
      rewrite Hcs, filter_closeSend_sent_ok in Hc. discriminate.
    + destruct Hm as (_ & _ & _ & Hcs & _).
      rewrite Hcs, filter_closeSend_sent_ok in Hc. discriminate.
    + destruct Hm as (i & name & _ & _ & _ & _ & Hcs & _).
      rewrite Hcs, ?filter_app, ?filter_closeSend_sent_ok in Hc.
      discriminate.
    + destruct Hm as (i & name & e & _ & _ & _ & _ & Hcs & _).
      rewrite Hcs, ?filter_app, ?filter_closeSend_sent_ok in Hc.
      discriminate.
    + destruct Hm as [(_ & Hcs & _)|(i & name & e & _ & _ & _ & _ & Hcs & _)];
        rewrite Hcs, ?filter_app, ?filter_closeSend_sent_ok in Hc;
        discriminate.
  - intros k e Hk.
    destruct (failed_send_counts _ _ _ _ _ HI Hk) as (Hsc & _).
    destruct (failed_send_inv _ _ _ _ _ HI Hk) as (Hpc & _).
    destruct Hpc as [Hpc|[Hpc|Hpc]]; rewrite Hpc in Hs; lia.
Qed.

(** ** Where a live process can come to rest *)

(** A live process in which neither goroutine can move has either
    returned from the function or hangs at [<-waitc] with every name sent
    and the half-close issued, the receiver blocked in [Recv]: and then
    the peer has sent nothing but messages, all of them logged, and has
    never ended its direction. *)
Theorem live_rest_is_return_or_hang names T sched :
  let w := run names T sched (init T) in
  stuck names T w -> status w = Running ->
  main_pc w = MReturned \/
  (main_pc w = MWait /\ recv_pc w = RLoop /\
   inbound T = map RecvMsg (sink (trace w)) /\
   stream_calls (trace w) =
   sent_ok (requests names) ++ [CallCloseSend (closeSendResult T)]).
Proof.
  intros w [Hbm Hbr] Hrun.
  assert (HI : Inv names T w) by apply run_Inv.
  destruct (main_blocked _ _ _ Hrun Hbm) as [[Hpc Hwc]|[Hpc|Hpc]]; auto.
  - right. split; auto.
    destruct (fired_by_pc _ _ _ HI) as (Hd & _).
    destruct (recv_blocked _ _ _ Hrun Hbr) as [Hr|[[Hr Hpd]|[Hr|Hr]]].
    + destruct HI as (_ & _ & _ & _ & Hsp). destruct (Hsp Hr); congruence.
    + split; auto.
      pose proof HI as (Hm & (Hp & Hri) & _).
      rewrite Hr in Hri. destruct Hri as [Hrc _].
      rewrite Hpd, app_nil_r, Hrc in Hp. split; auto.
      apply calls_finished; auto. unfold sender_finished. now rewrite Hpc.
    + destruct (Hd Hr) as [Hc _]. congruence.
    + destruct (status_by_pc _ _ _ HI) as [(_ & _ & H)|[(H & _)|(H & _)]];
        congruence.
  - destruct (status_by_pc _ _ _ HI) as [(_ & H & _)|[(H & _)|(H & _)]];
      congruence.
Qed.

Lemma live_rest_is_return_or_hang_witness :
  inbound transportC =
  map RecvMsg
    (sink (trace (run mainNames transportC (repeat TMain 8 ++ repeat TRecv 6)
                    (init transportC)))).
Proof.
  pose proof (live_rest_is_return_or_hang mainNames transportC
                (repeat TMain 8 ++ repeat TRecv 6)) as H.
  cbv zeta in H.
  destruct H as [H|(_ & _ & H & _)];
    [split; reflexivity | reflexivity | discriminate H | exact H].
Defined.

(** ** The discipline of [Recv] *)

Lemma left_loop_step names T t w w' :
  Inv names T w -> left_loop w = true ->
  step names T t w = Some w' ->
  received (trace w') = received (trace w) /\ left_loop w' = true.
Proof.
  intros HI Hrp. unfold step.
  destruct w as [st mp rp wc pd tr]; cbn [status].
  destruct st; try discriminate.
  destruct HI as (Hm & _).
  unfold main_inv, step_main, step_recv, left_loop in *;
    cbn [status main_pc recv_pc waitc pending trace] in *.
  destruct t.
  - destruct mp; try discriminate.
    + destruct Hm as [_ ->]. discriminate.
    + destruct (nth_error (pb.Names names) i);
        [destruct (sendResult T i _)|]; intros H; inversion H; subst; clear H;
        cbn [recv_pc trace]; rewrite received_app; cbn;
        rewrite app_nil_r; auto.
    + intros H; inversion H; subst; clear H;
        cbn [recv_pc trace]; rewrite received_app; cbn;
        rewrite app_nil_r; auto.
    + destruct (chan_recv wc); intros H; inversion H; subst; clear H;
        cbn [recv_pc trace]; rewrite received_app; cbn;
        rewrite app_nil_r; auto.
    + intros H; inversion H; subst; clear H;
        cbn [recv_pc trace]; rewrite received_app; cbn;
        rewrite app_nil_r; auto.
    + intros H; inversion H; subst; clear H;
        cbn [recv_pc trace]; rewrite received_app; cbn;
        rewrite app_nil_r; auto.
    + intros H; inversion H; subst; clear H;
        cbn [recv_pc trace]; rewrite received_app; cbn;
        rewrite app_nil_r; auto.
  - destruct rp; try discriminate.
    + destruct (chan_close wc); intros H; inversion H; subst; clear H;
        cbn [recv_pc trace]; rewrite received_app; cbn;
        rewrite app_nil_r; auto.
    + intros H; inversion H; subst; clear H;
        cbn [recv_pc trace]; rewrite received_app; cbn;
        rewrite app_nil_r; auto.
    + intros H; inversion H; subst; clear H;
        cbn [recv_pc trace]; rewrite received_app; cbn;
        rewrite app_nil_r; auto.
Qed.

Lemma left_loop_run names T more :
  forall w,
    Inv names T w -> left_loop w = true ->
    received (trace (run names T more w)) = received (trace w).
Proof.
  induction more as [|t more IH]; intros w HI Hrp; simpl; auto.
  destruct (step names T t w) as [w1|] eqn:Hs; auto.
  destruct (left_loop_step _ _ _ _ _ HI Hrp Hs) as [Hrc Hrp1].
  rewrite IH; eauto using step_Inv.
Qed.

(** [Recv] results are consumed in the transport's order with none
    skipped; every message read is logged before the next [Recv], so at
    most one result is ever in flight; and once [Recv] has returned
    [io.EOF] or an error it is never called again. *)
Theorem recv_in_order_and_stops_at_end names T sched :
  let w := run names T sched (init T) in
  inbound T = received (trace w) ++ pending w /\
  (exists tail,
      received (trace w) = map RecvMsg (sink (trace w)) ++ tail /\
      length tail <= 1) /\
  (forall x, (forall m, x <> RecvMsg m) -> In x (received (trace w)) ->
             forall more,
               received (trace (run names T (sched ++ more) (init T))) =
               received (trace w)).
Proof.
  intros w.
  assert (HI : Inv names T w) by apply run_Inv.
  pose proof HI as (_ & (Hp & Hr) & _).
  split; auto. split.
  - destruct (recv_pc w).
    + destruct Hr as (-> & -> & _). exists []. auto.
    + destruct Hr as (-> & _). exists []. rewrite app_nil_r. auto.
    + destruct Hr as (-> & _). exists [RecvMsg m].
      rewrite map_app. auto.
    + destruct Hr as (-> & _). exists [RecvEOF]. auto.
    + destruct Hr as (-> & _). exists [RecvEOF]. auto.
    + destruct Hr as (-> & _). exists [RecvErr e]. auto.
    + destruct Hr as (e & -> & _). exists [RecvErr e]. auto.
    + destruct Hr as (e & -> & _). exists [RecvErr e]. auto.
  - intros x Hx Hin more. rewrite run_app. fold w.
    apply left_loop_run; auto.
    assert (Hnm : forall s, ~ In x (map RecvMsg s)).
    { intros s Hs. apply in_map_iff in Hs. destruct Hs as (m & Hm & _).
      eapply Hx; eauto. }
    unfold left_loop. destruct (recv_pc w); auto; exfalso.
    + destruct Hr as (Hrc & _). rewrite Hrc in Hin. contradiction.
    + destruct Hr as (Hrc & _). rewrite Hrc in Hin. eapply Hnm; eauto.
    + destruct Hr as (Hrc & _). rewrite Hrc in Hin. eapply Hnm; eauto.
Qed.

(** ** The empty list of names *)

(** With no names the caller sends nothing: its only call on the send
    side is the half-close, and it still waits for the peer to end the
    stream. *)
Theorem empty_names_only_half_closes names T sched :
  pb.Names names = [] -> openResult T = None ->
  let w := run names T sched (init T) in
  send_count (trace w) = 0 /\ sleeps (trace w) = 0 /\
  senderError (trace w) = None /\
  (stream_calls (trace w) = [] \/
   stream_calls (trace w) = [CallCloseSend (closeSendResult T)]) /\
  (past_wait w = true -> In RecvEOF (received (trace w))).
Proof.
  intros Hn Ho w.
  assert (HI : Inv names T w) by apply run_Inv.
  assert (Hok : sends_ok names T).
  { intros i name H. rewrite Hn in H. destruct i; discriminate. }
  destruct (main_never_fatal _ _ _ HI Ho Hok) as (Hnf & Hnx & Hne).
  assert (Hnf' : match main_pc w with MFatal _ => False | _ => True end)
    by (destruct (main_pc w); auto; eapply Hnf; reflexivity).
  pose proof (run_sleeps_inv names T sched) as Hs. fold w in Hs.
  pose proof (send_count_by_pc _ _ _ HI) as Hc.
  assert (Hreq : requests names = []) by (unfold requests; now rewrite Hn).
  pose proof HI as (Hm & (_ & Hr) & (_ & Hw) & _).
  unfold sleeps_inv, main_inv in *. rewrite Hreq, ?Hn in *. cbn in *.
  split; [destruct (main_pc w); try congruence; try tauto;
          destruct Hm as (_ & Hi & _); lia|].
  split; [destruct (main_pc w); try congruence; try tauto;
          destruct Hm as (_ & Hi & _); lia|].
  split; [now apply (no_send_error names T)|].
  split.
  - destruct (main_pc w); try congruence.
    + destruct Hm as [-> _]. auto.
    + destruct Hm as (_ & _ & _ & -> & _). rewrite firstn_nil. auto.
    + destruct Hm as (_ & Hi & _). lia.
    + destruct Hm as (_ & _ & -> & _). auto.
    + destruct Hm as (_ & _ & -> & _). auto.
    + destruct Hm as (_ & _ & -> & _). auto.
  - intros Hpw. rewrite Hpw in Hw. destruct Hw as [Hd _].
    rewrite Hd in Hr. destruct Hr as [-> _].
    apply in_app_iff. right. left. reflexivity.
Qed.

Lemma empty_names_only_half_closes_witness :
  stream_calls
    (trace (run (pb.mkNamesList []) transportA (repeat TMain 3)
              (init transportA))) = [CallCloseSend None].
Proof.
  pose proof (empty_names_only_half_closes (pb.mkNamesList []) transportA
                (repeat TMain 3) eq_refl eq_refl) as H.
  cbv zeta in H. destruct H as (_ & _ & _ & [H|H] & _).
  - discriminate H.
  - exact H.
Defined.

(** * The client-streaming call *)

Section ClientStreamFacts.

Context {Messages : Type}.
Variable T : stream_transport Messages.

(** What the loop does for one accepted name. *)
Let per_name (name : string) : list (cs_event Messages) :=
  [CsEvSend (pb.mkHelloRequest name) None; CsEvLog (CsLogSent name);
   CsEvSleep].

Lemma cs_loop_ok rest : forall i,
  (forall j name, nth_error rest j = Some name ->
                  csSendResult T (i + j) (pb.mkHelloRequest name) = None) ->
  cs_send_loop T i rest = (flat_map per_name rest, None).
Proof.
  induction rest as [|name rest IH]; intros i Hok; simpl; auto.
  pose proof (Hok 0 name eq_refl) as H0. rewrite Nat.add_0_r in H0.
  rewrite H0, IH; auto.
  intros j n Hj. replace (S i + j) with (i + S j) by lia.
  now apply (Hok (S j)).
Qed.

Lemma cs_loop_fail a name b e : forall i,
  (forall j n, nth_error a j = Some n ->
               csSendResult T (i + j) (pb.mkHelloRequest n) = None) ->
  csSendResult T (i + length a) (pb.mkHelloRequest name) = Some e ->
  cs_send_loop T i (a ++ name :: b) =
  (flat_map per_name a ++
   [CsEvSend (pb.mkHelloRequest name) (Some e); CsEvLog (CsLogErrSending e);
    CsEvExit 1], Some e).
Proof.
  induction a as [|x a IH]; intros i Hok He; simpl in *.
  - rewrite Nat.add_0_r in He. now rewrite He.
  - pose proof (Hok 0 x eq_refl) as H0. rewrite Nat.add_0_r in H0.
    rewrite H0, IH; auto.
    + intros j n Hj. replace (S i + j) with (i + S j) by lia.
      now apply (Hok (S j)).
    + replace (S i + length a) with (i + S (length a)) by lia. exact He.
Qed.

Lemma cs_calls_per_name l :
  cs_calls (flat_map per_name l) =
  map (fun name => CsCallSend (pb.mkHelloRequest name) None) l.
Proof. induction l as [|x l IH]; simpl; auto. now rewrite <- IH. Qed.

Lemma cs_logs_per_name l :
  cs_logs (flat_map per_name l) = map (@CsLogSent Messages) l.
Proof. induction l as [|x l IH]; simpl; auto. now rewrite <- IH. Qed.

Lemma cs_sleeps_per_name l : cs_sleeps (flat_map per_name l) = length l.
Proof.
  unfold cs_sleeps. induction l as [|x l IH]; simpl; auto.
Qed.

Lemma cs_calls_app (a b : list (cs_event Messages)) :
  cs_calls (a ++ b) = cs_calls a ++ cs_calls b.
Proof. apply flat_map_app. Qed.

Lemma cs_logs_app (a b : list (cs_event Messages)) :
  cs_logs (a ++ b) = cs_logs a ++ cs_logs b.
Proof. apply flat_map_app. Qed.

Lemma cs_sleeps_app (a b : list (cs_event Messages)) :
  cs_sleeps (a ++ b) = cs_sleeps a + cs_sleeps b.
Proof. unfold cs_sleeps. now rewrite flat_map_app, length_app. Qed.

(** With the stream open and every send accepted the call does, in this
    order and nothing else: the first log line, the open, then for every
    name in order its [Send], its log line and its sleep, then one
    [CloseAndRecv], then "Client streaming finished" before it looks at
    the error of [CloseAndRecv], and at last the reply's line, or the
    fatal line and the exit.  So every name is sent once, in order, with
    one log line and one sleep each; [CloseAndRecv] is called exactly
    once, after the last sleep; and the "finished" line is there whether
    the reply arrived or not.  The call returns when the reply arrived
    and exits with status 1 otherwise. *)
Theorem client_stream_sends_all_then_closes names :
  csOpenResult T = None -> cs_sends_ok T names ->
  let '(evs, out) := callSayHelloClientStream T names in
  evs =
  CsEvLog CsLogStarted :: CsEvOpen None ::
  flat_map (fun name => [CsEvSend (pb.mkHelloRequest name) None;
                         CsEvLog (CsLogSent name); CsEvSleep])
    (pb.Names names) ++
  CsEvCloseAndRecv (csCloseAndRecvResult T) :: CsEvLog CsLogFinished ::
  match csCloseAndRecvResult T with
  | inl res => [CsEvLog (CsLogMessages res)]
  | inr e => [CsEvLog (CsLogErrReceiving e); CsEvExit 1]
  end /\
  cs_calls evs =
  map (fun name => CsCallSend (pb.mkHelloRequest name) None) (pb.Names names)
  ++ [CsCallCloseAndRecv] /\
  cs_sleeps evs = length (pb.Names names) /\
  match csCloseAndRecvResult T with
  | inl res =>
      out = CsReturned /\
      cs_logs evs =
      CsLogStarted :: map CsLogSent (pb.Names names) ++
      [CsLogFinished; CsLogMessages res]
  | inr e =>
      out = CsExited 1 /\
      cs_logs evs =
      CsLogStarted :: map CsLogSent (pb.Names names) ++
      [CsLogFinished; CsLogErrReceiving e]
  end.
Proof.
  intros Ho Hok. unfold callSayHelloClientStream. rewrite Ho.
  rewrite cs_loop_ok by (intros j name Hj; now apply Hok).
  destruct (csCloseAndRecvResult T) as [res|e];
    (split; [reflexivity|]);
    rewrite cs_calls_app, cs_logs_app, cs_sleeps_app;
    change (CsEvLog CsLogStarted :: CsEvOpen None :: flat_map per_name
              (pb.Names names))
      with ([CsEvLog CsLogStarted; CsEvOpen None] ++
            flat_map per_name (pb.Names names));
    rewrite cs_calls_app, cs_logs_app, cs_sleeps_app,
      cs_calls_per_name, cs_logs_per_name, cs_sleeps_per_name;
    cbn; rewrite Nat.add_0_r; auto.
Qed.

(** When the send of index [k] fails after the earlier ones were
    accepted, the call has sent [k + 1] requests and never calls
    [CloseAndRecv]; it has logged a line for each of the first [k] names,
    then the error, and not the "finished" line; it has slept [k] times
    and exits with status 1. *)
Theorem client_stream_failed_send_stops names k name e :
  csOpenResult T = None ->
  nth_error (pb.Names names) k = Some name ->
  (forall j n, j < k -> nth_error (pb.Names names) j = Some n ->
               csSendResult T j (pb.mkHelloRequest n) = None) ->
  csSendResult T k (pb.mkHelloRequest name) = Some e ->
  let '(evs, out) := callSayHelloClientStream T names in
  out = CsExited 1 /\
  cs_calls evs =
  map (fun n => CsCallSend (pb.mkHelloRequest n) None)
    (firstn k (pb.Names names)) ++
  [CsCallSend (pb.mkHelloRequest name) (Some e)] /\
  cs_logs evs =
  CsLogStarted :: map CsLogSent (firstn k (pb.Names names)) ++
  [CsLogErrSending e] /\
  cs_sleeps evs = k.
Proof.
  intros Ho Hn Hok He. unfold callSayHelloClientStream. rewrite Ho.
  destruct (nth_error_split _ _ Hn) as (a & b & Hab & Hlen).
  rewrite Hab. rewrite (cs_loop_fail a name b e).
  - rewrite firstn_app, Hlen, Nat.sub_diag, firstn_O, app_nil_r.
    rewrite <- Hlen, firstn_all.
    change (CsEvLog CsLogStarted :: CsEvOpen None ::
              flat_map per_name a ++
              [CsEvSend (pb.mkHelloRequest name) (Some e);
               CsEvLog (CsLogErrSending e); CsEvExit 1])
      with ([CsEvLog CsLogStarted; CsEvOpen None] ++
            flat_map per_name a ++
            [CsEvSend (pb.mkHelloRequest name) (Some e);
             CsEvLog (CsLogErrSending e); CsEvExit 1]).
    rewrite !cs_calls_app, !cs_logs_app, !cs_sleeps_app,
      cs_calls_per_name, cs_logs_per_name, cs_sleeps_per_name.
    cbn. rewrite Nat.add_0_r. auto.
  - intros j n Hj. cbn [Nat.add]. apply Hok.
    + rewrite <- Hlen. apply nth_error_Some. congruence.
    + rewrite Hab, nth_error_app1; auto. apply nth_error_Some. congruence.
  - now rewrite Hlen.
Qed.

(** The call returns exactly when the stream was opened, every send was
    accepted and [CloseAndRecv] brought a reply; in every other case the
    process exits with status 1. *)
Theorem client_stream_returns_iff names :
  (snd (callSayHelloClientStream T names) = CsReturned <->
   csOpenResult T = None /\ cs_sends_ok T names /\
   exists res, csCloseAndRecvResult T = inl res) /\
  (snd (callSayHelloClientStream T names) = CsReturned \/
   snd (callSayHelloClientStream T names) = CsExited 1).
Proof.
  assert (Hloop : forall rest i,
             snd (cs_send_loop T i rest) = None ->
             forall j name, nth_error rest j = Some name ->
               csSendResult T (i + j) (pb.mkHelloRequest name) = None).
  { induction rest as [|x rest IH]; intros i H j name Hj.
    - destruct j; discriminate.
    - simpl in H.
      destruct (csSendResult T i (pb.mkHelloRequest x)) eqn:Hs;
        [discriminate|].
      destruct (cs_send_loop T (S i) rest) as [evs r] eqn:Hl. simpl in H.
      destruct j as [|j].
      + inversion Hj; subst. now rewrite Nat.add_0_r.
      + replace (i + S j) with (S i + j) by lia.
        apply (IH (S i)); auto. now rewrite Hl. }
  split.
  - split.
    + unfold callSayHelloClientStream.
      destruct (csOpenResult T) eqn:Ho; [discriminate|].
      destruct (cs_send_loop T 0 (pb.Names names)) as [evs r] eqn:Hl.
      destruct r; [discriminate|].
      destruct (csCloseAndRecvResult T) as [res|e] eqn:Hr; [|discriminate].
      intros _. repeat split; eauto.
      intros i name Hi. apply (Hloop (pb.Names names) 0); auto.
      now rewrite Hl.
    + intros (Ho & Hok & res & Hr).
      unfold callSayHelloClientStream. rewrite Ho.
      rewrite cs_loop_ok by (intros j name Hj; now apply Hok).
      now rewrite Hr.
  - unfold callSayHelloClientStream.
    destruct (csOpenResult T); auto.
    destruct (cs_send_loop T 0 (pb.Names names)) as [evs [e|]]; auto.
    destruct (csCloseAndRecvResult T); auto.
Qed.

End ClientStreamFacts.

(** The final receive fails after three accepted sends: the "finished"
    line is logged all the same, before the error. *)
Lemma client_stream_sends_all_then_closes_witness :
  cs_logs (fst (callSayHelloClientStream csTransportRecvFails mainNames)) =
  [CsLogStarted; CsLogSent "Aman"; CsLogSent "Aryan"; CsLogSent "Satvik";
   CsLogFinished; CsLogErrReceiving connReset].
Proof.
  pose proof (client_stream_sends_all_then_closes csTransportRecvFails
                mainNames eq_refl (fun _ _ _ => eq_refl)) as H.
  cbn in H. destruct H as (_ & _ & _ & _ & H). exact H.
Defined.

(** The third send fails. *)
Lemma client_stream_failed_send_stops_witness :
  cs_calls (fst (callSayHelloClientStream csTransportThirdFails mainNames)) =
  [CsCallSend (pb.mkHelloRequest "Aman") None;
   CsCallSend (pb.mkHelloRequest "Aryan") None;
   CsCallSend (pb.mkHelloRequest "Satvik") (Some connReset)].
Proof.
  assert (Hok : forall j n, j < 2 ->
            nth_error (pb.Names mainNames) j = Some n ->
            csSendResult csTransportThirdFails j (pb.mkHelloRequest n) = None).
  { intros j n Hj _. cbn. destruct j as [|[|j]]; [reflexivity|reflexivity|lia]. }
  pose proof (client_stream_failed_send_stops csTransportThirdFails
                mainNames 2 "Satvik" connReset eq_refl eq_refl Hok eq_refl)
    as H.
  cbn in H. destruct H as (_ & H & _). exact H.
Defined.

(** * [main] of the client *)

Lemma stream_events_map tr : stream_events (map MainStream tr) = tr.
Proof. induction tr as [|ev tr IH]; simpl; congruence. Qed.

Lemma stream_events_app a b :
  stream_events (a ++ b) = stream_events a ++ stream_events b.
Proof. apply flat_map_app. Qed.

Lemma connClose_not_stream tr : ~ In MainConnClose (map MainStream tr).
Proof.
  intros H. apply in_map_iff in H. destruct H as (? & ? & _). discriminate.
Qed.

(** [main] closes the connection exactly when the bidirectional call
    returned, and only then exits with status 0: the three names were
    sent in order, the half-close was issued and the peer ended the
    stream.  Whenever [log.Fatalf] ends the process, the status is 1 and
    the deferred [conn.Close()] does not run; when the dial fails nothing
    is done on any stream. *)
Theorem main_closes_connection_only_on_return dial T sched :
  let '(evs, st) := client_main dial T sched in
  (In MainConnClose evs <-> st = Exited 0) /\
  (st = Exited 0 ->
   dial = None /\
   stream_calls (stream_events evs) =
   [CallSend (pb.mkHelloRequest "Aman") None;
    CallSend (pb.mkHelloRequest "Aryan") None;
    CallSend (pb.mkHelloRequest "Satvik") None;
    CallCloseSend (closeSendResult T)] /\
   In RecvEOF (received (stream_events evs))) /\
  (st = Running \/ st = Exited 0 \/ st = Exited 1) /\
  (forall e, dial = Some e ->
             stream_events evs = [] /\ st = Exited 1 /\
             evs = [MainDial (Some e); MainLogDidNotConnect e; MainExit 1]).
Proof.
  unfold client_main. destruct dial as [e|].
  - split; [split; [cbn; intuition discriminate | discriminate]|].
    split; [discriminate|]. split; [auto|].
    intros e' H; inversion H; subst; auto.
  - set (w := run mainNames T sched (init T)).
    assert (HI : Inv mainNames T w) by apply run_Inv.
    pose proof (status_by_pc _ _ _ HI) as Hst.
    assert (Hne0 : status w <> Exited 0)
      by (destruct Hst as [(Hs & _)|[(Hs & _)|(Hs & _)]];
          rewrite Hs; discriminate).
    assert (Hcases : status w = Running \/ status w = Exited 0 \/
                     status w = Exited 1)
      by (destruct Hst as [(Hs & _)|[(Hs & _)|(Hs & _)]]; auto).
    destruct (main_pc w) eqn:Hpc.
    9: { destruct Hst as [(_ & Hx & _)|[(Hs & _)|(_ & Hx & _)]];
         try congruence.
         rewrite Hs. repeat split; auto; try discriminate.
         intros [H|H]; [discriminate|].
         exfalso. revert H. apply connClose_not_stream. }
    6: { assert (Hf : sender_finished w = true)
           by (unfold sender_finished; now rewrite Hpc).
         pose proof (calls_finished _ _ _ HI Hf) as Hcs.
         pose proof HI as (_ & (_ & Hr) & (_ & Hw) & _).
         unfold past_wait in Hw. rewrite Hpc in Hw. destruct Hw as [Hd _].
         rewrite Hd in Hr. destruct Hr as [Hrc _].
         assert (Hev : stream_events
                         (MainDial None :: map MainStream (trace w) ++
                          [MainConnClose; MainExit 0]) = trace w).
         { change (MainDial None :: map MainStream (trace w) ++
                   [MainConnClose; MainExit 0])
             with ([MainDial None] ++ map MainStream (trace w) ++
                   [MainConnClose; MainExit 0]).
           rewrite !stream_events_app, stream_events_map. cbn.
           now rewrite app_nil_r. }
         rewrite Hev.
         repeat split; auto; try discriminate.
         - right. apply in_app_iff. right. left. reflexivity.
         - rewrite Hrc. apply in_app_iff. right. left. reflexivity. }
    all: (split;
          [split;
           [intros [H|H];
            [discriminate | exfalso; revert H; apply connClose_not_stream]
           | intros H; contradiction]|];
          split; [intros H; contradiction|];
          split; [exact Hcases|];
          intros e' H; discriminate).
Qed.


(** * The text-to-speech command *)

Section Validation.

Variable ToLower : string -> string.
Variable Ext : string -> string.

Local Abbreviation makeSpeechOpt := (cmd.makeSpeechOpt ToLower Ext).

Lemma voiceName_names v name :
  cmd.voiceName v = Some name ->
  In (v, name)
    [("stand-a", speech.VoiceStandardA); ("stand-b", speech.VoiceStandardB);
     ("stand-c", speech.VoiceStandardC); ("stand-d", speech.VoiceStandardD);
     ("wavenet-a", speech.VoiceWavenetA); ("wavenet-b", speech.VoiceWavenetB);
     ("wavenet-c", speech.VoiceWavenetC); ("wavenet-d", speech.VoiceWavenetD)].
Proof.
  unfold cmd.voiceName.
  repeat match goal with
         | |- context [String.eqb v ?s] =>
             destruct (String.eqb_spec v s) as [->|?]
         end; intros H; inversion H; subst; cbn; tauto.
Qed.

(** [makeSpeechOpt] checks the text, the voice, the rate, the pitch and
    the extension in this order and reports the first check that fails:
    each error means that every earlier check passed.  The voice error
    carries the lowered voice, the extension error the path as given. *)
Theorem makeSpeechOpt_reports_first_failure text voice out rate pitch :
  (text = "" -> makeSpeechOpt text voice out rate pitch = inr cmd.ErrEmptyText)
  /\
  match makeSpeechOpt text voice out rate pitch with
  | inr cmd.ErrEmptyText => text = ""
  | inr (cmd.ErrUnknownVoice v) =>
      text <> "" /\ v = ToLower voice /\ cmd.voiceName v = None
  | inr (cmd.ErrRate r) =>
      text <> "" /\ cmd.voiceName (ToLower voice) <> None /\ r = rate /\
      (PrimFloat.ltb rate 0.25 = true \/ PrimFloat.ltb 4.0 rate = true)
  | inr (cmd.ErrPitch p) =>
      text <> "" /\ cmd.voiceName (ToLower voice) <> None /\
      PrimFloat.ltb rate 0.25 = false /\ PrimFloat.ltb 4.0 rate = false /\
      p = pitch /\
      (PrimFloat.ltb pitch (-20) = true \/ PrimFloat.ltb 20 pitch = true)
  | inr (cmd.ErrUnknownExt o) =>
      text <> "" /\ cmd.voiceName (ToLower voice) <> None /\
      PrimFloat.ltb rate 0.25 = false /\ PrimFloat.ltb 4.0 rate = false /\
      PrimFloat.ltb pitch (-20) = false /\ PrimFloat.ltb 20 pitch = false /\
      o = out /\ ToLower (Ext out) <> ".wav" /\ ToLower (Ext out) <> ".mp3"
  | inl _ => text <> ""
  end.
Proof.
  unfold cmd.makeSpeechOpt. split.
  - intros ->. reflexivity.
  - destruct (String.eqb_spec text "") as [->|Ht]; auto.
    destruct (cmd.voiceName (ToLower voice)) as [name|] eqn:Hv; auto.
    destruct (PrimFloat.ltb rate 0.25) eqn:Hr1;
      [cbn; intuition congruence|].
    destruct (PrimFloat.ltb 4.0 rate) eqn:Hr2;
      [cbn; intuition congruence|].
    destruct (PrimFloat.ltb pitch (-20)) eqn:Hp1;
      [cbn; intuition congruence|].
    destruct (PrimFloat.ltb 20 pitch) eqn:Hp2;
      [cbn; intuition congruence|].
    cbn.
    destruct (String.eqb_spec (ToLower (Ext out)) ".wav"); auto.
    destruct (String.eqb_spec (ToLower (Ext out)) ".mp3"); auto.
    repeat split; auto; congruence.
Qed.

(** An accepted option is Japanese, carries one of the eight voices, the
    one the lowered flag names, the rate and the pitch as given and inside
    their ranges, and an encoding decided by the lowered extension alone:
    LINEAR16 for [.wav], MP3 for [.mp3], never OGG_OPUS. *)
Theorem makeSpeechOpt_accepts text voice out rate pitch opt :
  makeSpeechOpt text voice out rate pitch = inl opt ->
  text <> "" /\
  speech.LanguageCode opt = "ja-JP" /\
  cmd.voiceName (ToLower voice) = Some (speech.VoiceName opt) /\
  In (speech.VoiceName opt)
    ["ja-JP-Standard-A"; "ja-JP-Standard-B"; "ja-JP-Standard-C";
     "ja-JP-Standard-D"; "ja-JP-Wavenet-A"; "ja-JP-Wavenet-B";
     "ja-JP-Wavenet-C"; "ja-JP-Wavenet-D"] /\
  speech.AudioSpeakingRate opt = rate /\ speech.AudioPitch opt = pitch /\
  PrimFloat.ltb rate 0.25 = false /\ PrimFloat.ltb 4.0 rate = false /\
  PrimFloat.ltb pitch (-20) = false /\ PrimFloat.ltb 20 pitch = false /\
  ((ToLower (Ext out) = ".wav" /\
    speech.AudioEncoding opt = texttospeechpb.AudioEncoding_LINEAR16) \/
   (ToLower (Ext out) = ".mp3" /\
    speech.AudioEncoding opt = texttospeechpb.AudioEncoding_MP3)).
Proof.
  unfold cmd.makeSpeechOpt.
  destruct (String.eqb_spec text "") as [->|Ht]; [discriminate|].
  destruct (cmd.voiceName (ToLower voice)) as [name|] eqn:Hv;
    [|discriminate].
  destruct (PrimFloat.ltb rate 0.25) eqn:Hr1; [discriminate|].
  destruct (PrimFloat.ltb 4.0 rate) eqn:Hr2; [discriminate|].
  destruct (PrimFloat.ltb pitch (-20)) eqn:Hp1; [discriminate|].
  destruct (PrimFloat.ltb 20 pitch) eqn:Hp2; [discriminate|].
  cbn.
  assert (Hin : In name
    ["ja-JP-Standard-A"; "ja-JP-Standard-B"; "ja-JP-Standard-C";
     "ja-JP-Standard-D"; "ja-JP-Wavenet-A"; "ja-JP-Wavenet-B";
     "ja-JP-Wavenet-C"; "ja-JP-Wavenet-D"]).
  { apply voiceName_names in Hv. cbn in Hv |- *.
    repeat match goal with
           | H : _ \/ _ |- _ => destruct H as [H|H]
           | H : (_, _) = (_, _) |- _ => inversion H; subst; clear H
           end; tauto. }
  destruct (String.eqb_spec (ToLower (Ext out)) ".wav") as [Hw|Hw].
  - intros H; inversion H; subst; cbn. repeat split; auto.
  - destruct (String.eqb_spec (ToLower (Ext out)) ".mp3") as [Hm|Hm];
      [|discriminate].
    intros H; inversion H; subst; cbn. repeat split; auto.
Qed.

(** The two range checks are written with comparisons that are all false
    on a NaN, so a NaN rate or pitch passes them: with a text, a known
    voice and a known extension, a NaN pitch is accepted beside every rate
    in range, a NaN rate beside every pitch in range, and the NaN reaches
    the option. *)
Theorem makeSpeechOpt_lets_nan_through text voice out name :
  text <> "" -> cmd.voiceName (ToLower voice) = Some name ->
  ToLower (Ext out) = ".mp3" ->
  (forall rate,
      PrimFloat.ltb rate 0.25 = false -> PrimFloat.ltb 4.0 rate = false ->
      makeSpeechOpt text voice out rate nan =
      inl (speech.mkSpeechOption "ja-JP" name
             texttospeechpb.AudioEncoding_MP3 rate nan)) /\
  (forall pitch,
      PrimFloat.ltb pitch (-20) = false -> PrimFloat.ltb 20 pitch = false ->
      makeSpeechOpt text voice out nan pitch =
      inl (speech.mkSpeechOption "ja-JP" name
             texttospeechpb.AudioEncoding_MP3 nan pitch)).
Proof.
  intros Ht Hv He. unfold cmd.makeSpeechOpt.
  destruct (String.eqb_spec text "") as [|_]; [contradiction|].
  rewrite Hv, He. split.
  - intros rate H1 H2. rewrite H1, H2. reflexivity.
  - intros pitch H1 H2. rewrite H1, H2. reflexivity.
Qed.

End Validation.

Lemma makeSpeechOpt_accepts_witness :
  speech.AudioEncoding
    (speech.mkSpeechOption "ja-JP" "ja-JP-Wavenet-B"
       texttospeechpb.AudioEncoding_MP3 1 0) =
  texttospeechpb.AudioEncoding_MP3 /\
  asciiToLower (pathExt "out/hello.MP3") = ".mp3".
Proof.
  pose proof (makeSpeechOpt_accepts asciiToLower pathExt "hello" "Wavenet-B"
                "out/hello.MP3" 1 0 _ eq_refl) as H.
  destruct H as (_ & _ & _ & _ & _ & _ & _ & _ & _ & _ & [[Hw _]|[Hm He]]).
  - discriminate Hw.
  - split; [exact He | exact Hm].
Defined.

Lemma makeSpeechOpt_lets_nan_through_witness :
  cmd.makeSpeechOpt asciiToLower pathExt "hello" "STAND-C" "a.mp3" nan nan =
  inl (speech.mkSpeechOption "ja-JP" "ja-JP-Standard-C"
         texttospeechpb.AudioEncoding_MP3 nan nan).
Proof.
  assert (Ht : "hello" <> "") by discriminate.
  exact (proj1 (makeSpeechOpt_lets_nan_through asciiToLower pathExt
                  "hello" "STAND-C" "a.mp3" "ja-JP-Standard-C"
                  Ht eq_refl eq_refl) nan eq_refl eq_refl).
Defined.

Ltac cli_unfold :=
  unfold cmd.Run, cmd.handleStreaming, cmd.handleNonStreaming,
    speech.ProcessTextStream, speech.Run, speech.NewSpeechClient,
    speech.NewStreamAudioProcessor in *.

(** Case analysis on every result the command looks at, innermost
    first. *)
Ltac cli_cases :=
  repeat match goal with
         | |- context [match ?x with _ => _ end] =>
             lazymatch x with
             | context [match _ with _ => _ end] => fail
             | _ => destruct x eqn:?
             end
         end.

Ltac empty_text_absurd :=
  match goal with
  | H : String.eqb ?t "" = true,
    H' : cmd.makeSpeechOpt _ _ ?t _ _ _ _ = inl _ |- _ =>
      apply String.eqb_eq in H; rewrite H in H'; discriminate H'
  end.

Section Command.

Variable ToLower : string -> string.
Variable Ext : string -> string.

Local Abbreviation makeSpeechOpt := (cmd.makeSpeechOpt ToLower Ext).
Local Abbreviation Run := (cmd.Run ToLower Ext).

(** Every run ends with one of the five exit codes.  A run that exits
    with 0 has written one line to standard output and nothing to
    [cli.ErrStream]; every other run has written exactly one line to
    [cli.ErrStream] and nothing to standard output.  A parse error is
    reported twice: the [flag] package has printed it, with the usage,
    before [Run] writes it to [cli.ErrStream]; after a successful parse
    the [flag] package has printed nothing. *)
Theorem run_reports_exactly_once env speaker parsed :
  let '(evs, code) := Run env speaker parsed in
  In code [cmd.ExitCodeOK; cmd.ExitCodeParseFlagsError;
           cmd.ExitCodeValidateError; cmd.ExitCodeInternalError;
           cmd.ExitCodeOutputFileError] /\
  (code = cmd.ExitCodeOK ->
   stderr_lines evs = [] /\ length (stdout_lines evs) = 1 /\
   flag_reports evs = []) /\
  (code <> cmd.ExitCodeOK ->
   length (stderr_lines evs) = 1 /\ stdout_lines evs = []) /\
  (forall err, parsed = inr err ->
               flag_reports evs = [err] /\
               stderr_lines evs = [cmd.ErrParse err] /\
               exists post, evs = cmd.EFlagReport err :: post) /\
  (forall f, parsed = inl f -> flag_reports evs = []).
Proof.
  cli_unfold. cli_cases; cbn; repeat split; auto; try discriminate;
    try tauto; try (intros H; exfalso; apply H; reflexivity);
    try (intros ? H; inversion H; subst; repeat split; eauto; fail);
    try (inversion H; subst; eauto).
Qed.

(** Two checks never fire.  [Run] asks for a text only after
    [makeSpeechOpt] has refused an empty one, and [handleStreaming] asks
    for an input file only after [Run] has: neither message is ever
    written. *)
Theorem run_never_reaches_second_checks env speaker parsed :
  let '(evs, code) := Run env speaker parsed in
  ~ In cmd.ErrNeedsText (stderr_lines evs) /\
  ~ In cmd.ErrNeedsInputFile (stderr_lines evs).
Proof.
  cli_unfold. cli_cases; try empty_text_absurd; try congruence;
    cbn; split; intuition discriminate.
Qed.

(** Nothing happens before the flags are accepted.  A parse error ends
    the run with the report of the [flag] package and then the error on
    [cli.ErrStream], a refused option with its one line on
    [cli.ErrStream]: no client is created, no file is opened, created or
    written, nothing is synthesized.  Exit code 2 comes from
    [makeSpeechOpt] and from nowhere else; in streaming mode it is the
    dummy text that is validated, so an empty [-text] is no obstacle
    there. *)
Theorem run_validates_before_any_effect env speaker parsed :
  let '(evs, code) := Run env speaker parsed in
  (forall err, parsed = inr err ->
               evs = [cmd.EFlagReport err; cmd.EStderr (cmd.ErrParse err)] /\
               code = cmd.ExitCodeParseFlagsError) /\
  (code = cmd.ExitCodeValidateError <->
   exists f err,
     parsed = inl f /\
     makeSpeechOpt
       (if cmd.streaming f then "dummy-text-for-streaming" else cmd.text f)
       (cmd.voice f) (cmd.out f) (cmd.rate f) (cmd.pitch f) = inr err /\
     evs = [cmd.EStderr (cmd.ErrValidate err)]).
Proof.
  cli_unfold. cli_cases; try empty_text_absurd; try congruence;
    (split;
     [intros ? H; inversion H; subst; auto; try discriminate
     | split;
       [intros H; try discriminate H;
        match goal with
        | Hm : cmd.makeSpeechOpt _ _ _ _ _ _ _ = inr ?o,
          Hb : cmd.streaming ?f = _ |- _ =>
            exists f, o; rewrite Hb; auto
        end
       | intros (f' & err' & H1 & H2 & H3); inversion H1; subst;
         try discriminate; try congruence;
         try (rewrite ?Heqb in H2; congruence)]]).
Qed.

(** Flags that change nothing.  [-chunk-size] is handed to the stream
    processor, which never reads it: no value of it changes the events or
    the exit code of any run.  In streaming mode [-text] is not looked at,
    and outside it [-input-file] is not. *)
Theorem run_ignores_unused_flags env speaker
    text voice out inputFile rate pitch streaming chunkSize :
  (forall chunkSize',
      Run env speaker
        (inl (cmd.mkFlags text voice out inputFile rate pitch streaming
                chunkSize')) =
      Run env speaker
        (inl (cmd.mkFlags text voice out inputFile rate pitch streaming
                chunkSize))) /\
  (forall text',
      Run env speaker
        (inl (cmd.mkFlags text' voice out inputFile rate pitch true
                chunkSize)) =
      Run env speaker
        (inl (cmd.mkFlags text voice out inputFile rate pitch true
                chunkSize))) /\
  (forall inputFile',
      Run env speaker
        (inl (cmd.mkFlags text voice out inputFile' rate pitch false
                chunkSize)) =
      Run env speaker
        (inl (cmd.mkFlags text voice out inputFile rate pitch false
                chunkSize))).
Proof.
  split; [|split]; intros x; cli_unfold; cbn [cmd.text cmd.voice cmd.out
    cmd.inputFile cmd.rate cmd.pitch cmd.streaming cmd.chunkSize
    speech.option_ speech.outputW]; reflexivity.
Qed.

(** In streaming mode the output file is created before anything is
    read or synthesized.  The input is read only in streaming mode, from
    the [-input-file] file, after that file has been opened and the
    output file created, and before any synthesis.  Whenever a synthesis
    request is sent in streaming mode, the input file has been opened,
    the output file created and the input read before it, and when the
    synthesis fails the run exits with 3 having created the output file
    and written no audio to it.  Outside streaming mode a failed
    synthesis exits with 3 and touches no file. *)
Theorem failed_synthesis_and_the_output_file env speaker f :
  let '(evs, code) := Run env speaker (inl f) in
  (forall p r,
      In (cmd.EReadAll p r) evs ->
      cmd.streaming f = true /\ p = cmd.inputFile f /\
      r = cmd.readAll env (cmd.inputFile f) /\
      exists pre post,
        evs = pre ++ cmd.EReadAll p r :: post /\
        In (cmd.EOpen (cmd.inputFile f) None) pre /\
        In (cmd.ECreate (cmd.out f) None) pre /\
        synth_calls pre = []) /\
  (cmd.streaming f = true ->
   forall req r,
     In (req, r) (synth_calls evs) ->
     exists pre post,
       evs = pre ++ cmd.ESynthesize req r :: post /\
       In (cmd.EOpen (cmd.inputFile f) None) pre /\
       In (cmd.ECreate (cmd.out f) None) pre /\
       (exists content,
           In (cmd.EReadAll (cmd.inputFile f) (inl content)) pre) /\
       (forall err, r = inr err ->
                    code = cmd.ExitCodeInternalError /\
                    audio_written evs = [] /\
                    In (cmd.out f) (files_opened evs))) /\
  (cmd.streaming f = false ->
   forall req err,
     In (req, inr err) (synth_calls evs) ->
     code = cmd.ExitCodeInternalError /\ output_touched evs = [] /\
     files_opened evs = []).
Proof.
  cli_unfold. cli_cases; cbn;
    (split;
     [intros req r Hin
     |split; (intros Hs; try discriminate Hs; intros req r Hin)]).
  all: try contradiction.
  all: repeat match goal with
              | H : _ \/ _ |- _ => destruct H as [H|H]
              | H : (_, _) = (_, _) |- _ => inversion H; subst; clear H
              | H : False |- _ => contradiction
              | H : _ = cmd.EReadAll _ _ |- _ =>
                  first [discriminate H | inversion H; subst; clear H]
              end.
  all: try (repeat split; auto; fail).
  all: try (split; [auto|]; split; [auto|]; split; [congruence|]).
  all: first
         [ eexists [_; _; _; _], _; split; [reflexivity|]
         | eexists [_; _; _], _; split; [reflexivity|]
         | eexists [_; _], _; split; [reflexivity|] ].
  all: (split; [cbn; auto|]); (split; [cbn; auto|]).
  all: try reflexivity.
  all: (split; [eexists; cbn; eauto|]).
  all: intros err He; try discriminate He.
  all: repeat split; cbn; auto.
Qed.

(** What exit code 0 means.  The flags were accepted; exactly one
    synthesis request was sent, built by [NewRequest] from the accepted
    option and from the [-text] flag or, in streaming mode, from the whole
    content of the input file; it succeeded; and its audio, all of it and
    nothing else, was written to the [-o] file. *)
Theorem success_writes_the_synthesized_audio env speaker f :
  let '(evs, code) := Run env speaker (inl f) in
  code = cmd.ExitCodeOK ->
  exists opt content resp,
    makeSpeechOpt
      (if cmd.streaming f then "dummy-text-for-streaming" else cmd.text f)
      (cmd.voice f) (cmd.out f) (cmd.rate f) (cmd.pitch f) = inl opt /\
    (if cmd.streaming f
     then cmd.readAll env (cmd.inputFile f) = inl content
     else content = cmd.text f) /\
    cmd.synthesize env (speech.NewRequest content opt) = inl resp /\
    synth_calls evs =
    [(speech.NewRequest content opt,
      inl (texttospeechpb.AudioContent resp))] /\
    audio_written evs = [(cmd.out f, texttospeechpb.AudioContent resp)] /\
    stdout_lines evs =
    [if cmd.streaming f then cmd.OutStreamingCreated (cmd.out f)
     else cmd.OutAudioCreated (cmd.out f)].
Proof.
  cli_unfold. cli_cases; try empty_text_absurd; cbn;
    intros Hc; try discriminate Hc;
    cbn [speech.option_ speech.outputW] in *;
    do 3 eexists; repeat split; eauto.
Qed.

(** No run sends more than one synthesis request, and none writes audio
    that did not come from it. *)
Theorem at_most_one_synthesis env speaker parsed :
  let '(evs, code) := Run env speaker parsed in
  length (synth_calls evs) <= 1 /\
  (forall path data,
      In (path, data) (audio_written evs) ->
      exists req, In (req, inl data) (synth_calls evs)) /\
  (synth_calls evs = [] -> audio_written evs = []).
Proof.
  cli_unfold. cli_cases; cbn; (split; [lia|]);
    (split; [|intros H; try discriminate H; reflexivity]);
    intros path data Hin; try contradiction;
    repeat match goal with
           | H : _ \/ _ |- _ => destruct H as [H|H]
           | H : (_, _) = (_, _) |- _ => inversion H; subst; clear H
           | H : False |- _ => contradiction
           end; eauto.
Qed.

(** Every file the streaming handler opens or creates is closed again
    before it returns, whatever fails in between, the output file first:
    the closes are the opens in reverse.  Outside streaming mode the
    command opens no file of its own. *)
Theorem opened_files_are_closed env speaker parsed :
  let '(evs, code) := Run env speaker parsed in
  files_closed evs = rev (files_opened evs) /\
  (forall f, parsed = inl f -> cmd.streaming f = false ->
             files_opened evs = []).
Proof.
  cli_unfold. cli_cases; cbn; split; auto;
    intros f' H; inversion H; subst; intros Hs; congruence.
Qed.

(** Streaming mode without an input file.  The flag is looked at only
    after the option was validated and the client obtained, so the run
    exits with 2 when the option is refused, with 3 when the client cannot
    be created, and with 1 for the missing file only otherwise; in no case
    is a file opened, created or written or anything synthesized. *)
Theorem streaming_without_input_file env speaker
    text voice out rate pitch chunkSize :
  let '(evs, code) :=
    Run env speaker
      (inl (cmd.mkFlags text voice out "" rate pitch true chunkSize)) in
  files_opened evs = [] /\ output_touched evs = [] /\
  synth_calls evs = [] /\
  match makeSpeechOpt "dummy-text-for-streaming" voice out rate pitch with
  | inr err =>
      code = cmd.ExitCodeValidateError /\
      stderr_lines evs = [cmd.ErrValidate err]
  | inl _ =>
      match speaker, cmd.newClient env with
      | None, inr err =>
          code = cmd.ExitCodeInternalError /\
          stderr_lines evs = [cmd.ErrPlain err]
      | _, _ =>
          code = cmd.ExitCodeParseFlagsError /\
          stderr_lines evs = [cmd.ErrNeedsInputFileFlag]
      end
  end.
Proof.
  cli_unfold. cbn [cmd.text cmd.voice cmd.out cmd.inputFile cmd.rate
                   cmd.pitch cmd.streaming cmd.chunkSize].
  destruct (makeSpeechOpt "dummy-text-for-streaming" voice out rate pitch);
    destruct speaker; destruct (cmd.newClient env); cbn; auto.
Qed.

(** The speech client is a singleton.  With the package variable set,
    [NewSpeechClient] returns that speaker and does not call
    [texttospeech.NewClient], whatever it would have returned.  A call
    that creates a client sets the variable, so every later call returns
    the same speaker; a call that fails leaves the variable unset, so the
    next call tries again. *)
Theorem NewSpeechClient_is_a_singleton newClient speaker :
  let '(r, speaker', called) := speech.NewSpeechClient newClient speaker in
  (called = false <-> speaker <> None) /\
  (forall s, speaker = Some s -> r = inl s /\ speaker' = speaker) /\
  (forall s, r = inl s ->
             speaker' = Some s /\
             forall newClient',
               speech.NewSpeechClient newClient' speaker' =
               (inl s, speaker', false)) /\
  (forall err, r = inr err ->
               speaker = None /\ speaker' = None /\ newClient = inr err /\
               forall newClient',
                 speech.NewSpeechClient newClient' speaker' =
                 speech.NewSpeechClient newClient' None).
Proof.
  unfold speech.NewSpeechClient.
  destruct speaker as [s0|]; [|destruct newClient as [c|e]];
    (split; [split; [intros H; congruence
                    | intros H; try reflexivity; congruence]|]);
    (split; [intros s H; inversion H; subst; auto|]);
    (split; [intros s H; inversion H; subst; auto
            | intros err H; inversion H; subst; auto]).
Qed.

(** A run that enters with the client already created never calls
    [texttospeech.NewClient]; a run that enters without calls it at most
    once, and only after the option was accepted. *)
Theorem run_creates_at_most_one_client env speaker parsed :
  let '(evs, code) := Run env speaker parsed in
  client_calls evs <= 1 /\
  (speaker <> None -> client_calls evs = 0) /\
  (client_calls evs = 1 -> code <> cmd.ExitCodeValidateError /\
                           exists f, parsed = inl f).
Proof.
  cli_unfold. cli_cases; try empty_text_absurd; cbn;
    (split; [lia|]);
    (split; [intros H; try reflexivity; congruence|]);
    intros H; try discriminate H; split; eauto; discriminate.
Qed.

End Command.

(** A run outside streaming mode in which everything succeeds. *)
Lemma success_writes_the_synthesized_audio_witness :
  exists resp,
    audio_written
      (fst (cmd.Run asciiToLower pathExt envOk None (inl nonStreamingFlags))) =
    [("out/hello.MP3", texttospeechpb.AudioContent resp)].
Proof.
  pose proof (success_writes_the_synthesized_audio asciiToLower pathExt
                envOk None nonStreamingFlags) as H.
  cbv beta iota zeta delta [cmd.Run cmd.handleNonStreaming speech.Run
    speech.NewSpeechClient envOk nonStreamingFlags cmd.streaming cmd.text
    cmd.voice cmd.out cmd.rate cmd.pitch cmd.newClient cmd.synthesize
    cmd.writeFile] in H.
  change (cmd.makeSpeechOpt asciiToLower pathExt "hello" "Wavenet-B"
            "out/hello.MP3" 1 0)
    with (@inl speech.SpeechOption cmd.opt_error
            (speech.mkSpeechOption "ja-JP" "ja-JP-Wavenet-B"
               texttospeechpb.AudioEncoding_MP3 1 0)) in H.
  cbn in H.
  destruct (H eq_refl) as (opt & content & resp & _ & _ & _ & _ & Hw & _).
  exists resp. exact Hw.
Defined.

(** * No goroutine is left behind *)

Lemma run_stuck names T more w :
  stuck names T w -> run names T more w = w.
Proof.
  intros [Hm Hr]. induction more as [|t more IH]; simpl; auto.
  destruct t; [rewrite Hm | rewrite Hr]; exact IH.
Qed.

(** When the bidirectional call returns, the receiver goroutine has
    finished too: neither goroutine can take another step, and no
    continuation of the schedule changes the world. *)
Theorem return_leaves_no_goroutine names T sched :
  let w := run names T sched (init T) in
  main_pc w = MReturned ->
  recv_pc w = RDone /\ stuck names T w /\
  forall more, run names T (sched ++ more) (init T) = w.
Proof.
  intros w Hpc.
  assert (HI : Inv names T w) by apply run_Inv.
  pose proof HI as (_ & _ & (_ & Hw) & _).
  unfold past_wait in Hw. rewrite Hpc in Hw. destruct Hw as [Hd _].
  assert (Hst : stuck names T w).
  { unfold stuck, step, step_main, step_recv. rewrite Hpc, Hd.
    destruct (status w); auto. }
  repeat split; auto; try apply Hst.
  intros more. rewrite run_app. now apply run_stuck.
Qed.

Lemma return_leaves_no_goroutine_witness :
  run mainNames transportA
    ((repeat TMain 8 ++ repeat TRecv 8 ++ repeat TMain 2) ++ [TRecv; TMain])
    (init transportA) =
  run mainNames transportA (repeat TMain 8 ++ repeat TRecv 8 ++ repeat TMain 2)
    (init transportA).
Proof.
  pose proof (return_leaves_no_goroutine mainNames transportA
                (repeat TMain 8 ++ repeat TRecv 8 ++ repeat TMain 2)
                eq_refl) as (_ & _ & H).
  exact (H [TRecv; TMain]).
Defined.
